(** * mongo-connector-postgresql: the mapping engine

    A shallow embedding of [mongo_connector/doc_managers/mappings.py]:
    the lookup accessors, the document transformer, the value transform
    evaluator and the configuration validator, followed by the properties
    the specification states about them.

    Conventions of the embedding.
    - A Python [dict] that is only looked up, or whose iteration order is
      arbitrary (the JSON configuration), is a [gmap]; iteration over it is
      iteration over [map_to_list].
    - A Python [dict] that is built and mutated key by key (the flattened
      document, the record handed to the destination store) is an
      insertion-ordered association list.
    - A raised exception is the [Raise] branch of [result]; the log written
      through [LOG.error] is threaded explicitly (monad [M]).
    - Everything imported from outside the module (the flattener, the
      namespace splitter, [importlib], RestrictedPython, the type-name
      constants) is a field of the class [Runtime].
    - Where a property is about what a run leaves behind, the state the
      imported functions can read and change is threaded as well (class
      [Interpreter], monad [Process.P]). *)

From Stdlib Require Import Ascii String ZArith.
From stdpp Require Import gmap strings list fin_maps pretty.

#[local] Set Warnings "-register-all".
Local Open Scope string_scope.
Local Open Scope list_scope.

(** ** Exceptions and fallible computations *)

(** The messages [validate_mapping] gives to [InvalidConfiguration]. *)
Inductive config_error :=
| SchemaInvalid
| PkNotFound (pk database collection : string)
| CollectionNotFound (dest database : string)
| FkNotFound (fk database dest : string)
| FkTypeMismatch (database dest fk collection pk : string)
| ValueFieldNotMapped (database collection valuefield dest : string).

Inductive exn :=
| KeyError (key : string)
| IndexError
| TypeError
| ValueError
| ImportError (name : string)
| AttributeError (name : string)
| NameError (name : string)
| SyntaxError
| OverflowError
| SystemExit
| InvalidConfiguration (err : config_error).

(** [except Exception] catches every exception class but the ones that
    derive from [BaseException] only. *)
Definition is_Exception (e : exn) : bool :=
  match e with
  | SystemExit => false
  | _ => true
  end.

Inductive result (A : Type) :=
| Ok (a : A)
| Raise (e : exn).
Arguments Ok {A} a.
Arguments Raise {A} e.

#[global] Instance result_ret : MRet result := fun _ a => Ok a.
#[global] Instance result_bind : MBind result := fun _ _ f r =>
  match r with
  | Ok a => f a
  | Raise e => Raise e
  end.

(** The text of the message, as the format strings of the source build it. *)
Definition config_message (c : config_error) : string :=
  match c with
  | SchemaInvalid => "Supplied mapping file is invalid"
  | PkNotFound pk database collection =>
      "Primary key " +:+ pk +:+ " mapping not found in "
        +:+ database +:+ "." +:+ collection
  | CollectionNotFound dest database =>
      "Collection " +:+ dest +:+ " mapping not found in " +:+ database
  | FkNotFound fk database dest =>
      "Foreign key " +:+ fk +:+ " mapping not found in "
        +:+ database +:+ "." +:+ dest
  | FkTypeMismatch database dest fk collection pk =>
      "Foreign key " +:+ database +:+ "." +:+ dest +:+ "." +:+ fk
        +:+ " type mismatch with primary key "
        +:+ database +:+ "." +:+ collection +:+ "." +:+ pk
  | ValueFieldNotMapped database collection valuefield dest =>
      "Value field " +:+ database +:+ "." +:+ collection +:+ "." +:+ valuefield
        +:+ " not mapped in " +:+ database +:+ "." +:+ dest
  end.

(** ** Python values and dictionaries *)

(** Scalars of a flattened document; the file object [open] returns; any
    other object of the interpreter, by its name. *)
Inductive value :=
| VNone
| VBool (b : bool)
| VInt (z : Z)
| VStr (s : string)
| VFile (path mode : string)
| VObject (name : string).

#[global] Instance value_eq_dec : EqDecision value.
Proof. solve_decision. Defined.

(** An insertion-ordered [dict] from field names to scalars. *)
Abbreviation record := (list (string * value)).

Fixpoint dict_get (k : string) (d : record) : result value :=
  match d with
  | [] => Raise (KeyError k)
  | (k', v) :: d' => if decide (k' = k) then Ok v else dict_get k d'
  end.

(** [d.pop(k)] *)
Fixpoint dict_pop (k : string) (d : record) : result (value * record) :=
  match d with
  | [] => Raise (KeyError k)
  | (k', v) :: d' =>
      if decide (k' = k) then Ok (v, d')
      else '(x, r) ← dict_pop k d'; Ok (x, (k', v) :: r)
  end.

(** [d[k] = v]: an existing key keeps its place, a new one goes last. *)
Fixpoint dict_set (k : string) (v : value) (d : record) : record :=
  match d with
  | [] => [(k, v)]
  | (k', v') :: d' =>
      if decide (k' = k) then (k, v) :: d' else (k', v') :: dict_set k v d'
  end.

Definition dict_keys (d : record) : list string := d.*1.

(** [m[k]] on a dictionary of the configuration. *)
Definition getitem {V} (k : string) (m : gmap string V) : result V :=
  match m !! k with
  | Some v => Ok v
  | None => Raise (KeyError k)
  end.

(** [k in m] *)
Definition contains {V} (k : string) (m : gmap string V) : bool :=
  bool_decide (is_Some (m !! k)).

(** [sub in s] on strings: the substring test. *)
Fixpoint str_contains (sub s : string) : bool :=
  if String.prefix sub s then true
  else match s with
       | EmptyString => false
       | String _ s' => str_contains sub s'
       end.

(** ** The mapping configuration

    The deserialized JSON: database name -> collection name -> entries. An
    entry of a collection is either the string stored under ["pk"] or the
    object describing a field, whose attributes ([type], [dest],
    [transform], [fk], [valueField]) are strings. *)
Inductive entry :=
| EStr (s : string)
| EObj (o : gmap string string).

#[global] Instance entry_eq_dec : EqDecision entry.
Proof. solve_decision. Defined.

Abbreviation field_mapping := (gmap string string).
Abbreviation collection_mapping := (gmap string entry).
Abbreviation database_mapping := (gmap string (gmap string entry)).
Abbreviation mapping_config := (gmap string (gmap string (gmap string entry))).

(** [k in v] where [v] is an entry: key membership on an object, substring
    test on a string. *)
Definition entry_contains (k : string) (v : entry) : bool :=
  match v with
  | EStr s => str_contains k s
  | EObj o => contains k o
  end.

(** [v[k]] where [v] is an entry: a string cannot be indexed by a string. *)
Definition entry_getitem (k : string) (v : entry) : result string :=
  match v with
  | EStr _ => Raise TypeError
  | EObj o => getitem k o
  end.

(** ** String helpers of the Python runtime *)

(** [s[0]] *)
Definition str_head (s : string) : result Ascii.ascii :=
  match s with
  | EmptyString => Raise IndexError
  | String c _ => Ok c
  end.

(** [s[1:]] *)
Definition str_tail (s : string) : string :=
  match s with
  | EmptyString => EmptyString
  | String _ s' => s'
  end.

(** The split of [s] at its last dot, when it has one. *)
Fixpoint split_last_dot (s : string) : option (string * string) :=
  match s with
  | EmptyString => None
  | String c s' =>
      match split_last_dot s' with
      | Some (a, b) => Some (String c a, b)
      | None => if Ascii.eqb c "."%char then Some (EmptyString, s') else None
      end
  end.

(** [s.rsplit('.', 1)] *)
Definition rsplit_dot (s : string) : list string :=
  match split_last_dot s with
  | Some (a, b) => [a; b]
  | None => [s]
  end.

(** ** What the module imports

    [callable] is a function of one argument, as a transform is called, and
    a function of that argument only (sections 4.3 and 5 of the specification
    take transforms to be pure);
    [builtin] a function of the interpreter's builtins table. A module is the
    dictionary of its attributes. *)
Abbreviation callable := (value → result value).
Abbreviation builtin := (list value → result value).
Abbreviation pymodule := (gmap string (value → result value)).
Abbreviation namespace_dict := (gmap string (gmap string (list value → result value))).

Class Runtime := {
  (** the raw documents, and [DocumentFlattener().format_document] *)
  document : Type;
  format_document : document → record;
  (** [utils.db_and_collection], [utils.ARRAY_TYPE],
      [utils.ARRAY_OF_SCALARS_TYPE] *)
  db_and_collection : string → string * string;
  ARRAY_TYPE : string;
  ARRAY_OF_SCALARS_TYPE : string;
  (** [importlib.import_module] *)
  import_module : string → result pymodule;
  (** [RestrictedPython.Guards.safe_builtins],
      [RestrictedPython.compile_restricted] in mode ['exec'], and [exec]:
      the code is run with the given globals and the names it binds are
      returned (the [restricted_locals] of the source). *)
  safe_builtins : gmap string builtin;
  code : Type;
  compile_restricted : string → result code;
  exec_code : code → namespace_dict → result pymodule
}.

(** [getattr(module, name)] *)
Definition getattr (m : pymodule) (name : string) : result callable :=
  match m !! name with
  | Some f => Ok f
  | None => Raise (AttributeError name)
  end.

(** ** Logging

    The three [LOG.error] calls of [get_transformed_value], each with the
    exception it formats into its message. *)
Inductive log_record :=
| TransformFunctionError (err : exn)
| TransformCodeError (err : exn)
| FieldTransformationError (err : exn).

Definition log_message (r : log_record) : string :=
  match r with
  | TransformFunctionError _ => "Impossible to use transform function: {0}"
  | TransformCodeError _ => "Impossible to use transform code: {0}"
  | FieldTransformationError _ =>
      "An error occured during field transformation: {0}"
  end.

(** A computation that may raise and may append to the log. *)
Definition M (A : Type) : Type := list log_record → result A * list log_record.

#[global] Instance M_ret : MRet M := fun _ a log => (Ok a, log).
#[global] Instance M_bind : MBind M := fun _ _ f m log =>
  match m log with
  | (Ok a, log') => f a log'
  | (Raise e, log') => (Raise e, log')
  end.

Definition lift {A} (r : result A) : M A := fun log => (r, log).
Definition LOG_error (r : log_record) : M unit := fun log => (Ok tt, log ++ [r]).

(** Loops: a [for] over a list with an accumulator, in both monads. *)
Fixpoint foldM {A B} (f : B → A → result B) (b : B) (l : list A) : result B :=
  match l with
  | [] => Ok b
  | a :: l' => b' ← f b a; foldM f b' l'
  end.

Fixpoint for_each {A} (f : A → result unit) (l : list A) : result unit :=
  match l with
  | [] => Ok tt
  | a :: l' => f a;; for_each f l'
  end.

Fixpoint filterM {A} (f : A → result bool) (l : list A) : result (list A) :=
  match l with
  | [] => Ok []
  | a :: l' =>
      b ← f a; r ← filterM f l'; Ok (if b : bool then a :: r else r)
  end.

Fixpoint mapM_log {A B} (f : A → M B) (l : list A) : M (list B) :=
  match l with
  | [] => mret []
  | a :: l' => b ← f a; r ← mapM_log f l'; mret (b :: r)
  end.

(** ** The module [mappings.py] *)

Section mappings.
Context {rt : Runtime}.

(** *** Document transformer *)

Definition _clean_and_flatten_doc
    (mappings : mapping_config) (doc : document) (namespace : string)
    : record :=
  let flat_doc := format_document doc in
  let '(db, coll) := db_and_collection namespace in
  match mappings !! db with
  | Some mappings_db =>
      match mappings_db !! coll with
      | Some mappings_coll =>
          filter (λ kv, is_Some (mappings_coll !! kv.1)) flat_doc
      | None => []
      end
  | None => []
  end.

(** One turn of the renaming loop: the record is updated in place. *)
Definition rename_key
    (mappings : mapping_config) (db collection : string)
    (cleaned_and_flatten_document : record) (key : string) : result record :=
  field_mapping ←
    (mappings_db ← getitem db mappings;
     mappings_coll ← getitem collection mappings_db;
     getitem key mappings_coll);
  if entry_contains "dest" field_mapping then
    mappedKey ← entry_getitem "dest" field_mapping;
    '(v, popped) ← dict_pop key cleaned_and_flatten_document;
    Ok (dict_set mappedKey v popped)
  else Ok cleaned_and_flatten_document.

Definition get_mapped_document
    (mappings : mapping_config) (doc : document) (namespace : string)
    : result record :=
  let cleaned_and_flatten_document :=
    _clean_and_flatten_doc mappings doc namespace in
  let '(db, collection) := db_and_collection namespace in
  let keys := dict_keys cleaned_and_flatten_document in
  foldM (rename_key mappings db collection) cleaned_and_flatten_document keys.

(** *** Lookup API *)

Definition get_mapped_field
    (mappings : mapping_config) (namespace field_name : string)
    : result string :=
  let '(db, collection) := db_and_collection namespace in
  mappings_db ← getitem db mappings;
  mappings_coll ← getitem collection mappings_db;
  field_mapping ← getitem field_name mappings_coll;
  entry_getitem "dest" field_mapping.

Definition get_primary_key
    (mappings : mapping_config) (namespace : string) : result entry :=
  let '(db, collection) := db_and_collection namespace in
  mappings_db ← getitem db mappings;
  mappings_coll ← getitem collection mappings_db;
  getitem "pk" mappings_coll.

(** [field_name] is [None] when the caller leaves the default. *)
Definition is_mapped
    (mappings : mapping_config) (namespace : string)
    (field_name : option string) : bool :=
  let '(db, collection) := db_and_collection namespace in
  match mappings !! db with
  | None => false
  | Some mappings_db =>
      match mappings_db !! collection with
      | None => false
      | Some mappings_coll =>
          match field_name with
          | None => true
          | Some f => contains f mappings_coll
          end
      end
  end.

(** The condition of the list comprehension of [is_id_autogenerated]. *)
Definition maps_to (primary_key : entry) (kv : string * entry)
    : result bool :=
  if entry_contains "dest" kv.2 then
    dest ← entry_getitem "dest" kv.2;
    Ok (bool_decide (EStr dest = primary_key))
  else Ok false.

Definition is_id_autogenerated
    (mappings : mapping_config) (namespace : string) : result bool :=
  primary_key ← get_primary_key mappings namespace;
  let '(db, collection) := db_and_collection namespace in
  mappings_db ← getitem db mappings;
  mappings_coll ← getitem collection mappings_db;
  mapped_to_primary_key ←
    filterM (maps_to primary_key) (map_to_list mappings_coll);
  Ok (bool_decide (length mapped_to_primary_key = 0)).

(** The condition of the list comprehension of [get_scalar_array_fields]. *)
Definition is_scalar_array (kv : string * entry) : result bool :=
  if entry_contains "type" kv.2 then
    type ← entry_getitem "type" kv.2;
    Ok (bool_decide (type = ARRAY_OF_SCALARS_TYPE))
  else Ok false.

Definition get_scalar_array_fields
    (mappings : mapping_config) (db collection : string)
    : result (list string) :=
  match mappings !! db with
  | None => Ok []
  | Some mappings_db =>
      match mappings_db !! collection with
      | None => Ok []
      | Some mappings_coll =>
          fields ← filterM is_scalar_array (map_to_list mappings_coll);
          Ok (fields.*1)
      end
  end.
(** *** Value transform evaluator *)

Definition default_module : string := "mongo_connector.doc_managers.transforms".

(** [except (ImportError, ValueError)] *)
Definition is_ImportError_or_ValueError (e : exn) : bool :=
  match e with
  | ImportError _ | ValueError => true
  | _ => false
  end.

(** The branch taken when the transform starts with ['@']: the function is
    looked up by its dotted path. [None] stands for [transform = None]. *)
Definition resolve_reference (transform : string) : M (option callable) :=
  let transform_path := rsplit_dot (str_tail transform) in
  '(module_path, transform_path) ← lift
    match transform_path with
    | [module_path; transform_path] => Ok (module_path, transform_path)
    | transform_path :: _ => Ok (default_module, transform_path)
    | [] => Raise IndexError
    end;
  match module ← import_module module_path; getattr module transform_path with
  | Ok transform => mret (Some transform)
  | Raise err =>
      if is_ImportError_or_ValueError err then
        LOG_error (TransformFunctionError err);; mret None
      else lift (Raise err)
  end.

(** The globals the expression is executed with. *)
Definition restricted_globals : namespace_dict :=
  {[ "__builtin__" := safe_builtins ]}.

(** The other branch: the transform is the body of a lambda, compiled and
    executed by RestrictedPython. *)
Definition compile_expression (transform : string) : M (option callable) :=
  let src := "transform = lambda val: " +:+ transform in
  match
    code ← compile_restricted src;
    restricted_locals ← exec_code code restricted_globals;
    getitem "transform" restricted_locals
  with
  | Ok transform => mret (Some transform)
  | Raise err =>
      if is_Exception err then LOG_error (TransformCodeError err);; mret None
      else lift (Raise err)
  end.

Definition get_transformed_value
    (mapped_field : entry) (mapped_document : record) (key : string)
    : M value :=
  val ← lift (dict_get key mapped_document);
  if entry_contains "transform" mapped_field then
    transform ← lift (entry_getitem "transform" mapped_field);
    c ← lift (str_head transform);
    transform ←
      (if Ascii.eqb c "@" then resolve_reference transform
       else compile_expression transform);
    match transform with
    | Some transform =>
        match transform val with
        | Ok new_val => mret new_val
        | Raise err =>
            if is_Exception err then
              LOG_error (FieldTransformationError err);; mret val
            else lift (Raise err)
        end
    | None => mret val
    end
  else mret val.

(** One turn of the dict comprehension that builds [mapped_fields]. *)
Definition add_mapped_field
    (mapped_fields : gmap string entry) (kv : string * entry)
    : result (gmap string entry) :=
  let mapping := kv.2 in
  if entry_contains "dest" mapping then
    type ← entry_getitem "type" mapping;
    if bool_decide (type ∈ [ARRAY_TYPE; ARRAY_OF_SCALARS_TYPE])
    then Ok mapped_fields
    else dest ← entry_getitem "dest" mapping;
         Ok (<[dest := mapping]> mapped_fields)
  else Ok mapped_fields.

(** The sorted list [keys] of the source is computed and never read; it is
    left out. *)
Definition get_transformed_document
    (mappings : mapping_config) (db collection : string)
    (mapped_document : record) : M record :=
  mapped_fields ← lift
    (mappings_db ← getitem db mappings;
     mappings_coll ← getitem collection mappings_db;
     foldM add_mapped_field ∅ (map_to_list mappings_coll));
  mapM_log
    (λ key,
       v ← match mapped_fields !! key with
           | Some mapped_field =>
               get_transformed_value mapped_field mapped_document key
           | None => lift (dict_get key mapped_document)
           end;
       mret (key, v))
    (dict_keys mapped_document).
(** *** Configuration validator *)

Definition ARRAYS_TYPE : list string := [ARRAY_TYPE; ARRAY_OF_SCALARS_TYPE].

(** [for k in m]: the keys of a dictionary of the configuration. *)
Definition keys_of {V} (m : gmap string V) : list string := (map_to_list m).*1.

(** Modelled from the spec: [mapping_schema.MAPPING_SCHEMA], the JSON schema
    [validate_mapping] checks first, is not part of the sources. Sections 3
    and 6 of the specification describe it: a collection is an object with a
    required string under ["pk"] and, under every other key, a field object
    with a [type]; [fk] is required for the two array types and [valueField]
    for array-of-scalars. An array field is an edge to its [dest] collection,
    so [dest] is required for the two array types as well. *)
Definition field_conforms (o : field_mapping) : bool :=
  match o !! "type" with
  | None => false
  | Some type =>
      (if bool_decide (type ∈ ARRAYS_TYPE)
       then contains "dest" o && contains "fk" o else true)
      && (if bool_decide (type = ARRAY_OF_SCALARS_TYPE)
          then contains "valueField" o else true)
  end.

Definition entry_conforms (key : string) (e : entry) : bool :=
  match e with
  | EStr _ => bool_decide (key = "pk")
  | EObj o => negb (bool_decide (key = "pk")) && field_conforms o
  end.

Definition collection_conforms (mapping : collection_mapping) : Prop :=
  is_Some (mapping !! "pk") ∧ map_Forall (λ k e, entry_conforms k e = true) mapping.

Definition conforms_to_schema (mappings : mapping_config) : Prop :=
  map_Forall (λ _ dbmapping, map_Forall (λ _ m, collection_conforms m) dbmapping)
    mappings.

#[global] Instance conforms_to_schema_dec mappings :
  Decision (conforms_to_schema mappings).
Proof. unfold conforms_to_schema, collection_conforms. apply _. Defined.

(** The list comprehension [links]: the fields of [linked_mapping] that
    point at [collection]. *)
Definition is_link
    (collection : string) (linked_mapping : collection_mapping)
    (field : string) : result bool :=
  if bool_decide (field ≠ "pk") then
    linked_field ← getitem field linked_mapping;
    type ← entry_getitem "type" linked_field;
    if bool_decide (type ∈ ARRAYS_TYPE) then
      dest ← entry_getitem "dest" linked_field;
      Ok (bool_decide (dest = collection))
    else Ok false
  else Ok false.

(** The [for linked_collection in dbmapping] loop; [true] when it is left
    through [break], [false] when it is exhausted (the [else] clause). *)
Fixpoint find_linked_collection
    (dbmapping : database_mapping) (collection : string)
    (linked_collections : list string) : result bool :=
  match linked_collections with
  | [] => Ok false
  | linked_collection :: rest =>
      if bool_decide (linked_collection ≠ collection) then
        linked_mapping ← getitem linked_collection dbmapping;
        links ← filterM (is_link collection linked_mapping)
                        (keys_of linked_mapping);
        if bool_decide (0 < length links) then Ok true
        else find_linked_collection dbmapping collection rest
      else find_linked_collection dbmapping collection rest
  end.

(** [k not in mapping] where [k] was read from the configuration. *)
Definition entry_key_missing (k : entry) (mapping : collection_mapping)
    : result bool :=
  match k with
  | EStr s => Ok (negb (contains s mapping))
  | EObj _ => Raise TypeError
  end.

Definition entry_name (k : entry) : string :=
  match k with
  | EStr s => s
  | EObj _ => EmptyString
  end.

(** Lines 223-247: the primary key of [collection]. *)
Definition check_primary_key
    (database : string) (dbmapping : database_mapping)
    (collection : string) (mapping : collection_mapping) : result unit :=
  pk ← getitem "pk" mapping;
  missing ← entry_key_missing pk mapping;
  if missing : bool then
    found ← find_linked_collection dbmapping collection (keys_of dbmapping);
    if found : bool then Ok tt
    else Raise (InvalidConfiguration
                  (PkNotFound (entry_name pk) database collection))
  else Ok tt.

(** [mapping.get(mapping['pk'], {'type': 'SERIAL'})] *)
Definition primary_key_field (mapping : collection_mapping) : result entry :=
  pk ← getitem "pk" mapping;
  match pk with
  | EStr s => Ok (default (EObj {[ "type" := "SERIAL" ]}) (mapping !! s))
  | EObj _ => Raise TypeError
  end.

(** Lines 255-290: the linked collection and the foreign key of an array
    field. *)
Definition check_foreign_key
    (database : string) (dbmapping : database_mapping)
    (collection : string) (mapping : collection_mapping)
    (field : entry) (dest : string) : result unit :=
  if negb (contains dest dbmapping) then
    Raise (InvalidConfiguration (CollectionNotFound dest database))
  else
    fk_name ← entry_getitem "fk" field;
    linked_mapping ← getitem dest dbmapping;
    if negb (contains fk_name linked_mapping) then
      Raise (InvalidConfiguration (FkNotFound fk_name database dest))
    else
      fk ← getitem fk_name linked_mapping;
      pk ← primary_key_field mapping;
      fk_type ← entry_getitem "type" fk;
      pk_type ← entry_getitem "type" pk;
      if bool_decide (fk_type ≠ pk_type) then
        pk_name ← getitem "pk" mapping;
        Raise (InvalidConfiguration
                 (FkTypeMismatch database dest fk_name collection
                    (entry_name pk_name)))
      else Ok tt.

(** Lines 293-304: the value field of an array-of-scalars field. *)
Definition check_value_field
    (database : string) (dbmapping : database_mapping)
    (collection : string) (field : entry) (dest : string) : result unit :=
  valuefield ← entry_getitem "valueField" field;
  linked_mapping ← getitem dest dbmapping;
  if negb (contains valuefield linked_mapping) then
    Raise (InvalidConfiguration
             (ValueFieldNotMapped database collection valuefield dest))
  else Ok tt.

(** The body of [for fieldname in mapping]. *)
Definition check_field
    (database : string) (dbmapping : database_mapping)
    (collection : string) (mapping : collection_mapping)
    (fieldname : string) : result unit :=
  if bool_decide (fieldname ≠ "pk") then
    field ← getitem fieldname mapping;
    ftype ← entry_getitem "type" field;
    if bool_decide (ftype ∈ ARRAYS_TYPE) then
      dest ← entry_getitem "dest" field;
      check_foreign_key database dbmapping collection mapping field dest;;
      if bool_decide (ftype = ARRAY_OF_SCALARS_TYPE) then
        check_value_field database dbmapping collection field dest
      else Ok tt
    else Ok tt
  else Ok tt.

(** The body of [for collection in dbmapping]. *)
Definition check_collection
    (database : string) (dbmapping : database_mapping)
    (collection : string) : result unit :=
  mapping ← getitem collection dbmapping;
  check_primary_key database dbmapping collection mapping;;
  for_each (check_field database dbmapping collection mapping)
           (keys_of mapping).

(** The body of [for database in mappings]. *)
Definition check_database
    (mappings : mapping_config) (database : string) : result unit :=
  dbmapping ← getitem database mappings;
  for_each (check_collection database dbmapping) (keys_of dbmapping).

Definition validate_mapping (mappings : mapping_config) : result unit :=
  if bool_decide (conforms_to_schema mappings) then
    for_each (check_database mappings) (keys_of mappings)
  else Raise (InvalidConfiguration SchemaInvalid).
End mappings.

(** ** A reference runtime

    The examples below run the module on a concrete [Runtime]. Its parts
    stand for code that lives outside [mappings.py]; each says where it comes
    from. *)
Module Py.

(** Raw documents. *)
Inductive json :=
| JScalar (v : value)
| JObject (fields : list (string * json))
| JArray (items : list json).

Definition extend_path (path key : string) : string :=
  if decide (path = EmptyString) then key else path +:+ "." +:+ key.

(** Modelled from the spec: [formatters.DocumentFlattener] is not part of the
    sources. Section 2: it turns a nested document into a flat mapping of
    dot-separated path to scalar value; arrays become [path.index] keys. *)
Fixpoint flatten (path : string) (j : json) : record :=
  match j with
  | JScalar v => [(path, v)]
  | JObject fields =>
      (fix go (fields : list (string * json)) : record :=
         match fields with
         | [] => []
         | (k, j') :: rest => flatten (extend_path path k) j' ++ go rest
         end) fields
  | JArray items =>
      (fix go (i : nat) (items : list json) : record :=
         match items with
         | [] => []
         | j' :: rest => flatten (extend_path path (pretty i)) j' ++ go (S i) rest
         end) 0 items
  end.

Definition format_document (doc : json) : record :=
  foldl (λ d kv, dict_set kv.1 kv.2 d) [] (flatten EmptyString doc).

(** Modelled from the spec: [utils.db_and_collection] is not part of the
    sources. A namespace is a database and a collection (glossary), written
    [database.collection]; the name is cut at its first dot. *)
Fixpoint split_first_dot (s : string) : string * string :=
  match s with
  | EmptyString => (EmptyString, EmptyString)
  | String c s' =>
      if Ascii.eqb c "." then (EmptyString, s')
      else let '(a, b) := split_first_dot s' in (String c a, b)
  end.

(** [importlib.import_module] over a table of importable modules: the
    standard module [operator] and the module of user transforms, with the
    doubling function of the scenario of section 8. *)
Definition operator_neg (val : value) : result value :=
  match val with
  | VInt z => Ok (VInt (- z))
  | _ => Raise TypeError
  end.

Definition double (val : value) : result value :=
  match val with
  | VInt z => Ok (VInt (2 * z))
  | _ => Raise TypeError
  end.

Definition sys_modules : gmap string pymodule :=
  {[ "operator" := {[ "neg" := operator_neg ]};
     "mongo_connector.doc_managers.transforms" := {[ "double" := double ]} ]}.

Definition import_module (name : string) : result pymodule :=
  if decide (name = EmptyString) then Raise ValueError
  else match sys_modules !! name with
       | Some m => Ok m
       | None => Raise (ImportError name)
       end.

(** *** Expressions

    The fragment of Python the examples are written in: integer and string
    literals, names, calls of a name, products. *)
Inductive expr :=
| EName (x : string)
| EConst (v : value)
| EMul (a b : expr)
| ECall (f : string) (args : list expr).

(** [target = lambda param: body] *)
Record stmt := Assign { target : string; param : string; body : expr }.

Inductive token :=
| TName (x : string) | TInt (z : Z) | TStr (s : string)
| TLParen | TRParen | TComma | TStar | TEq | TColon.

Inductive lexer_state :=
| LIdle | LName (acc : string) | LInt (z : Z) | LStr (acc : string).

Definition is_digit (c : ascii) : bool :=
  let n := nat_of_ascii c in (48 <=? n)%nat && (n <=? 57)%nat.

Definition is_ident_start (c : ascii) : bool :=
  let n := nat_of_ascii c in
  ((65 <=? n)%nat && (n <=? 90)%nat) || ((97 <=? n)%nat && (n <=? 122)%nat)
  || (n =? 95)%nat.

Definition digit_value (c : ascii) : Z := Z.of_nat (nat_of_ascii c - 48).

Definition snoc_char (s : string) (c : ascii) : string :=
  s +:+ String c EmptyString.

(** The lexer on a character met outside a name, a number or a string. *)
Definition lex_idle (c : ascii) : option (lexer_state * list token) :=
  if Ascii.eqb c " " then Some (LIdle, [])
  else if Ascii.eqb c "(" then Some (LIdle, [TLParen])
  else if Ascii.eqb c ")" then Some (LIdle, [TRParen])
  else if Ascii.eqb c "," then Some (LIdle, [TComma])
  else if Ascii.eqb c "*" then Some (LIdle, [TStar])
  else if Ascii.eqb c "=" then Some (LIdle, [TEq])
  else if Ascii.eqb c ":" then Some (LIdle, [TColon])
  else if Ascii.eqb c "'" then Some (LStr EmptyString, [])
  else if is_digit c then Some (LInt (digit_value c), [])
  else if is_ident_start c then Some (LName (String c EmptyString), [])
  else None.

Fixpoint lex (st : lexer_state) (s : string) : option (list token) :=
  match s with
  | EmptyString =>
      match st with
      | LIdle => Some []
      | LName acc => Some [TName acc]
      | LInt z => Some [TInt z]
      | LStr _ => None
      end
  | String c s' =>
      match st with
      | LStr acc =>
          if Ascii.eqb c "'" then (TStr acc ::.) <$> lex LIdle s'
          else lex (LStr (snoc_char acc c)) s'
      | LName acc =>
          if is_ident_start c || is_digit c then lex (LName (snoc_char acc c)) s'
          else '(st', ts) ← lex_idle c; rest ← lex st' s';
               Some (TName acc :: ts ++ rest)
      | LInt z =>
          if is_digit c then lex (LInt (10 * z + digit_value c)) s'
          else '(st', ts) ← lex_idle c; rest ← lex st' s';
               Some (TInt z :: ts ++ rest)
      | LIdle =>
          '(st', ts) ← lex_idle c; rest ← lex st' s'; Some (ts ++ rest)
      end
  end.
(** The parser; [fuel] bounds the nesting and is taken from the number of
    tokens. RestrictedPython refuses a name that starts with an underscore. *)
Definition name_allowed (x : string) : bool :=
  match x with
  | String c _ => negb (Ascii.eqb c "_")
  | EmptyString => false
  end.

Fixpoint parse_expr (fuel : nat) (ts : list token) : option (expr * list token) :=
  match fuel with
  | O => None
  | S fuel =>
      '(a, ts) ← parse_atom fuel ts;
      parse_product fuel a ts
  end
with parse_product (fuel : nat) (a : expr) (ts : list token)
    : option (expr * list token) :=
  match fuel with
  | O => None
  | S fuel =>
      match ts with
      | TStar :: ts =>
          '(b, ts) ← parse_atom fuel ts;
          parse_product fuel (EMul a b) ts
      | _ => Some (a, ts)
      end
  end
with parse_atom (fuel : nat) (ts : list token) : option (expr * list token) :=
  match fuel with
  | O => None
  | S fuel =>
      match ts with
      | TInt z :: ts => Some (EConst (VInt z), ts)
      | TStr s :: ts => Some (EConst (VStr s), ts)
      | TName f :: TLParen :: TRParen :: ts =>
          if name_allowed f then Some (ECall f [], ts) else None
      | TName f :: TLParen :: ts =>
          if name_allowed f then
            '(args, ts) ← parse_args fuel ts; Some (ECall f args, ts)
          else None
      | TName x :: ts => if name_allowed x then Some (EName x, ts) else None
      | TLParen :: ts =>
          '(e, ts) ← parse_expr fuel ts;
          match ts with
          | TRParen :: ts => Some (e, ts)
          | _ => None
          end
      | _ => None
      end
  end
with parse_args (fuel : nat) (ts : list token)
    : option (list expr * list token) :=
  match fuel with
  | O => None
  | S fuel =>
      '(e, ts) ← parse_expr fuel ts;
      match ts with
      | TComma :: ts => '(es, ts) ← parse_args fuel ts; Some (e :: es, ts)
      | TRParen :: ts => Some ([e], ts)
      | _ => None
      end
  end.

Definition parse_stmt (ts : list token) : option stmt :=
  match ts with
  | TName target :: TEq :: TName "lambda" :: TName param :: TColon :: ts =>
      if name_allowed target && name_allowed param then
        match parse_expr (4 * S (length ts)) ts with
        | Some (body, []) => Some (Assign target param body)
        | _ => None
        end
      else None
  | _ => None
  end.

(** [RestrictedPython.compile_restricted(src, '<string>', 'exec')] *)
Definition compile_restricted (src : string) : result stmt :=
  match lex LIdle src ≫= parse_stmt with
  | Some code => Ok code
  | None => Raise SyntaxError
  end.

(** *** Builtins and name resolution *)

Definition builtin_abs (args : list value) : result value :=
  match args with
  | [VInt z] => Ok (VInt (Z.abs z))
  | _ => Raise TypeError
  end.

Definition builtin_len (args : list value) : result value :=
  match args with
  | [VStr s] => Ok (VInt (Z.of_nat (String.length s)))
  | _ => Raise TypeError
  end.

(** [open(path, mode)] hands out a file object. *)
Definition builtin_open (args : list value) : result value :=
  match args with
  | [VStr path] => Ok (VFile path "r")
  | [VStr path; VStr mode] => Ok (VFile path mode)
  | _ => Raise TypeError
  end.

(** The guarded table of RestrictedPython, and the table of the
    interpreter, which has [open] as well. *)
Definition safe_builtins : gmap string builtin :=
  {[ "abs" := builtin_abs; "len" := builtin_len ]}.

Definition builtins : gmap string builtin :=
  <[ "open" := builtin_open ]> safe_builtins.

(** [exec]: a globals dictionary without the key ["__builtins__"] receives
    the builtins of the interpreter under that key before the code runs
    (Python library reference, [exec]). *)
Definition prepare_globals (globals : namespace_dict) : namespace_dict :=
  match globals !! "__builtins__" with
  | Some _ => globals
  | None => <[ "__builtins__" := builtins ]> globals
  end.

(** A name that is not local is searched in the globals, then in the
    dictionary the globals hold under ["__builtins__"]. *)
Definition lookup_function (globals : namespace_dict) (f : string)
    : result builtin :=
  match globals !! f with
  | Some _ => Raise TypeError
  | None =>
      match globals !! "__builtins__" ≫= (.!! f) with
      | Some b => Ok b
      | None => Raise (NameError f)
      end
  end.

Definition multiply (a b : value) : result value :=
  match a, b with
  | VInt x, VInt y => Ok (VInt (x * y))
  | _, _ => Raise TypeError
  end.

Fixpoint eval (globals : namespace_dict) (param : string) (val : value)
    (e : expr) : result value :=
  match e with
  | EConst v => Ok v
  | EName x =>
      if decide (x = param) then Ok val
      else if contains x globals then Ok (VObject x)
      else lookup_function globals x;; Ok (VObject x)
  | EMul a b =>
      x ← eval globals param val a;
      y ← eval globals param val b;
      multiply x y
  | ECall f args =>
      b ← lookup_function globals f;
      vs ← (fix go (args : list expr) : result (list value) :=
              match args with
              | [] => Ok []
              | a :: rest =>
                  v ← eval globals param val a; vs ← go rest; Ok (v :: vs)
              end) args;
      b vs
  end.

(** Running [target = lambda param: body] binds [target] to the closure. *)
Definition exec_code (code : stmt) (globals : namespace_dict)
    : result pymodule :=
  let globals := prepare_globals globals in
  Ok {[ target code := λ val, eval globals (param code) val (body code) ]}.
End Py.

Definition cpython : Runtime := {|
  document := Py.json;
  format_document := Py.format_document;
  db_and_collection := Py.split_first_dot;
  ARRAY_TYPE := "_ARRAY";
  ARRAY_OF_SCALARS_TYPE := "_ARRAY_OF_SCALARS";
  import_module := Py.import_module;
  safe_builtins := Py.safe_builtins;
  code := Py.stmt;
  compile_restricted := Py.compile_restricted;
  exec_code := Py.exec_code
|}.

(** ** Configurations and documents used in the examples *)

(** Two collections: [orders] owns an array field that points at
    [order_items], whose primary key [id] is not one of its fields. *)
Definition orders_mapping : collection_mapping :=
  {[ "pk" := EStr "_id";
     "_id" := EObj {[ "type" := "INT"; "dest" := "id" ]};
     "items" := EObj {[ "type" := "_ARRAY"; "dest" := "order_items";
                        "fk" := "order_id" ]} ]}.

Definition order_items_mapping : collection_mapping :=
  {[ "pk" := EStr "id";
     "order_id" := EObj {[ "type" := "INT" ]};
     "label" := EObj {[ "type" := "TEXT"; "dest" := "label" ]} ]}.

Definition shop_mapping : database_mapping :=
  {[ "orders" := orders_mapping; "order_items" := order_items_mapping ]}.

Definition orders_config : mapping_config := {[ "shop" := shop_mapping ]}.

(** The destination of [_id] is the name of another source field. *)
Definition legacy_config : mapping_config :=
  {[ "shop" :=
       {[ "users" :=
            {[ "pk" := EStr "_id";
               "_id" := EObj {[ "type" := "TEXT"; "dest" := "id" ]};
               "id" := EObj {[ "type" := "INT"; "dest" := "legacy_id" ]} ]} ]} ]}.

Definition legacy_user : Py.json :=
  Py.JObject [("_id", Py.JScalar (VStr "abc")); ("id", Py.JScalar (VInt 7))].

(** The primary key column is called [pk]. *)
Definition pk_named_pk_config : mapping_config :=
  {[ "shop" :=
       {[ "orders" :=
            {[ "pk" := EStr "pk";
               "items" := EObj {[ "type" := "_ARRAY"; "dest" := "order_items";
                                  "fk" := "order_id" ]} ]};
          "order_items" :=
            {[ "pk" := EStr "id";
               "order_id" := EObj {[ "type" := "SERIAL" ]} ]} ]} ]}.

(** The name of the primary key contains the word [dest]. *)
Definition destination_config : mapping_config :=
  {[ "shop" :=
       {[ "parcels" :=
            {[ "pk" := EStr "destination";
               "destination" :=
                 EObj {[ "type" := "TEXT"; "dest" := "destination" ]} ]} ]} ]}.

Definition field_with_transform (transform : string) : entry :=
  EObj {[ "type" := "INT"; "dest" := "price"; "transform" := transform ]}.

Definition priced : record := [("price", VInt 21)].

(** [restricted_globals] as the documentation of RestrictedPython spells it,
    to compare with the one of the source. *)
Definition guarded_globals : namespace_dict :=
  {[ "__builtins__" := Py.safe_builtins ]}.

(** The collection mapping of a namespace, when it has one. *)
Definition lookup_collection
    (mappings : mapping_config) (db collection : string)
    : option collection_mapping :=
  mappings !! db ≫= (.!! collection).

(** ** The pipeline and the vocabulary of the properties *)

Section pipeline.
Context {rt : Runtime}.

(** The transformation of section 4.2 of the specification: the two calls a
    document manager makes for one document, in sequence. *)
Definition transform_pipeline
    (mappings : mapping_config) (doc : document) (namespace : string)
    : M record :=
  mapped_document ← lift (get_mapped_document mappings doc namespace);
  let '(db, collection) := db_and_collection namespace in
  get_transformed_document mappings db collection mapped_document.

(** [linked_mapping] has a field of one of the array types whose [dest] is
    [collection]. *)
Definition points_at
    (collection : string) (linked_mapping : collection_mapping) : Prop :=
  ∃ field o type,
    field ≠ "pk" ∧ linked_mapping !! field = Some (EObj o)
    ∧ o !! "type" = Some type ∧ type ∈ ARRAYS_TYPE
    ∧ o !! "dest" = Some collection.

(** Another collection of the database points at [collection]. *)
Definition linked (dbmapping : database_mapping) (collection : string) : Prop :=
  ∃ linked_collection linked_mapping,
    linked_collection ≠ collection
    ∧ dbmapping !! linked_collection = Some linked_mapping
    ∧ points_at collection linked_mapping.
End pipeline.

(** [m] returns [r] and appends [out] to the log, whatever the log holds. *)
Definition writes {A} (m : M A) (r : result A) (out : list log_record) : Prop :=
  ∀ log, m log = (r, log ++ out).

Definition log_oblivious {A} (m : M A) : Prop := ∃ r out, writes m r out.

(** The name under which the field [key] is meant to leave
    [get_mapped_document]: its [dest] when it has one. *)
Definition output_name (mapping : collection_mapping) (key : string) : string :=
  match mapping !! key with
  | Some (EObj o) => default key (o !! "dest")
  | _ => key
  end.

(** ** The vocabulary of the validator's guarantees *)

Section soundness.
Context {rt : Runtime}.

(** The type foreign keys are compared with: the type of the field the
    primary key names, [SERIAL] when the collection has no such field. *)
Definition resolved_pk_type (mapping : collection_mapping) : option string :=
  match mapping !! "pk" with
  | Some (EStr pk) =>
      match mapping !! pk with
      | None => Some "SERIAL"
      | Some (EObj o) => o !! "type"
      | Some (EStr _) => None
      end
  | _ => None
  end.

(** The primary key of [collection] names one of its keys, or another
    collection of the database points at [collection]. *)
Definition pk_resolvable
    (dbmapping : database_mapping) (collection : string)
    (mapping : collection_mapping) : Prop :=
  ∃ pk, mapping !! "pk" = Some (EStr pk)
        ∧ (is_Some (mapping !! pk) ∨ linked dbmapping collection).

(** The array field [o] of a collection [mapping] refers to an existing
    collection, to a foreign key of that collection whose type is the type
    of the primary key of [mapping], and, for an array of scalars, to a
    value field of that collection. *)
Definition array_field_sound
    (dbmapping : database_mapping) (mapping : collection_mapping)
    (o : field_mapping) : Prop :=
  ∃ dest fk_name linked_mapping fk fk_type,
    o !! "dest" = Some dest ∧ o !! "fk" = Some fk_name
    ∧ dbmapping !! dest = Some linked_mapping
    ∧ linked_mapping !! fk_name = Some (EObj fk)
    ∧ fk !! "type" = Some fk_type
    ∧ resolved_pk_type mapping = Some fk_type
    ∧ (o !! "type" = Some ARRAY_OF_SCALARS_TYPE →
       ∃ valuefield, o !! "valueField" = Some valuefield
                     ∧ is_Some (linked_mapping !! valuefield)).

Definition referentially_sound (mappings : mapping_config) : Prop :=
  ∀ database dbmapping collection mapping,
    mappings !! database = Some dbmapping →
    dbmapping !! collection = Some mapping →
    pk_resolvable dbmapping collection mapping
    ∧ ∀ field o type,
        mapping !! field = Some (EObj o) → o !! "type" = Some type →
        type ∈ ARRAYS_TYPE → array_field_sound dbmapping mapping o.
End soundness.

(** ** More configurations and documents for the examples *)

(** A collection with a scalar field that has a transform and an array of
    scalars stored in a second collection. *)
Definition title_field : field_mapping :=
  {[ "type" := "INT"; "dest" := "pages"; "transform" := "val * 2" ]}.

Definition books_mapping : collection_mapping :=
  {[ "pk" := EStr "_id";
     "_id" := EObj {[ "type" := "TEXT"; "dest" := "id" ]};
     "sheets" := EObj title_field;
     "tags" := EObj {[ "type" := "_ARRAY_OF_SCALARS"; "dest" := "book_tags";
                       "fk" := "book_id"; "valueField" := "tag" ]} ]}.

Definition book_tags_mapping : collection_mapping :=
  {[ "pk" := EStr "id";
     "book_id" := EObj {[ "type" := "TEXT" ]};
     "tag" := EObj {[ "type" := "TEXT"; "dest" := "tag" ]} ]}.

Definition library_mapping : database_mapping :=
  {[ "books" := books_mapping; "book_tags" := book_tags_mapping ]}.

Definition library_config : mapping_config := {[ "library" := library_mapping ]}.

Definition book : Py.json :=
  Py.JObject [("_id", Py.JScalar (VStr "b1"));
              ("sheets", Py.JScalar (VInt 100));
              ("shelf", Py.JScalar (VStr "A"))].

Definition mapped_book : record := [("id", VStr "b1"); ("pages", VInt 100)].

(** The collection of [destination_config], and the field of a reference
    transform. *)
Definition parcels_mapping : collection_mapping :=
  {[ "pk" := EStr "destination";
     "destination" := EObj {[ "type" := "TEXT"; "dest" := "destination" ]} ]}.

Definition negated_field : field_mapping :=
  {[ "type" := "INT"; "dest" := "price"; "transform" := "@operator.neg" ]}.

(** ** Configurations for the primary-key step *)

Section two_collections.
Context {rt : Runtime}.

(** The minimal database of two collections: [A] has a primary-key field of
    type [type] and an array field [field] whose [dest] is [B] and whose
    [fk] is [fk]; [B] has the field [fk], of type [type], and a primary key
    [pkB] that is none of its fields. *)
Definition two_collections
    (database A B pkA pkB field fk type : string) : mapping_config :=
  {[ database :=
       {[ A := {[ "pk" := EStr pkA;
                  pkA := EObj {[ "type" := type ]};
                  field := EObj {[ "type" := ARRAY_TYPE; "dest" := B;
                                   "fk" := fk ]} ]};
          B := {[ "pk" := EStr pkB;
                  fk := EObj {[ "type" := type ]} ]} ]} ]}.
End two_collections.

(** The collection [log] has a primary key that is none of its fields, and
    no collection points at it; the collection [archive], which comes first,
    has an array field whose [dest] is no collection of the database. *)
Definition archive_mapping : collection_mapping :=
  {[ "pk" := EStr "_id";
     "_id" := EObj {[ "type" := "INT" ]};
     "items" := EObj {[ "type" := "_ARRAY"; "dest" := "nowhere";
                        "fk" := "x" ]} ]}.

Definition log_mapping : collection_mapping :=
  {[ "pk" := EStr "id";
     "line" := EObj {[ "type" := "TEXT" ]} ]}.

Definition archive_db : database_mapping :=
  {[ "archive" := archive_mapping; "log" := log_mapping ]}.

Definition archive_config : mapping_config := {[ "shop" := archive_db ]}.

(** ** The state of the interpreter

    A transform is whatever function the configuration names: a function of
    an importable module, or a lambda over the builtins the expression is
    executed with. Such a function may read and change what lies outside
    its argument (the state of a module, of the process, of the file
    system). [world] is that state; importing, executing and calling take
    the world and return the world they leave, whether they return or
    raise. The stateless parts of the runtime (the flattener, the namespace
    splitter, the type names, the compiler) are those of [static]. *)
Class Interpreter := {
  static :: Runtime;
  world : Type;
  (** [importlib.import_module] *)
  import_module_in :
    string → world →
    result (gmap string (value → world → result value * world)) * world;
  (** [exec(code, restricted_globals, restricted_locals)] *)
  exec_code_in :
    @code static → namespace_dict → world →
    result (gmap string (value → world → result value * world)) * world
}.

Module Process.
Section process.
Context {py : Interpreter}.

(** A function of one argument, called in a world. *)
Definition effectful : Type := value → world → result value * world.

(** A computation that may raise, may change the world and may append to
    the log. *)
Definition P (A : Type) : Type :=
  world * list log_record → result A * (world * list log_record).

#[global] Instance P_ret : MRet P := fun _ a s => (Ok a, s).
#[global] Instance P_bind : MBind P := fun _ _ f m s =>
  match m s with
  | (Ok a, s') => f a s'
  | (Raise e, s') => (Raise e, s')
  end.

(** A computation that only logs, and one that only touches the world. *)
Definition in_log {A} (m : M A) : P A := fun s =>
  let '(r, log') := m s.2 in (r, (s.1, log')).

Definition in_world {A} (f : world → result A * world) : P A := fun s =>
  let '(r, w') := f s.1 in (r, (w', s.2)).

Definition value_of {A} (r : result A) : P A := in_log (lift r).

(** [try: body except caught as err: handler] *)
Definition try_except {A}
    (body : P A) (caught : exn → bool) (handler : exn → P A) : P A := fun s =>
  match body s with
  | (Ok a, s') => (Ok a, s')
  | (Raise err, s') => if caught err then handler err s' else (Raise err, s')
  end.

Fixpoint mapM {A B} (f : A → P B) (l : list A) : P (list B) :=
  match l with
  | [] => mret []
  | a :: l' => b ← f a; r ← mapM f l'; mret (b :: r)
  end.

(** [getattr(module, name)] on a module of the interpreter. *)
Definition getattr (m : gmap string effectful) (name : string)
    : result effectful :=
  match m !! name with
  | Some f => Ok f
  | None => Raise (AttributeError name)
  end.

(** The branch taken when the transform starts with ['@']. *)
Definition resolve_reference (transform : string) : P (option effectful) :=
  let transform_path := rsplit_dot (str_tail transform) in
  '(module_path, transform_path) ← value_of
    match transform_path with
    | [module_path; transform_path] => Ok (module_path, transform_path)
    | transform_path :: _ => Ok (default_module, transform_path)
    | [] => Raise IndexError
    end;
  try_except
    (module ← in_world (import_module_in module_path);
     transform ← value_of (getattr module transform_path);
     mret (Some transform))
    is_ImportError_or_ValueError
    (λ err, in_log (LOG_error (TransformFunctionError err));; mret None).

(** The other branch: the lambda is compiled, then executed with
    [restricted_globals]. *)
Definition compile_expression (transform : string) : P (option effectful) :=
  let src := "transform = lambda val: " +:+ transform in
  try_except
    (code ← value_of (compile_restricted src);
     restricted_locals ← in_world (exec_code_in code restricted_globals);
     transform ← value_of (getitem "transform" restricted_locals);
     mret (Some transform))
    is_Exception
    (λ err, in_log (LOG_error (TransformCodeError err));; mret None).

Definition get_transformed_value
    (mapped_field : entry) (mapped_document : record) (key : string)
    : P value :=
  val ← value_of (dict_get key mapped_document);
  if entry_contains "transform" mapped_field then
    transform ← value_of (entry_getitem "transform" mapped_field);
    c ← value_of (str_head transform);
    transform ←
      (if Ascii.eqb c "@" then resolve_reference transform
       else compile_expression transform);
    match transform with
    | Some transform =>
        try_except
          (in_world (transform val))
          is_Exception
          (λ err, in_log (LOG_error (FieldTransformationError err));;
                  mret val)
    | None => mret val
    end
  else mret val.

Definition get_transformed_document
    (mappings : mapping_config) (db collection : string)
    (mapped_document : record) : P record :=
  mapped_fields ← value_of
    (mappings_db ← getitem db mappings;
     mappings_coll ← getitem collection mappings_db;
     foldM add_mapped_field ∅ (map_to_list mappings_coll));
  mapM
    (λ key,
       v ← match mapped_fields !! key with
           | Some mapped_field =>
               get_transformed_value mapped_field mapped_document key
           | None => value_of (dict_get key mapped_document)
           end;
       mret (key, v))
    (dict_keys mapped_document).

(** The two calls a document manager makes for one document. *)
Definition transform_pipeline
    (mappings : mapping_config) (doc : document) (namespace : string)
    : P record :=
  mapped_document ← value_of (get_mapped_document mappings doc namespace);
  let '(db, collection) := db_and_collection namespace in
  get_transformed_document mappings db collection mapped_document.

(** *** Functions that keep to their argument *)

(** [f] leaves the world as it finds it and returns what a function of the
    argument alone returns. *)
Definition stateless (f : effectful) : Prop :=
  ∃ g : value → result value, ∀ val w, f val w = (g val, w).

(** The function obtained for a transform, when there is one, is
    stateless. *)
Definition stateless_if_any (transform : option effectful) : Prop :=
  ∀ f, transform = Some f → stateless f.

(** Importing [module_path] gives the same outcome in every world and
    changes none, and the attribute [name] of the module is stateless. *)
Definition pure_reference (module_path name : string) : Prop :=
  ∃ r, (∀ w, import_module_in module_path w = (r, w))
       ∧ ∀ module f, r = Ok module → module !! name = Some f → stateless f.

(** Executing the compiled [src] gives the same outcome in every world and
    changes none, and the function it binds to [transform] is stateless. *)
Definition pure_expression (src : string) : Prop :=
  ∀ code, compile_restricted src = Ok code →
    ∃ r, (∀ w, exec_code_in code restricted_globals w = (r, w))
         ∧ ∀ restricted_locals f,
             r = Ok restricted_locals →
             restricted_locals !! "transform" = Some f → stateless f.

(** The function [get_transformed_value] obtains for [transform], by the
    branch it takes, is pure. *)
Definition pure_transform (transform : string) : Prop :=
  match transform with
  | EmptyString => True
  | String c _ =>
      if Ascii.eqb c "@" then
        match rsplit_dot (str_tail transform) with
        | [module_path; name] => pure_reference module_path name
        | name :: _ => pure_reference default_module name
        | [] => True
        end
      else pure_expression ("transform = lambda val: " +:+ transform)
  end.

(** [m] returns [r], appends [out] to the log and leaves the world as it
    was, whatever the world and the log. *)
Definition steady {A} (m : P A) (r : result A) (out : list log_record)
    : Prop :=
  ∀ w log, m (w, log) = (r, (w, log ++ out)).

(** [m] is steady, and what it returns satisfies [Q]. *)
Definition settled {A} (Q : A → Prop) (m : P A) : Prop :=
  ∃ r out, steady m r out ∧ ∀ a, r = Ok a → Q a.
End process.
End Process.

(** *** A process with a file mode creation mask

    The reference runtime in a process of which one piece of state is
    modelled: the mask [os.umask] sets. *)

(** [os.umask(mask)]: sets the mask of the process and returns the previous
    one. *)
Definition os_umask (val : value) (umask : Z) : result value * Z :=
  let set (mask : Z) :=
    if bool_decide (- 2 ^ 31 ≤ mask < 2 ^ 31)%Z
    then (Ok (VInt umask), Z.land mask 511)
    else (Raise OverflowError, umask) in
  match val with
  | VInt mask => set mask
  | VBool b => set (if b then 1 else 0)%Z
  | _ => (Raise TypeError, umask)
  end.

(** A function of the reference runtime, which has no state, in a world. *)
Definition in_any_world {W} (f : value → result value)
    : value → W → result value * W :=
  fun val w => (f val, w).

Definition module_in_any_world {W} (r : result pymodule)
    : result (gmap string (value → W → result value * W)) :=
  match r with
  | Ok module => Ok (in_any_world <$> module)
  | Raise err => Raise err
  end.

Definition cpython_process : Interpreter := {|
  static := cpython;
  world := Z;
  import_module_in name umask :=
    (if decide (name = "os") then Ok {[ "umask" := os_umask ]}
     else module_in_any_world (Py.import_module name),
     umask);
  exec_code_in code globals umask :=
    (module_in_any_world (Py.exec_code code globals), umask)
|}.

(** A collection whose field [mode] has the transform [transform], and one of
    its documents. *)
Definition files_config (transform : string) : mapping_config :=
  {[ "shop" :=
       {[ "files" :=
            {[ "pk" := EStr "_id";
               "_id" := EObj {[ "type" := "INT"; "dest" := "id" ]};
               "mode" := EObj {[ "type" := "INT"; "dest" := "mode";
                                 "transform" := transform ]} ]} ]} ]}.

Definition file_document : Py.json :=
  Py.JObject [("_id", Py.JScalar (VInt 1)); ("mode", Py.JScalar (VInt 7))].

(** * Properties *)

Section properties.
Context {rt : Runtime}.

(** ** Unmapped namespaces *)

Lemma clean_unmapped mappings doc namespace db coll :
  db_and_collection namespace = (db, coll) →
  lookup_collection mappings db coll = None →
  _clean_and_flatten_doc mappings doc namespace = [].
Proof.
  unfold _clean_and_flatten_doc, lookup_collection. intros -> Hnone.
  destruct (mappings !! db) as [mdb|]; [|done].
  simpl in Hnone. by rewrite Hnone.
Qed.

(** C7. For every raw document and every namespace whose database or
    collection has no entry in the mapping configuration,
    [get_mapped_document] returns the empty record. *)
Theorem unmapped_namespace_empty_record mappings doc namespace db coll :
  db_and_collection namespace = (db, coll) →
  lookup_collection mappings db coll = None →
  get_mapped_document mappings doc namespace = Ok [].
Proof.
  intros Hns Hnone. unfold get_mapped_document.
  rewrite (clean_unmapped _ _ _ _ _ Hns Hnone), Hns. reflexivity.
Qed.

(** ** Lookup API *)

Lemma contains_true {V} k (m : gmap string V) :
  contains k m = true ↔ is_Some (m !! k).
Proof. unfold contains. by rewrite bool_decide_eq_true. Qed.

Lemma contains_false {V} k (m : gmap string V) :
  contains k m = false ↔ m !! k = None.
Proof.
  unfold contains. rewrite bool_decide_eq_false. symmetry.
  apply eq_None_not_Some.
Qed.

Lemma conforms_collection mappings db coll mapping :
  conforms_to_schema mappings →
  lookup_collection mappings db coll = Some mapping →
  collection_conforms mapping.
Proof.
  unfold lookup_collection. intros Hs Hl.
  destruct (mappings !! db) as [dbmapping|] eqn:Hdb; [|done].
  simpl in Hl. exact (Hs _ _ Hdb _ _ Hl).
Qed.

(** C10. For every configuration that conforms to the schema and every
    namespace whose database and collection are present in it,
    [is_mapped(mappings, namespace, "pk")] is [True]: the entry ["pk"]
    passes the membership test like a field does. *)
Theorem pk_entry_is_mapped mappings namespace db coll mapping :
  conforms_to_schema mappings →
  db_and_collection namespace = (db, coll) →
  lookup_collection mappings db coll = Some mapping →
  is_mapped mappings namespace (Some "pk") = true.
Proof.
  intros Hs Hns Hl. destruct (conforms_collection _ _ _ _ Hs Hl) as [Hpk _].
  unfold is_mapped, lookup_collection in *. rewrite Hns.
  destruct (mappings !! db) as [dbmapping|]; [|done].
  simpl in Hl. rewrite Hl. by apply contains_true.
Qed.

(** C6, as the code has it. When the database or the collection of the
    namespace is absent, [get_primary_key] and [get_mapped_field] fail with
    the [KeyError] of the missing name, and so does [get_mapped_field] on a
    field the collection does not map; [get_scalar_array_fields] does not
    fail on an absent database or collection: it returns the empty list. *)
Theorem accessors_on_absent_names mappings namespace db coll field :
  db_and_collection namespace = (db, coll) →
  (lookup_collection mappings db coll = None →
     ∃ missing, (missing = db ∨ missing = coll)
       ∧ get_primary_key mappings namespace = Raise (KeyError missing)
       ∧ get_mapped_field mappings namespace field = Raise (KeyError missing)
       ∧ get_scalar_array_fields mappings db coll = Ok [])
  ∧ (∀ mapping, lookup_collection mappings db coll = Some mapping →
       mapping !! field = None →
       get_mapped_field mappings namespace field = Raise (KeyError field)).
Proof.
  intros Hns.
  unfold lookup_collection, get_primary_key, get_mapped_field,
    get_scalar_array_fields, getitem.
  rewrite Hns. split.
  - destruct (mappings !! db) as [dbmapping|]; simpl.
    + intros ->. exists coll. auto.
    + intros _. exists db. auto.
  - intros mapping Hl Hf.
    destruct (mappings !! db) as [dbmapping|]; [|done].
    simpl in *. rewrite Hl. simpl. by rewrite Hf.
Qed.


(** ** Document transformer: the renaming loop *)

Lemma dict_set_keys k v (d : record) y :
  y ∈ dict_keys (dict_set k v d) ↔ y = k ∨ y ∈ dict_keys d.
Proof.
  unfold dict_keys. induction d as [|[k' v'] d IH]; simpl.
  - rewrite list_elem_of_singleton. split; [auto|]. intros [?|H]; [done|].
    by apply elem_of_nil in H.
  - case_decide as Hk; simpl; rewrite !elem_of_cons.
    + subst k'. tauto.
    + rewrite IH. tauto.
Qed.

Lemma dict_set_NoDup k v (d : record) :
  NoDup (dict_keys d) → NoDup (dict_keys (dict_set k v d)).
Proof.
  unfold dict_keys. induction d as [|[k' v'] d IH]; simpl.
  - intros _. apply NoDup_singleton.
  - intros [Hnotin Hnodup]%NoDup_cons. case_decide as Hk; simpl.
    + subst k'. by apply NoDup_cons.
    + apply NoDup_cons. split; [|auto].
      intros [?|?]%dict_set_keys; [congruence|done].
Qed.

Lemma dict_pop_spec k (d : record) :
  k ∈ dict_keys d → NoDup (dict_keys d) →
  ∃ v d', dict_pop k d = Ok (v, d') ∧ NoDup (dict_keys d')
          ∧ ∀ y, y ∈ dict_keys d' ↔ y ∈ dict_keys d ∧ y ≠ k.
Proof.
  unfold dict_keys. induction d as [|[k' v'] d IH]; simpl.
  - intros H. by apply elem_of_nil in H.
  - intros Hin [Hnotin Hnodup]%NoDup_cons. case_decide as Hk.
    + subst k'. exists v', d. split; [done|]. split; [done|].
      intros y. rewrite elem_of_cons. split.
      * intros Hy. split; [auto|]. intros ->. done.
      * intros [[?|?] ?]; done.
    + apply elem_of_cons in Hin as [?|Hin]; [congruence|].
      destruct (IH Hin Hnodup) as (v & d' & -> & Hnodup' & Hkeys).
      exists v, ((k', v') :: d'). simpl. split; [done|]. split.
      * apply NoDup_cons. split; [|done]. rewrite Hkeys. tauto.
      * intros y. rewrite !elem_of_cons, Hkeys. split; [|tauto].
        intros [->|[? ?]]; auto.
Qed.

Lemma NoDup_filter_keys (P : string * value → Prop) `{!∀ kv, Decision (P kv)}
    (d : record) :
  NoDup (dict_keys d) → NoDup (dict_keys (filter P d)).
Proof.
  intros Hnodup. apply (sublist_NoDup _ _ Hnodup).
  unfold dict_keys. apply fmap_sublist, sublist_filter.
Qed.

(** The loop over [keys], from any record that still holds them, provided
    no key is renamed to a key the loop has yet to visit. *)
Lemma rename_loop mappings db collection dbmapping mapping keys d :
  mappings !! db = Some dbmapping →
  dbmapping !! collection = Some mapping →
  (∀ k, k ∈ keys → ∃ o, mapping !! k = Some (EObj o)) →
  NoDup keys → NoDup (dict_keys d) →
  (∀ k, k ∈ keys → k ∈ dict_keys d) →
  (∀ k k', k ∈ keys → k' ∈ keys → k ≠ k' → output_name mapping k ≠ k') →
  ∃ r, foldM (rename_key mappings db collection) d keys = Ok r
       ∧ ∀ y, y ∈ dict_keys r ↔
              (y ∈ dict_keys d ∧ y ∉ keys)
              ∨ ∃ k, k ∈ keys ∧ y = output_name mapping k.
Proof.
  intros Hdb Hcoll. revert d.
  induction keys as [|k keys IH]; intros d Hobj Hnodup Hd Hin Hchain.
  - exists d. split; [done|]. intros y. split.
    + intros Hy. left. split; [done|]. apply not_elem_of_nil.
    + intros [[? _]|(k & Hk & _)]; [done|]. by apply elem_of_nil in Hk.
  - apply NoDup_cons in Hnodup as [Hk Hnodup].
    destruct (Hobj k) as [o Ho]; [left|].
    assert (output_name mapping k = default k (o !! "dest")) as Hout
      by (unfold output_name; by rewrite Ho).
    assert (∃ d', rename_key mappings db collection d k = Ok d'
                  ∧ NoDup (dict_keys d')
                  ∧ ∀ y, y ∈ dict_keys d' ↔
                         y = output_name mapping k
                         ∨ (y ∈ dict_keys d ∧ y ≠ k))
      as (d' & Hstep & Hd' & Hkeys).
    { unfold rename_key, getitem. rewrite Hdb. simpl. rewrite Hcoll. simpl.
      rewrite Ho. simpl. destruct (o !! "dest") as [x|] eqn:Hx.
      - assert (contains "dest" o = true) as -> by (apply contains_true; eauto).
        unfold getitem. rewrite Hx. simpl.
        destruct (dict_pop_spec k d) as (v & d1 & -> & Hd1 & Hkeys1);
          [apply Hin; left|done|].
        simpl. eexists. split; [done|]. split; [by apply dict_set_NoDup|].
        intros y. rewrite dict_set_keys, Hkeys1, Hout. done.
      - assert (contains "dest" o = false) as -> by by apply contains_false.
        exists d. split; [done|]. split; [done|].
        intros y. rewrite Hout. simpl. split.
        + intros Hy. destruct (decide (y = k)); auto.
        + intros [->|[? _]]; [apply Hin; left|done]. }
    simpl. rewrite Hstep. simpl.
    destruct (IH d') as (r & -> & Hr); try done.
    { intros k' Hk'. apply Hobj. by right. }
    { intros k' Hk'. apply Hkeys. right. split; [apply Hin; by right|].
      intros ->. done. }
    { intros k1 k2 ? ?. apply Hchain; by right. }
    exists r. split; [done|]. intros y. rewrite Hr, Hkeys. split.
    + intros [[[->|[Hy Hne]] Hnotin]|(k' & Hk' & ->)].
      * right. exists k. split; [left|done].
      * left. split; [done|]. by intros [?|?]%elem_of_cons.
      * right. exists k'. split; [by right|done].
    + intros [[Hy Hnotin]|(k' & [->|Hk']%elem_of_cons & ->)].
      * left. apply not_elem_of_cons in Hnotin as [? ?]. auto.
      * left. split; [by left|]. intros Hin'.
        destruct (decide (output_name mapping k = k)) as [Heq|Hne].
        -- rewrite Heq in Hin'. done.
        -- by apply (Hchain k (output_name mapping k)); [left|right|..].
      * right. eauto.
Qed.

(** The keys of the record are the output names of the retained fields
    when the document has no field called [pk] and no retained field is
    renamed to the name of another retained field. *)
Lemma get_mapped_document_keys
    mappings doc namespace db collection dbmapping mapping :
  conforms_to_schema mappings →
  db_and_collection namespace = (db, collection) →
  mappings !! db = Some dbmapping →
  dbmapping !! collection = Some mapping →
  NoDup (dict_keys (format_document doc)) →
  "pk" ∉ dict_keys (format_document doc) →
  (∀ k k', k ∈ dict_keys (format_document doc) → is_Some (mapping !! k) →
           k' ∈ dict_keys (format_document doc) → is_Some (mapping !! k') →
           k ≠ k' → output_name mapping k ≠ k') →
  ∃ r, get_mapped_document mappings doc namespace = Ok r
       ∧ ∀ y, y ∈ dict_keys r ↔
              ∃ k, k ∈ dict_keys (format_document doc)
                   ∧ is_Some (mapping !! k) ∧ y = output_name mapping k.
Proof.
  intros Hschema Hns Hdb Hcoll Hnodup Hpk Hchain.
  unfold get_mapped_document, _clean_and_flatten_doc.
  rewrite Hns, Hdb, Hcoll.
  set (cleaned := filter _ _).
  assert (∀ k, k ∈ dict_keys cleaned ↔
               k ∈ dict_keys (format_document doc) ∧ is_Some (mapping !! k))
    as Hcleaned.
  { intros k. unfold dict_keys, cleaned. rewrite !list_elem_of_fmap. split.
    - intros ([k' v] & -> & [? ?]%list_elem_of_filter). split; [|done].
      by exists (k', v).
    - intros [([k' v] & -> & ?) ?]. exists (k', v). split; [done|].
      by apply list_elem_of_filter. }
  destruct (rename_loop mappings db collection dbmapping mapping
              (dict_keys cleaned) cleaned Hdb Hcoll) as (r & -> & Hr).
  - intros k [Hk [e He]]%Hcleaned.
    destruct (Hschema _ _ Hdb _ _ Hcoll) as [_ Hall].
    specialize (Hall _ _ He). unfold entry_conforms in Hall.
    destruct e as [s|o]; [|eauto].
    apply bool_decide_eq_true in Hall as ->. done.
  - by apply NoDup_filter_keys.
  - by apply NoDup_filter_keys.
  - done.
  - intros k k' [? ?]%Hcleaned [? ?]%Hcleaned. by apply Hchain.
  - exists r. split; [done|]. intros y. rewrite Hr. split.
    + intros [[? ?]|(k & [? ?]%Hcleaned & ->)]; [done|eauto].
    + intros (k & ? & ? & ->). right. exists k. split; [|done].
      by apply Hcleaned.
Qed.

(** ** Configuration validator *)

(** The keys a loop visits are the keys of the dictionary. *)
Lemma elem_of_keys_of {V} (m : gmap string V) k :
  k ∈ keys_of m ↔ is_Some (m !! k).
Proof.
  unfold keys_of. rewrite list_elem_of_fmap. split.
  - intros ([k' v] & -> & Hin). apply elem_of_map_to_list in Hin. eauto.
  - intros [v Hv]. exists (k, v). split; [done|]. by apply elem_of_map_to_list.
Qed.

Lemma filterM_exists {A} (f : A → result bool) (P : A → Prop) l :
  (∀ a, a ∈ l → ∃ b, f a = Ok b ∧ (b = true ↔ P a)) →
  ∃ l', filterM f l = Ok l' ∧ (0 < length l' ↔ ∃ a, a ∈ l ∧ P a).
Proof.
  induction l as [|a l IH]; intros Hf.
  - exists []. split; [done|]. split; [simpl; lia|].
    intros (a & Ha & _). by apply elem_of_nil in Ha.
  - destruct (Hf a) as (b & Hb & HP); [left|].
    destruct IH as (l' & Hl' & Hlen).
    { intros a' Ha'. apply Hf. by right. }
    simpl. rewrite Hb. simpl. rewrite Hl'. simpl.
    eexists. split; [done|]. destruct b.
    + split; [|simpl; lia]. intros _. exists a. split; [left|by apply HP].
    + rewrite Hlen. split.
      * intros (a' & Ha' & HPa'). exists a'. split; [by right|done].
      * intros (a' & Ha' & HPa'). apply elem_of_cons in Ha' as [->|Ha'].
        -- apply HP in HPa'. done.
        -- eauto.
Qed.

Lemma is_link_spec collection linked_mapping field :
  collection_conforms linked_mapping →
  field ∈ keys_of linked_mapping →
  ∃ b, is_link collection linked_mapping field = Ok b
       ∧ (b = true ↔
          ∃ o type, field ≠ "pk" ∧ linked_mapping !! field = Some (EObj o)
                    ∧ o !! "type" = Some type ∧ type ∈ ARRAYS_TYPE
                    ∧ o !! "dest" = Some collection).
Proof.
  intros [_ Hall] [e He]%elem_of_keys_of. unfold is_link.
  case_bool_decide as Hpk; simpl.
  2:{ exists false. split; [done|]. split; [done|]. intros (?&?&?&_). done. }
  unfold getitem. rewrite He. simpl.
  specialize (Hall _ _ He). unfold entry_conforms in Hall.
  destruct e as [s|o].
  { apply bool_decide_eq_true in Hall. done. }
  apply andb_true_iff in Hall as [_ Hall]. unfold field_conforms in Hall.
  simpl. unfold getitem.
  destruct (o !! "type") as [type|] eqn:Htype; [|done]. simpl.
  case_bool_decide as Harr; simpl.
  - apply andb_true_iff in Hall as [Hall _].
    apply andb_true_iff in Hall as [[dest Hdest]%contains_true _].
    rewrite Hdest. simpl. eexists. split; [done|].
    rewrite bool_decide_eq_true. split.
    + intros ->. eauto 10.
    + intros (o' & type' & _ & ? & _ & _ & ?). by simplify_eq.
  - exists false. split; [done|]. split; [done|].
    intros (o' & type' & _ & ? & ? & ? & _). by simplify_eq.
Qed.

Lemma find_linked_collection_spec dbmapping collection cols :
  map_Forall (λ _ m, collection_conforms m) dbmapping →
  (∀ c, c ∈ cols → is_Some (dbmapping !! c)) →
  ∃ b, find_linked_collection dbmapping collection cols = Ok b
       ∧ (b = true ↔
          ∃ c m, c ∈ cols ∧ c ≠ collection ∧ dbmapping !! c = Some m
                 ∧ points_at collection m).
Proof.
  intros Hall. induction cols as [|c cols IH]; intros Hkeys.
  - exists false. split; [done|]. split; [done|].
    intros (c & m & Hc & _). by apply elem_of_nil in Hc.
  - destruct IH as (b & Hb & Hspec).
    { intros c' Hc'. apply Hkeys. by right. }
    simpl. case_bool_decide as Hne.
    + destruct (Hkeys c) as [m Hm]; [left|].
      unfold getitem. rewrite Hm. simpl.
      destruct (filterM_exists (is_link collection m)
                  (λ field, ∃ o type, field ≠ "pk" ∧ m !! field = Some (EObj o)
                     ∧ o !! "type" = Some type ∧ type ∈ ARRAYS_TYPE
                     ∧ o !! "dest" = Some collection) (keys_of m))
        as (links & Hlinks & Hlen).
      { intros field Hfield. apply is_link_spec; [|done]. exact (Hall _ _ Hm). }
      rewrite Hlinks. simpl. case_bool_decide as Hpos.
      * exists true. split; [done|]. split; [|done]. intros _.
        apply Hlen in Hpos as (field & _ & o & type & ?).
        exists c, m. split; [left|]. split; [done|]. split; [done|].
        exists field, o, type. tauto.
      * exists b. split; [done|]. rewrite Hspec. split.
        -- intros (c' & m' & ? & ?). exists c', m'. split; [by right|done].
        -- intros (c' & m' & [->|Hin]%elem_of_cons & Hne' & Hm' & Hp).
           ++ exfalso. apply Hpos, Hlen. simplify_eq.
              destruct Hp as (field & o & type & ? & Hf & ?).
              exists field. split; [apply elem_of_keys_of; eauto|eauto].
           ++ eauto 10.
    + exists b. split; [done|]. rewrite Hspec. split.
      * intros (c' & m' & ? & ?). exists c', m'. split; [by right|done].
      * intros (c' & m' & [->|Hin]%elem_of_cons & Hne' & Hm' & Hp).
        -- by destruct Hne'.
        -- eauto 10.
Qed.

Lemma linked_iff_search dbmapping collection (cols : list string) :
  (∀ c, c ∈ cols ↔ is_Some (dbmapping !! c)) →
  (∃ c m, c ∈ cols ∧ c ≠ collection ∧ dbmapping !! c = Some m
          ∧ points_at collection m)
  ↔ linked dbmapping collection.
Proof.
  intros Hkeys. unfold linked. split.
  - intros (c & m & _ & ?). eauto.
  - intros (c & m & ? & Hm & ?). exists c, m. split; [|done].
    apply Hkeys. eauto.
Qed.

Lemma find_linked_collection_linked dbmapping collection (cols : list string) :
  map_Forall (λ _ m, collection_conforms m) dbmapping →
  (∀ c, c ∈ cols ↔ is_Some (dbmapping !! c)) →
  ∃ b, find_linked_collection dbmapping collection cols = Ok b
       ∧ (b = true ↔ linked dbmapping collection).
Proof.
  intros Hall Hkeys.
  destruct (find_linked_collection_spec dbmapping collection cols Hall)
    as (b & Hb & Hspec); [intros c; apply Hkeys|].
  exists b. split; [done|]. by rewrite Hspec, linked_iff_search.
Qed.

Lemma find_linked_collection_order dbmapping collection cols :
  map_Forall (λ _ m, collection_conforms m) dbmapping →
  cols ≡ₚ keys_of dbmapping →
  find_linked_collection dbmapping collection cols
  = find_linked_collection dbmapping collection (keys_of dbmapping).
Proof.
  intros Hall Hperm.
  destruct (find_linked_collection_linked dbmapping collection cols Hall)
    as (b & -> & Hb).
  { intros c. rewrite Hperm. apply elem_of_keys_of. }
  destruct (find_linked_collection_linked dbmapping collection
              (keys_of dbmapping) Hall) as (b' & -> & Hb').
  { intros c. apply elem_of_keys_of. }
  f_equal. apply Bool.eq_true_iff_eq. by rewrite Hb, Hb'.
Qed.

Lemma check_primary_key_outcome database dbmapping collection mapping pk :
  map_Forall (λ _ m, collection_conforms m) dbmapping →
  mapping !! "pk" = Some (EStr pk) →
  mapping !! pk = None →
  (linked dbmapping collection
   ∧ check_primary_key database dbmapping collection mapping = Ok tt)
  ∨ (¬ linked dbmapping collection
     ∧ check_primary_key database dbmapping collection mapping
       = Raise (InvalidConfiguration (PkNotFound pk database collection))).
Proof.
  intros Hall Hpk Hmissing. unfold check_primary_key, getitem.
  rewrite Hpk. simpl. apply contains_false in Hmissing. rewrite Hmissing. simpl.
  destruct (find_linked_collection_linked dbmapping collection
              (keys_of dbmapping) Hall) as (b & -> & Hb).
  { intros c. apply elem_of_keys_of. }
  simpl. destruct b; [left|right]; split; try done.
  - by apply Hb.
  - intros Hl. by apply Hb in Hl.
Qed.

Lemma check_primary_key_raises database dbmapping collection mapping p d c :
  map_Forall (λ _ m, collection_conforms m) dbmapping →
  check_primary_key database dbmapping collection mapping
    = Raise (InvalidConfiguration (PkNotFound p d c)) →
  d = database ∧ c = collection ∧ ¬ linked dbmapping collection.
Proof.
  intros Hall. unfold check_primary_key, getitem.
  destruct (mapping !! "pk") as [pk|]; [|done]. simpl.
  destruct pk as [s|o]; [|done]. simpl.
  destruct (negb _); [|done].
  destruct (find_linked_collection_linked dbmapping collection
              (keys_of dbmapping) Hall) as (b & -> & Hb).
  { intros c'. apply elem_of_keys_of. }
  simpl. destruct b; [done|]. intros [= <- <- <-].
  split; [done|]. split; [done|]. intros Hl. by apply Hb in Hl.
Qed.

Lemma for_each_Ok {A} (f : A → result unit) l :
  for_each f l = Ok tt → ∀ a, a ∈ l → f a = Ok tt.
Proof.
  induction l as [|a l IH]; simpl.
  - intros _ a Ha. by apply elem_of_nil in Ha.
  - destruct (f a) as [[]|e] eqn:Hfa; [|done]. simpl.
    intros Hl a' [->|Ha']%elem_of_cons; auto.
Qed.

Lemma for_each_Raise {A} (f : A → result unit) l e :
  for_each f l = Raise e → ∃ a, a ∈ l ∧ f a = Raise e.
Proof.
  induction l as [|a l IH]; simpl; [done|].
  destruct (f a) as [[]|e'] eqn:Hfa; simpl.
  - intros (a' & ? & ?)%IH. exists a'. split; [by right|done].
  - intros [= ->]. exists a. split; [left|done].
Qed.

Lemma check_field_not_pk_error database dbmapping collection mapping fieldname p d c :
  check_field database dbmapping collection mapping fieldname
  ≠ Raise (InvalidConfiguration (PkNotFound p d c)).
Proof.
  unfold check_field, check_foreign_key, check_value_field, primary_key_field,
    entry_getitem, getitem.
  repeat (case_match; simpl; try done).
Qed.

Lemma validate_mapping_Ok mappings database dbmapping collection mapping :
  validate_mapping mappings = Ok tt →
  mappings !! database = Some dbmapping →
  dbmapping !! collection = Some mapping →
  check_primary_key database dbmapping collection mapping = Ok tt.
Proof.
  unfold validate_mapping. case_bool_decide; [|done].
  intros Hdbs Hdb Hcoll.
  pose proof (for_each_Ok _ _ Hdbs database) as Hcheck.
  unfold check_database, getitem in Hcheck. rewrite Hdb in Hcheck.
  simpl in Hcheck.
  pose proof (for_each_Ok _ _ (Hcheck ltac:(apply elem_of_keys_of; eauto))
                collection) as Hcheck'.
  unfold check_collection, getitem in Hcheck'. rewrite Hcoll in Hcheck'.
  simpl in Hcheck'.
  destruct (check_primary_key database dbmapping collection mapping)
    as [[]|e]; [done|].
  by specialize (Hcheck' ltac:(apply elem_of_keys_of; eauto)).
Qed.

Lemma validate_mapping_pk_error mappings database dbmapping collection p :
  validate_mapping mappings
    = Raise (InvalidConfiguration (PkNotFound p database collection)) →
  mappings !! database = Some dbmapping →
  ¬ linked dbmapping collection.
Proof.
  unfold validate_mapping. case_bool_decide as Hschema; [|done].
  intros (d & _ & Hd)%for_each_Raise Hdb.
  unfold check_database, getitem in Hd.
  destruct (mappings !! d) as [dbmapping'|] eqn:Hdb'; [|done]. simpl in Hd.
  apply for_each_Raise in Hd as (c & _ & Hc).
  unfold check_collection, getitem in Hc.
  destruct (dbmapping' !! c) as [mapping'|]; [|done]. simpl in Hc.
  destruct (check_primary_key d dbmapping' c mapping') as [[]|e] eqn:Hpk;
    simpl in Hc.
  - apply for_each_Raise in Hc as (f & _ & Hf).
    by apply check_field_not_pk_error in Hf.
  - injection Hc as ->.
    apply check_primary_key_raises in Hpk as (-> & -> & Hnot);
      [|exact (Hschema _ _ Hdb')].
    by simplify_eq.
Qed.

(** The foreign-key check of an array field, when the primary key of the
    owning collection is an unmapped name or a mapped field. *)
Lemma check_foreign_key_outcome
    database dbmapping collection mapping o dest fk_name linked_mapping fk
    fk_type pk pk_type :
  o !! "fk" = Some fk_name →
  dbmapping !! dest = Some linked_mapping →
  linked_mapping !! fk_name = Some (EObj fk) →
  fk !! "type" = Some fk_type →
  mapping !! "pk" = Some (EStr pk) →
  (mapping !! pk = None ∧ pk_type = "SERIAL")
  ∨ (∃ pk_field, mapping !! pk = Some (EObj pk_field)
                 ∧ pk_field !! "type" = Some pk_type) →
  check_foreign_key database dbmapping collection mapping (EObj o) dest
  = if decide (fk_type = pk_type) then Ok tt
    else Raise (InvalidConfiguration
                  (FkTypeMismatch database dest fk_name collection pk)).
Proof.
  intros Hfk Hdest Hfield Htype Hpk Hresolved.
  unfold check_foreign_key, primary_key_field, entry_getitem, getitem.
  assert (contains dest dbmapping = true) as -> by (apply contains_true; eauto).
  simpl. rewrite Hfk. simpl. rewrite Hdest. simpl.
  assert (contains fk_name linked_mapping = true) as ->
    by (apply contains_true; eauto).
  simpl. rewrite Hfield, Hpk. simpl.
  destruct Hresolved as [[-> ->]|(pk_field & -> & Hpk_type)]; simpl.
  - rewrite Htype. simpl. rewrite lookup_singleton_eq. simpl.
    case_bool_decide; case_decide; simpl; rewrite ?Hpk; done.
  - rewrite Htype. simpl. rewrite Hpk_type. simpl.
    case_bool_decide; case_decide; simpl; rewrite ?Hpk; done.
Qed.

(** [is_id_autogenerated], when the name of the primary key does not contain
    the word [dest]. *)
Lemma maps_to_spec mapping pk kv :
  collection_conforms mapping →
  mapping !! "pk" = Some (EStr pk) →
  str_contains "dest" pk = false →
  kv ∈ map_to_list mapping →
  ∃ b, maps_to (EStr pk) kv = Ok b
       ∧ (b = true ↔ ∃ o, kv.2 = EObj o ∧ o !! "dest" = Some pk).
Proof.
  intros [_ Hall] Hpk Hsub Hin. destruct kv as [k e].
  apply elem_of_map_to_list in Hin. pose proof (Hall _ _ Hin) as Hconf.
  unfold maps_to, entry_conforms in *. simpl in *. destruct e as [s|o]; simpl.
  - apply bool_decide_eq_true in Hconf as ->.
    rewrite Hpk in Hin. injection Hin as ->. rewrite Hsub.
    exists false. split; [done|]. split; [done|]. by intros (o & ? & _).
  - destruct (contains "dest" o) eqn:Hdest.
    + apply contains_true in Hdest as [dest Hdest].
      unfold getitem. rewrite Hdest. simpl. eexists. split; [done|].
      rewrite bool_decide_eq_true. split.
      * intros [= ->]. eauto.
      * intros (o' & [= <-] & ?). by simplify_eq.
    + apply contains_false in Hdest.
      exists false. split; [done|]. split; [done|].
      intros (o' & [= <-] & ?). by simplify_eq.
Qed.

Lemma is_id_autogenerated_spec mappings namespace db coll mapping pk :
  conforms_to_schema mappings →
  db_and_collection namespace = (db, coll) →
  lookup_collection mappings db coll = Some mapping →
  mapping !! "pk" = Some (EStr pk) →
  str_contains "dest" pk = false →
  ∃ b, is_id_autogenerated mappings namespace = Ok b
       ∧ (b = true ↔
          ¬ ∃ field o, mapping !! field = Some (EObj o)
                       ∧ o !! "dest" = Some pk).
Proof.
  intros Hschema Hns Hl Hpk Hsub.
  pose proof (conforms_collection _ _ _ _ Hschema Hl) as Hconf.
  unfold is_id_autogenerated, get_primary_key, lookup_collection, getitem in *.
  rewrite Hns. destruct (mappings !! db) as [dbmapping|]; [|done].
  simpl in *. rewrite Hl. simpl. rewrite Hpk. simpl.
  destruct (filterM_exists (maps_to (EStr pk))
              (λ kv, ∃ o, kv.2 = EObj o ∧ o !! "dest" = Some pk)
              (map_to_list mapping)) as (l & -> & Hlen).
  { intros kv Hkv. by eapply maps_to_spec. }
  simpl. eexists. split; [done|]. rewrite bool_decide_eq_true. split.
  - intros Hnil (field & o & Hf & Ho).
    assert (0 < length l); [|lia]. apply Hlen.
    exists (field, EObj o). split; [by apply elem_of_map_to_list|eauto].
  - intros Hnone. destruct (decide (length l = 0)) as [|Hpos]; [done|].
    exfalso. apply Hnone.
    destruct Hlen as [Hlen _].
    destruct Hlen as ([k e] & Hin & o & He & Ho); [lia|].
    simpl in He. subst e. apply elem_of_map_to_list in Hin. eauto.
Qed.

(** ** Value transform evaluator *)

(** A failure to compile the expression is logged and leaves the value. *)
Lemma compile_failure_absorbed o c transform mapped_document key val err log :
  o !! "transform" = Some (String c transform) →
  Ascii.eqb c "@" = false →
  dict_get key mapped_document = Ok val →
  compile_restricted ("transform = lambda val: " +:+ String c transform)
    = Raise err →
  is_Exception err = true →
  get_transformed_value (EObj o) mapped_document key log
  = (Ok val, log ++ [TransformCodeError err]).
Proof.
  intros Ho Hc Hval Hcompile Hexn.
  unfold get_transformed_value, compile_expression, lift, mbind, M_bind.
  rewrite Hval. simpl.
  assert (contains "transform" o = true) as -> by (apply contains_true; eauto).
  unfold getitem. rewrite Ho. simpl. rewrite Hc, Hcompile. simpl.
  by rewrite Hexn.
Qed.

(** A module that cannot be imported is logged and leaves the value. *)
Lemma import_failure_absorbed
    o path module_path name mapped_document key val log :
  o !! "transform" = Some (String "@" path) →
  rsplit_dot path = [module_path; name] →
  dict_get key mapped_document = Ok val →
  import_module module_path = Raise (ImportError module_path) →
  get_transformed_value (EObj o) mapped_document key log
  = (Ok val, log ++ [TransformFunctionError (ImportError module_path)]).
Proof.
  intros Ho Hsplit Hval Himport.
  unfold get_transformed_value, resolve_reference, lift, mbind, M_bind.
  rewrite Hval. simpl.
  assert (contains "transform" o = true) as -> by (apply contains_true; eauto).
  unfold getitem. rewrite Ho. simpl. rewrite Hsplit. simpl.
  by rewrite Himport.
Qed.

(** ** The pipeline *)

Lemma oblivious_ret {A} (a : A) : log_oblivious (mret a).
Proof. exists (Ok a), []. intros log. by rewrite app_nil_r. Qed.

Lemma oblivious_lift {A} (r : result A) : log_oblivious (lift r).
Proof. exists r, []. intros log. by rewrite app_nil_r. Qed.

Lemma oblivious_LOG_error r : log_oblivious (LOG_error r).
Proof. by exists (Ok tt), [r]. Qed.

Lemma oblivious_bind {A B} (m : M A) (f : A → M B) :
  log_oblivious m → (∀ a, log_oblivious (f a)) → log_oblivious (m ≫= f).
Proof.
  intros (r & out & Hm) Hf. destruct r as [a|e].
  - destruct (Hf a) as (r' & out' & Hfa). exists r', (out ++ out').
    intros log. unfold mbind, M_bind. rewrite Hm, Hfa. by rewrite app_assoc.
  - exists (Raise e), out. intros log. unfold mbind, M_bind. by rewrite Hm.
Qed.

Create HintDb oblivious.
#[local] Hint Resolve oblivious_ret oblivious_lift oblivious_LOG_error
  : oblivious.

(** Descends through binds and case distinctions down to the leaves. *)
Ltac oblivious :=
  repeat first
    [ solve [auto with oblivious]
    | apply oblivious_bind; [|intros ?]
    | match goal with
      | |- log_oblivious (match ?x with _ => _ end) => destruct x
      end ].

Lemma oblivious_mapM_log {A B} (f : A → M B) l :
  (∀ a, log_oblivious (f a)) → log_oblivious (mapM_log f l).
Proof. intros Hf. induction l as [|a l IH]; simpl; oblivious; auto. Qed.

Lemma oblivious_resolve_reference transform :
  log_oblivious (resolve_reference transform).
Proof. unfold resolve_reference. oblivious. Qed.

Lemma oblivious_compile_expression transform :
  log_oblivious (compile_expression transform).
Proof. unfold compile_expression. oblivious. Qed.

#[local] Hint Resolve oblivious_resolve_reference oblivious_compile_expression
  : oblivious.

Lemma oblivious_get_transformed_value mapped_field mapped_document key :
  log_oblivious (get_transformed_value mapped_field mapped_document key).
Proof. unfold get_transformed_value. oblivious. Qed.

#[local] Hint Resolve oblivious_get_transformed_value : oblivious.

Lemma oblivious_get_transformed_document mappings db collection mapped :
  log_oblivious (get_transformed_document mappings db collection mapped).
Proof.
  unfold get_transformed_document.
  apply oblivious_bind; [oblivious|intros mapped_fields].
  apply oblivious_mapM_log. intros key. oblivious.
Qed.

Lemma oblivious_transform_pipeline mappings doc namespace :
  log_oblivious (transform_pipeline mappings doc namespace).
Proof.
  unfold transform_pipeline.
  apply oblivious_bind; [oblivious|intros mapped].
  destruct (db_and_collection namespace).
  apply oblivious_get_transformed_document.
Qed.

(** * Further properties of the module *)

(** ** Filtering and renaming *)

Lemma dict_get_cleaned (mapping : collection_mapping) (d : record) k :
  dict_get k (filter (λ kv, is_Some (mapping !! kv.1)) d)
  = if contains k mapping then dict_get k d else Raise (KeyError k).
Proof.
  unfold contains. induction d as [|[k' v] d IH]; simpl.
  - by case_bool_decide.
  - rewrite filter_cons. simpl. case_decide as Hk'; simpl.
    + destruct (decide (k' = k)) as [->|]; [|done]. by case_bool_decide.
    + destruct (decide (k' = k)) as [->|]; [|done]. by case_bool_decide.
Qed.

(** X1. Looking a key up in the record [_clean_and_flatten_doc] returns gives
    the value the flattened document has for it when [is_mapped] accepts the
    key as a field of the namespace, and fails with [KeyError] otherwise: the
    filter keeps the mapped fields with their values and nothing else,
    whatever the namespace. *)
Theorem clean_and_flatten_doc_lookup mappings doc namespace k :
  dict_get k (_clean_and_flatten_doc mappings doc namespace)
  = if is_mapped mappings namespace (Some k)
    then dict_get k (format_document doc)
    else Raise (KeyError k).
Proof.
  unfold _clean_and_flatten_doc, is_mapped.
  destruct (db_and_collection namespace) as [db coll].
  destruct (mappings !! db) as [mappings_db|]; [|done].
  destruct (mappings_db !! coll) as [mappings_coll|]; [|done].
  apply dict_get_cleaned.
Qed.

Lemma dict_get_set k v (d : record) y :
  dict_get y (dict_set k v d) = if decide (y = k) then Ok v else dict_get y d.
Proof.
  induction d as [|[k' v'] d IH]; simpl.
  - destruct (decide (k = y)), (decide (y = k)); congruence.
  - destruct (decide (k' = k)) as [->|Hk]; simpl.
    + destruct (decide (k = y)), (decide (y = k)); congruence.
    + rewrite IH. destruct (decide (k' = y)), (decide (y = k)); congruence.
Qed.

Lemma dict_pop_get k (d : record) v d' :
  dict_pop k d = Ok (v, d') →
  dict_get k d = Ok v ∧ ∀ y, y ≠ k → dict_get y d' = dict_get y d.
Proof.
  revert v d'. induction d as [|[k' v'] d IH]; simpl; intros v d'; [done|].
  destruct (decide (k' = k)) as [->|Hk].
  - intros [= <- <-]. split; [done|]. intros y Hy. by rewrite decide_False.
  - destruct (dict_pop k d) as [[x r]|e] eqn:Hpop; simpl; [|done].
    intros [= <- <-]. destruct (IH x r eq_refl) as [Hget Hother].
    split; [done|]. intros y Hy. simpl. rewrite (Hother y Hy). done.
Qed.

(** One turn of the renaming loop on a key the record holds. *)
Lemma rename_key_step mappings db collection dbmapping mapping o d k :
  mappings !! db = Some dbmapping →
  dbmapping !! collection = Some mapping →
  mapping !! k = Some (EObj o) →
  k ∈ dict_keys d → NoDup (dict_keys d) →
  ∃ d', rename_key mappings db collection d k = Ok d'
        ∧ NoDup (dict_keys d')
        ∧ (∀ y, y ∈ dict_keys d' ↔
                y = output_name mapping k ∨ (y ∈ dict_keys d ∧ y ≠ k))
        ∧ dict_get (output_name mapping k) d' = dict_get k d
        ∧ (∀ y, y ≠ output_name mapping k → y ≠ k →
                dict_get y d' = dict_get y d).
Proof.
  intros Hdb Hcoll Ho Hin Hnodup.
  assert (output_name mapping k = default k (o !! "dest")) as Hout
    by (unfold output_name; by rewrite Ho).
  unfold rename_key, getitem. rewrite Hdb. simpl. rewrite Hcoll. simpl.
  rewrite Ho. simpl. destruct (o !! "dest") as [x|] eqn:Hx; simpl in Hout.
  - assert (contains "dest" o = true) as -> by (apply contains_true; eauto).
    unfold getitem. rewrite Hx. simpl.
    destruct (dict_pop_spec k d Hin Hnodup) as (v & d1 & Hpop & Hd1 & Hkeys1).
    rewrite Hpop. simpl. destruct (dict_pop_get _ _ _ _ Hpop) as [Hget Hother].
    eexists. split; [done|]. rewrite Hout. split_and!.
    + by apply dict_set_NoDup.
    + intros y. rewrite dict_set_keys, Hkeys1. done.
    + rewrite dict_get_set, decide_True; done.
    + intros y Hy Hk. rewrite dict_get_set, decide_False; auto.
  - assert (contains "dest" o = false) as -> by by apply contains_false.
    exists d. rewrite Hout. split_and!; try done.
    intros y. split.
    + intros Hy. destruct (decide (y = k)); auto.
    + intros [->|[? _]]; done.
Qed.

(** The loop over [keys], whatever the destinations are. *)
Lemma rename_loop_sound mappings db collection dbmapping mapping keys d :
  mappings !! db = Some dbmapping →
  dbmapping !! collection = Some mapping →
  (∀ k, k ∈ keys → ∃ o, mapping !! k = Some (EObj o)) →
  NoDup keys → NoDup (dict_keys d) →
  (∀ k, k ∈ keys → k ∈ dict_keys d) →
  ∃ r, foldM (rename_key mappings db collection) d keys = Ok r
       ∧ NoDup (dict_keys r)
       ∧ ∀ y, y ∈ dict_keys r →
              (y ∈ dict_keys d ∧ y ∉ keys)
              ∨ ∃ k, k ∈ keys ∧ y = output_name mapping k.
Proof.
  intros Hdb Hcoll. revert d.
  induction keys as [|k keys IH]; intros d Hobj Hnodup Hd Hin.
  - exists d. split; [done|]. split; [done|]. intros y Hy. left.
    split; [done|]. apply not_elem_of_nil.
  - apply NoDup_cons in Hnodup as [Hk Hnodup].
    destruct (Hobj k) as [o Ho]; [left|].
    destruct (rename_key_step mappings db collection dbmapping mapping o d k)
      as (d' & Hstep & Hd' & Hkeys & _); [done..|apply Hin; left|done|].
    simpl. rewrite Hstep. simpl.
    destruct (IH d') as (r & -> & Hr & Hsound); try done.
    { intros k' Hk'. apply Hobj. by right. }
    { intros k' Hk'. apply Hkeys. right. split; [apply Hin; by right|].
      intros ->. done. }
    exists r. split; [done|]. split; [done|]. intros y Hy.
    destruct (Hsound y Hy) as [[Hy' Hnotin]|(k' & Hk' & ->)].
    + apply Hkeys in Hy' as [->|[Hyd Hne]].
      * right. exists k. split; [left|done].
      * left. split; [done|]. by intros [?|?]%elem_of_cons.
    + right. exists k'. split; [by right|done].
Qed.

Lemma cleaned_keys (mapping : collection_mapping) (flat_doc : record) k :
  k ∈ dict_keys (filter (λ kv, is_Some (mapping !! kv.1)) flat_doc)
  ↔ k ∈ dict_keys flat_doc ∧ is_Some (mapping !! k).
Proof.
  unfold dict_keys. rewrite !list_elem_of_fmap. split.
  - intros ([k' v] & -> & [? ?]%list_elem_of_filter). split; [|done].
    by exists (k', v).
  - intros [([k' v] & -> & ?) ?]. exists (k', v). split; [done|].
    by apply list_elem_of_filter.
Qed.

Lemma retained_is_object mappings db collection dbmapping mapping
    (flat_doc : record) k :
  conforms_to_schema mappings →
  mappings !! db = Some dbmapping →
  dbmapping !! collection = Some mapping →
  "pk" ∉ dict_keys flat_doc →
  k ∈ dict_keys flat_doc → is_Some (mapping !! k) →
  ∃ o, mapping !! k = Some (EObj o).
Proof.
  intros Hschema Hdb Hcoll Hpk Hk [e He].
  destruct (Hschema _ _ Hdb _ _ Hcoll) as [_ Hall].
  specialize (Hall _ _ He). unfold entry_conforms in Hall.
  destruct e as [s|o]; [|eauto].
  apply bool_decide_eq_true in Hall as ->. done.
Qed.

(** X2. For a configuration that conforms to the schema and a document whose
    flattened form has distinct keys, none of them [pk], [get_mapped_document]
    returns a record and raises nothing, however the destinations overlap
    with the source names; the keys of the record are distinct, and each of
    them is the output name (the [dest], or the field's own name) of a field
    that is both in the document and in the collection mapping: no other key
    ever appears. *)
Theorem get_mapped_document_no_extraneous_key
    mappings doc namespace db collection dbmapping mapping :
  conforms_to_schema mappings →
  db_and_collection namespace = (db, collection) →
  mappings !! db = Some dbmapping →
  dbmapping !! collection = Some mapping →
  NoDup (dict_keys (format_document doc)) →
  "pk" ∉ dict_keys (format_document doc) →
  ∃ r, get_mapped_document mappings doc namespace = Ok r
       ∧ NoDup (dict_keys r)
       ∧ ∀ y, y ∈ dict_keys r →
              ∃ k, k ∈ dict_keys (format_document doc)
                   ∧ is_Some (mapping !! k) ∧ y = output_name mapping k.
Proof.
  intros Hschema Hns Hdb Hcoll Hnodup Hpk.
  unfold get_mapped_document, _clean_and_flatten_doc.
  rewrite Hns, Hdb, Hcoll.
  set (cleaned := filter _ _).
  destruct (rename_loop_sound mappings db collection dbmapping mapping
              (dict_keys cleaned) cleaned Hdb Hcoll)
    as (r & -> & Hr & Hsound).
  - intros k [Hk Hsome]%cleaned_keys. by eapply retained_is_object.
  - by apply NoDup_filter_keys.
  - by apply NoDup_filter_keys.
  - done.
  - exists r. split; [done|]. split; [done|]. intros y Hy.
    destruct (Hsound y Hy) as [[? ?]|(k & [? ?]%cleaned_keys & ->)]; [done|].
    eauto.
Qed.

(** The loop over [keys] moves every value to the output name of its key when
    no two keys share an output name and no output name is another key. *)
Lemma rename_loop_values mappings db collection dbmapping mapping keys d :
  mappings !! db = Some dbmapping →
  dbmapping !! collection = Some mapping →
  (∀ k, k ∈ keys → ∃ o, mapping !! k = Some (EObj o)) →
  NoDup keys → NoDup (dict_keys d) →
  (∀ k, k ∈ keys → k ∈ dict_keys d) →
  (∀ k k', k ∈ keys → k' ∈ keys → k ≠ k' → output_name mapping k ≠ k') →
  (∀ k k', k ∈ keys → k' ∈ keys →
           output_name mapping k = output_name mapping k' → k = k') →
  (∀ k y, k ∈ keys → y ∈ dict_keys d → y ∉ keys → output_name mapping k ≠ y) →
  ∃ r, foldM (rename_key mappings db collection) d keys = Ok r
       ∧ (∀ k, k ∈ keys → dict_get (output_name mapping k) r = dict_get k d)
       ∧ (∀ y, y ∉ keys → (∀ k, k ∈ keys → output_name mapping k ≠ y) →
               dict_get y r = dict_get y d).
Proof.
  intros Hdb Hcoll. revert d.
  induction keys as [|k keys IH];
    intros d Hobj Hnodup Hd Hin Hchain Hinj Hfresh.
  - exists d. split; [done|]. split; [|done].
    intros k Hk. by apply elem_of_nil in Hk.
  - apply NoDup_cons in Hnodup as [Hk Hnodup].
    destruct (Hobj k) as [o Ho]; [left|].
    destruct (rename_key_step mappings db collection dbmapping mapping o d k)
      as (d' & Hstep & Hd' & Hkeys & Hmoved & Hother);
      [done..|apply Hin; left|done|].
    simpl. rewrite Hstep. simpl.
    assert (output_name mapping k ∉ keys) as Hout.
    { intros Hin'. destruct (decide (output_name mapping k = k)) as [Heq|Hne].
      - rewrite Heq in Hin'. done.
      - by apply (Hchain k (output_name mapping k)); [left|right|..]. }
    assert (∀ k', k' ∈ keys → output_name mapping k' ≠ output_name mapping k)
      as Hdistinct.
    { intros k' Hk' Heq. apply Hinj in Heq; [|by right|left]. by subst k'. }
    destruct (IH d') as (r & -> & Hvalues & Hrest); try done.
    { intros k' Hk'. apply Hobj. by right. }
    { intros k' Hk'. apply Hkeys. right. split; [apply Hin; by right|].
      intros ->. done. }
    { intros k1 k2 ? ?. apply Hchain; by right. }
    { intros k1 k2 ? ?. apply Hinj; by right. }
    { intros k' y Hk' [->|[Hy Hne]]%Hkeys Hnotin; [by apply Hdistinct|].
      apply Hfresh; [by right|done|]. by intros [?|?]%elem_of_cons. }
    exists r. split; [done|]. split.
    + intros k' [->|Hk']%elem_of_cons.
      * rewrite Hrest; [done|done|]. intros k' Hk'. by apply Hdistinct.
      * rewrite (Hvalues k' Hk'). apply Hother.
        -- intros Heq. apply (Hchain k k'); [left|by right|by intros ->|done].
        -- intros ->. done.
    + intros y Hy Hnoout. apply not_elem_of_cons in Hy as [Hyk Hy].
      rewrite Hrest; [|done|].
      * apply Hother; [|done]. intros ->. by apply (Hnoout k); [left|].
      * intros k' Hk'. apply Hnoout. by right.
Qed.

(** X3. For a configuration that conforms to the schema and a document
    whose flattened form has distinct keys, none of them [pk], when no
    retained field is renamed to the name of another retained field and no
    two retained fields share an output name, the record [get_mapped_document] returns holds,
    under the output name of every retained field, the value the flattened
    document has for that field; the output name is the name
    [get_mapped_field] gives whenever [get_mapped_field] returns one. *)
Theorem get_mapped_document_values
    mappings doc namespace db collection dbmapping mapping :
  conforms_to_schema mappings →
  db_and_collection namespace = (db, collection) →
  mappings !! db = Some dbmapping →
  dbmapping !! collection = Some mapping →
  NoDup (dict_keys (format_document doc)) →
  "pk" ∉ dict_keys (format_document doc) →
  (∀ k k', k ∈ dict_keys (format_document doc) → is_Some (mapping !! k) →
           k' ∈ dict_keys (format_document doc) → is_Some (mapping !! k') →
           k ≠ k' → output_name mapping k ≠ k') →
  (∀ k k', k ∈ dict_keys (format_document doc) → is_Some (mapping !! k) →
           k' ∈ dict_keys (format_document doc) → is_Some (mapping !! k') →
           output_name mapping k = output_name mapping k' → k = k') →
  ∃ r, get_mapped_document mappings doc namespace = Ok r
       ∧ ∀ k, k ∈ dict_keys (format_document doc) → is_Some (mapping !! k) →
              dict_get (output_name mapping k) r
              = dict_get k (format_document doc)
              ∧ ∀ dest, get_mapped_field mappings namespace k = Ok dest →
                        dict_get dest r = dict_get k (format_document doc).
Proof.
  intros Hschema Hns Hdb Hcoll Hnodup Hpk Hchain Hinj.
  unfold get_mapped_document, _clean_and_flatten_doc.
  rewrite Hns, Hdb, Hcoll.
  set (cleaned := filter _ _).
  destruct (rename_loop_values mappings db collection dbmapping mapping
              (dict_keys cleaned) cleaned Hdb Hcoll) as (r & -> & Hr & _).
  - intros k [Hk Hsome]%cleaned_keys. by eapply retained_is_object.
  - by apply NoDup_filter_keys.
  - by apply NoDup_filter_keys.
  - done.
  - intros k k' [? ?]%cleaned_keys [? ?]%cleaned_keys. by apply Hchain.
  - intros k k' [? ?]%cleaned_keys [? ?]%cleaned_keys. by apply Hinj.
  - intros k y _ Hy Hnot. done.
  - exists r. split; [done|]. intros k Hk Hsome.
    assert (dict_get (output_name mapping k) r
            = dict_get k (format_document doc)) as Hvalue.
    { rewrite Hr by by apply cleaned_keys. unfold cleaned.
      rewrite dict_get_cleaned.
      by assert (contains k mapping = true) as -> by by apply contains_true. }
    split; [done|]. intros dest Hdest. rewrite <- Hvalue. f_equal.
    unfold get_mapped_field, getitem in Hdest.
    rewrite Hns, Hdb in Hdest. simpl in Hdest. rewrite Hcoll in Hdest.
    simpl in Hdest. unfold output_name.
    destruct (mapping !! k) as [[s|o]|]; simpl in Hdest; try done.
    unfold getitem in Hdest. destruct (o !! "dest"); by simplify_eq.
Qed.

(** ** Lookup API *)

Lemma filterM_members {A} (f : A → result bool) (P : A → Prop) l :
  (∀ a, a ∈ l → ∃ b, f a = Ok b ∧ (b = true ↔ P a)) →
  ∃ l', filterM f l = Ok l' ∧ l' `sublist_of` l
        ∧ ∀ a, a ∈ l' ↔ a ∈ l ∧ P a.
Proof.
  induction l as [|a l IH]; intros Hf.
  - exists []. split; [done|]. split; [done|]. intros a. split.
    + intros Ha. by apply elem_of_nil in Ha.
    + intros [Ha _]. done.
  - destruct (Hf a) as (b & Hb & HP); [left|].
    destruct IH as (l' & Hl' & Hsub & Hmem).
    { intros a' Ha'. apply Hf. by right. }
    simpl. rewrite Hb. simpl. rewrite Hl'. simpl.
    eexists. split; [done|]. destruct b.
    + split; [by apply sublist_skip|]. intros a'.
      rewrite !elem_of_cons, Hmem. split.
      * intros [->|[? ?]]; [split; [by left|by apply HP]|auto].
      * intros [[->|?] ?]; auto.
    + split; [by apply sublist_cons|]. intros a'.
      rewrite elem_of_cons, Hmem. split.
      * intros [? ?]. auto.
      * intros [[->|?] HPa]; [|done]. apply HP in HPa. done.
Qed.

Lemma filterM_raises {A} (f : A → result bool) l e :
  (∀ a, a ∈ l → (∃ b, f a = Ok b) ∨ f a = Raise e) →
  (∃ a, a ∈ l ∧ f a = Raise e) →
  filterM f l = Raise e.
Proof.
  induction l as [|a l IH]; intros Hall (a' & Ha' & Hraise).
  - by apply elem_of_nil in Ha'.
  - simpl. destruct (Hall a) as [[b Hb]| ->]; [left| |done].
    rewrite Hb. simpl. rewrite IH; [done| |].
    + intros a'' Ha''. apply Hall. by right.
    + apply elem_of_cons in Ha' as [->|Ha']; [congruence|eauto].
Qed.

(** X4. In a configuration that conforms to the schema, [is_mapped] is the
    guard of the accessors: [get_primary_key] returns the name of the primary
    key exactly for the namespaces [is_mapped] accepts, [get_mapped_field]
    returns a name only for fields [is_mapped] accepts, and a namespace whose
    field is accepted is accepted itself. *)
Theorem is_mapped_guards_accessors mappings namespace field :
  conforms_to_schema mappings →
  (is_mapped mappings namespace None = true
   ↔ ∃ pk, get_primary_key mappings namespace = Ok (EStr pk))
  ∧ (∀ dest, get_mapped_field mappings namespace field = Ok dest →
             is_mapped mappings namespace (Some field) = true)
  ∧ (is_mapped mappings namespace (Some field) = true →
     is_mapped mappings namespace None = true).
Proof.
  intros Hschema.
  unfold is_mapped, get_primary_key, get_mapped_field, getitem.
  destruct (db_and_collection namespace) as [db collection].
  destruct (mappings !! db) as [dbmapping|] eqn:Hdb; simpl.
  2:{ split_and!; try done. split; [done|]. by intros [? ?]. }
  destruct (dbmapping !! collection) as [mapping|] eqn:Hcoll; simpl.
  2:{ split_and!; try done. split; [done|]. by intros [? ?]. }
  destruct (Hschema _ _ Hdb _ _ Hcoll) as [[pk Hpk] Hall].
  split_and!.
  - split; [intros _|done]. rewrite Hpk.
    specialize (Hall _ _ Hpk). unfold entry_conforms in Hall.
    destruct pk as [s|o]; [eauto|].
    apply andb_true_iff in Hall as [Hne _].
    by apply negb_true_iff, bool_decide_eq_false in Hne.
  - intros dest. destruct (mapping !! field) eqn:Hfield; [|done].
    intros _. apply contains_true. by rewrite Hfield.
  - done.
Qed.

Lemma is_scalar_array_spec mapping pk kv :
  collection_conforms mapping →
  mapping !! "pk" = Some (EStr pk) →
  str_contains "type" pk = false →
  kv ∈ map_to_list mapping →
  ∃ b, is_scalar_array kv = Ok b
       ∧ (b = true ↔
          ∃ o, kv.2 = EObj o ∧ o !! "type" = Some ARRAY_OF_SCALARS_TYPE).
Proof.
  intros [_ Hall] Hpk Hsub Hin. destruct kv as [k e].
  apply elem_of_map_to_list in Hin. pose proof (Hall _ _ Hin) as Hconf.
  unfold is_scalar_array, entry_conforms in *. simpl in *.
  destruct e as [s|o]; simpl.
  - apply bool_decide_eq_true in Hconf as ->.
    rewrite Hpk in Hin. injection Hin as ->. rewrite Hsub.
    exists false. split; [done|]. split; [done|]. by intros (o & ? & _).
  - apply andb_true_iff in Hconf as [_ Hconf]. unfold field_conforms in Hconf.
    destruct (o !! "type") as [type|] eqn:Htype; [|done].
    assert (contains "type" o = true) as -> by (apply contains_true; eauto).
    unfold getitem. rewrite Htype. simpl. eexists. split; [done|].
    rewrite bool_decide_eq_true. split.
    + intros ->. eauto.
    + intros (o' & [= <-] & ?). by simplify_eq.
Qed.

(** What the comprehensions of the two accessors do on the entry ["pk"] when
    the name stored there contains the word they test for: the membership
    test succeeds as a substring test and the subscript raises. *)
Lemma comprehension_raises_on_pk
    (cond : string * entry → result bool) (word : string) mapping pk :
  (∀ kv o, kv.2 = EObj o → collection_conforms mapping →
           kv ∈ map_to_list mapping → ∃ b, cond kv = Ok b) →
  (∀ k s, str_contains word s = true → cond (k, EStr s) = Raise TypeError) →
  collection_conforms mapping →
  mapping !! "pk" = Some (EStr pk) →
  str_contains word pk = true →
  filterM cond (map_to_list mapping) = Raise TypeError.
Proof.
  intros Hobj Hstr Hconf Hpk Hsub. apply filterM_raises.
  - intros [k e] Hin. destruct e as [s|o].
    + right. pose proof Hin as Hin'. apply elem_of_map_to_list in Hin'.
      destruct Hconf as [_ Hall]. specialize (Hall _ _ Hin').
      apply bool_decide_eq_true in Hall as ->.
      rewrite Hpk in Hin'. injection Hin' as ->. by apply Hstr.
    + left. by eapply Hobj.
  - exists ("pk", EStr pk). split; [by apply elem_of_map_to_list|].
    by apply Hstr.
Qed.

(** X5. In a configuration that conforms to the schema, for a mapped
    collection: when the name of the primary key does not contain the word
    [type], [get_scalar_array_fields] returns, without repetition, exactly the
    fields whose type is the array-of-scalars type; when it does contain
    [type], the accessor raises [TypeError] on the entry ["pk"]. *)
Theorem get_scalar_array_fields_outcome mappings db collection mapping pk :
  conforms_to_schema mappings →
  lookup_collection mappings db collection = Some mapping →
  mapping !! "pk" = Some (EStr pk) →
  (str_contains "type" pk = false →
   ∃ fields, get_scalar_array_fields mappings db collection = Ok fields
             ∧ NoDup fields
             ∧ ∀ f, f ∈ fields ↔
                    ∃ o, mapping !! f = Some (EObj o)
                         ∧ o !! "type" = Some ARRAY_OF_SCALARS_TYPE)
  ∧ (str_contains "type" pk = true →
     get_scalar_array_fields mappings db collection = Raise TypeError).
Proof.
  intros Hschema Hl Hpk.
  pose proof (conforms_collection _ _ _ _ Hschema Hl) as Hconf.
  unfold get_scalar_array_fields, lookup_collection in *.
  destruct (mappings !! db) as [dbmapping|]; [|done].
  simpl in Hl. rewrite Hl. split.
  - intros Hsub.
    destruct (filterM_members is_scalar_array
                (λ kv, ∃ o, kv.2 = EObj o
                            ∧ o !! "type" = Some ARRAY_OF_SCALARS_TYPE)
                (map_to_list mapping)) as (l & -> & Hsublist & Hmem).
    { intros kv Hkv. by eapply is_scalar_array_spec. }
    simpl. eexists. split; [done|]. split.
    + apply (sublist_NoDup _ ((map_to_list mapping).*1)).
      * apply NoDup_fst_map_to_list.
      * by apply fmap_sublist.
    + intros f. rewrite list_elem_of_fmap. split.
      * intros ([k e] & -> & [Hin (o & He & Ho)]%Hmem). simpl in *. subst e.
        apply elem_of_map_to_list in Hin. eauto.
      * intros (o & Hf & Ho). exists (f, EObj o). split; [done|].
        apply Hmem. split; [by apply elem_of_map_to_list|eauto].
  - intros Hsub.
    rewrite (comprehension_raises_on_pk is_scalar_array "type" mapping pk);
      try done.
    + intros [k e] o He [_ Hall] Hin. simpl in He. subst e.
      apply elem_of_map_to_list in Hin. specialize (Hall _ _ Hin).
      unfold entry_conforms, field_conforms in Hall.
      apply andb_true_iff in Hall as [_ Hall].
      unfold is_scalar_array. simpl.
      destruct (o !! "type") as [type|] eqn:Htype; [|done].
      assert (contains "type" o = true) as -> by (apply contains_true; eauto).
      unfold getitem. rewrite Htype. simpl. eauto.
    + intros k s Hs. unfold is_scalar_array. simpl. by rewrite Hs.
Qed.

(** X6. In a configuration that conforms to the schema, for a mapped
    namespace: when the name of the primary key does not contain the word
    [dest], [is_id_autogenerated] returns [True] exactly when no field of the
    collection has that name as its [dest]; when it does contain [dest], the
    function raises [TypeError] on the entry ["pk"]. *)
Theorem is_id_autogenerated_outcome mappings namespace db coll mapping pk :
  conforms_to_schema mappings →
  db_and_collection namespace = (db, coll) →
  lookup_collection mappings db coll = Some mapping →
  mapping !! "pk" = Some (EStr pk) →
  (str_contains "dest" pk = false →
   ∃ b, is_id_autogenerated mappings namespace = Ok b
        ∧ (b = true ↔
           ¬ ∃ field o, mapping !! field = Some (EObj o)
                        ∧ o !! "dest" = Some pk))
  ∧ (str_contains "dest" pk = true →
     is_id_autogenerated mappings namespace = Raise TypeError).
Proof.
  intros Hschema Hns Hl Hpk. split.
  - intros Hsub. by eapply is_id_autogenerated_spec.
  - intros Hsub.
    pose proof (conforms_collection _ _ _ _ Hschema Hl) as Hconf.
    unfold is_id_autogenerated, get_primary_key, lookup_collection, getitem
      in *.
    rewrite Hns. destruct (mappings !! db) as [dbmapping|]; [|done].
    simpl in *. rewrite Hl. simpl. rewrite Hpk. simpl.
    rewrite (comprehension_raises_on_pk (maps_to (EStr pk)) "dest" mapping pk);
      try done.
    + intros [k e] o He _ _. simpl in He. subst e. unfold maps_to. simpl.
      destruct (contains "dest" o) eqn:Hdest; [|eauto].
      apply contains_true in Hdest as [dest Hdest].
      unfold getitem. rewrite Hdest. simpl. eauto.
    + intros k s Hs. unfold maps_to. simpl. by rewrite Hs.
Qed.

(** ** Value transform evaluator *)

(** The two ways of obtaining the function end in one of three states: a
    function and an untouched log, no function and one more log record, or
    an exception and an untouched log. *)
Lemma resolve_reference_outcome transform log :
  (∃ f, resolve_reference transform log = (Ok (Some f), log))
  ∨ (∃ record, resolve_reference transform log = (Ok None, log ++ [record]))
  ∨ (∃ err, resolve_reference transform log = (Raise err, log)
            ∧ is_ImportError_or_ValueError err = false).
Proof.
  unfold resolve_reference, lift, mbind, M_bind, LOG_error.
  destruct (rsplit_dot (str_tail transform)) as [|a [|b [|c l]]]; simpl;
    try (right; right; by eexists).
  - destruct (import_module default_module) as [module|err]; simpl.
    + destruct (getattr module a) as [f|err]; simpl; [left; by eexists|].
      destruct (is_ImportError_or_ValueError err) eqn:Herr; simpl;
        [right; left|right; right]; by eexists.
    + destruct (is_ImportError_or_ValueError err) eqn:Herr; simpl;
        [right; left|right; right]; by eexists.
  - destruct (import_module a) as [module|err]; simpl.
    + destruct (getattr module b) as [f|err]; simpl; [left; by eexists|].
      destruct (is_ImportError_or_ValueError err) eqn:Herr; simpl;
        [right; left|right; right]; by eexists.
    + destruct (is_ImportError_or_ValueError err) eqn:Herr; simpl;
        [right; left|right; right]; by eexists.
  - destruct (import_module default_module) as [module|err]; simpl.
    + destruct (getattr module a) as [f|err]; simpl; [left; by eexists|].
      destruct (is_ImportError_or_ValueError err) eqn:Herr; simpl;
        [right; left|right; right]; by eexists.
    + destruct (is_ImportError_or_ValueError err) eqn:Herr; simpl;
        [right; left|right; right]; by eexists.
Qed.

Lemma compile_expression_outcome transform log :
  (∃ f, compile_expression transform log = (Ok (Some f), log))
  ∨ (∃ record, compile_expression transform log = (Ok None, log ++ [record]))
  ∨ (∃ err, compile_expression transform log = (Raise err, log)
            ∧ is_Exception err = false).
Proof.
  unfold compile_expression.
  destruct (_ ≫= _) as [f|err]; [left; by eexists|].
  destruct (is_Exception err) eqn:Herr;
    unfold lift, mbind, M_bind, LOG_error; simpl;
    [right; left|right; right]; by eexists.
Qed.

(** X7. Whatever the field mapping, the record and the runtime,
    [get_transformed_value] appends at most one record to the log, and when
    it appends one it returns the value the record had under the key: a
    logged failure always leaves the original value. *)
Theorem get_transformed_value_logged_keeps_value
    mapped_field mapped_document key log :
  let outcome := get_transformed_value mapped_field mapped_document key log in
  outcome.2 = log
  ∨ ∃ record val, outcome.2 = log ++ [record]
                  ∧ dict_get key mapped_document = Ok val
                  ∧ outcome.1 = Ok val.
Proof.
  unfold get_transformed_value, lift, mbind, M_bind, mret, M_ret, LOG_error.
  destruct (dict_get key mapped_document) as [val|err]; simpl; [|by left].
  destruct (entry_contains "transform" mapped_field); simpl; [|by left].
  destruct (entry_getitem "transform" mapped_field) as [transform|err];
    simpl; [|by left].
  destruct (str_head transform) as [c|err]; simpl; [|by left].
  assert ((∃ f, (if Ascii.eqb c "@" then resolve_reference transform
                 else compile_expression transform) log = (Ok (Some f), log))
          ∨ (∃ record, (if Ascii.eqb c "@" then resolve_reference transform
                        else compile_expression transform) log
                       = (Ok None, log ++ [record]))
          ∨ (∃ err, (if Ascii.eqb c "@" then resolve_reference transform
                     else compile_expression transform) log = (Raise err, log)))
    as [[f ->]|[[record ->]|[err ->]]]; simpl.
  { destruct (Ascii.eqb c "@").
    - destruct (resolve_reference_outcome transform log)
        as [?|[?|(err & ? & _)]]; eauto.
    - destruct (compile_expression_outcome transform log)
        as [?|[?|(err & ? & _)]]; eauto. }
  - destruct (f val) as [new_val|err]; simpl; [by left|].
    destruct (is_Exception err); simpl; [|by left].
    right. by exists (FieldTransformationError err), val.
  - right. by exists record, val.
  - by left.
Qed.

(** X8. For a field whose transform is an expression (a non-empty string
    that does not start with ['@']) and a key the record holds,
    [get_transformed_value] returns a value or raises an exception that is
    not of class [Exception]: a failure to compile, to execute or to apply
    the expression is caught, and the only exceptions that reach the caller
    are those [except Exception] does not match. *)
Theorem expression_transform_absorbs_Exceptions
    o c transform mapped_document key val log :
  o !! "transform" = Some (String c transform) →
  Ascii.eqb c "@" = false →
  dict_get key mapped_document = Ok val →
  let outcome := get_transformed_value (EObj o) mapped_document key log in
  (∃ v, outcome.1 = Ok v)
  ∨ (∃ err, outcome.1 = Raise err ∧ is_Exception err = false).
Proof.
  intros Ho Hc Hval.
  unfold get_transformed_value, lift, mbind, M_bind, mret, M_ret, LOG_error.
  rewrite Hval. simpl.
  assert (contains "transform" o = true) as -> by (apply contains_true; eauto).
  unfold getitem. rewrite Ho. simpl. rewrite Hc.
  destruct (compile_expression_outcome (String c transform) log)
    as [[f ->]|[[record ->]|(err' & -> & Herr')]]; simpl.
  - destruct (f val) as [new_val|err']; simpl; [eauto|].
    destruct (is_Exception err') eqn:Herr'; simpl; eauto.
  - eauto.
  - eauto.
Qed.

Lemma str_contains_dot_cons c s :
  str_contains "." (String c s) = false →
  Ascii.eqb c "." = false ∧ str_contains "." s = false.
Proof.
  cbn [str_contains String.prefix].
  destruct (ascii_dec "." c) as [<-|Hne]; [by destruct s|].
  intros Hs. split; [|done]. apply Ascii.eqb_neq. congruence.
Qed.

Lemma split_last_dot_no_dot s :
  str_contains "." s = false → split_last_dot s = None.
Proof.
  induction s as [|c s IH]; [done|].
  intros [Hc Hs]%str_contains_dot_cons. simpl. by rewrite IH, Hc.
Qed.

Lemma split_last_dot_app module_path name :
  str_contains "." name = false →
  split_last_dot (module_path +:+ "." +:+ name) = Some (module_path, name).
Proof.
  intros Hname. induction module_path as [|c module_path IH]; simpl.
  - by rewrite split_last_dot_no_dot.
  - simpl in IH. by rewrite IH.
Qed.

(** X9. How a reference transform is looked up and applied. When the text
    after ['@'] has no dot, the function is the attribute of that name of the
    module [mongo_connector.doc_managers.transforms]; when it has one, the
    module is the text before the last dot and the function the text after
    it. When the module is importable and has the attribute, the value is
    replaced by what the function returns and nothing is logged; when the
    function raises an exception of class [Exception], the value is kept and
    the failure is logged. *)
Theorem reference_transform_lookup
    o reference module_path name module f mapped_document key val log :
  str_contains "." name = false →
  (reference = name ∧ module_path = default_module)
  ∨ reference = module_path +:+ "." +:+ name →
  o !! "transform" = Some ("@" +:+ reference) →
  dict_get key mapped_document = Ok val →
  import_module module_path = Ok module →
  module !! name = Some f →
  get_transformed_value (EObj o) mapped_document key log
  = match f val with
    | Ok new_val => (Ok new_val, log)
    | Raise err =>
        if is_Exception err
        then (Ok val, log ++ [FieldTransformationError err])
        else (Raise err, log)
    end.
Proof.
  intros Hname Hreference Ho Hval Himport Hattr.
  unfold get_transformed_value, resolve_reference, lift, mbind, M_bind, mret,
    M_ret, LOG_error.
  rewrite Hval. simpl.
  assert (contains "transform" o = true) as -> by (apply contains_true; eauto).
  unfold getitem. rewrite Ho. simpl.
  change ("" +:+ reference) with reference.
  assert (rsplit_dot reference = [module_path; name]
          ∨ (rsplit_dot reference = [name] ∧ module_path = default_module))
    as [-> | [-> ->]].
  { unfold rsplit_dot. destruct Hreference as [[-> ->]| ->].
    - right. by rewrite split_last_dot_no_dot.
    - left. by rewrite split_last_dot_app. }
  - simpl. rewrite Himport. simpl. unfold getattr. rewrite Hattr. simpl.
    destruct (f val) as [new_val|err]; [done|]. by destruct (is_Exception err).
  - simpl. rewrite Himport. simpl. unfold getattr. rewrite Hattr. simpl.
    destruct (f val) as [new_val|err]; [done|]. by destruct (is_Exception err).
Qed.

(** ** Transformed documents *)

Lemma mapM_log_keys {A} (g : string → M A) keys log r log' :
  mapM_log (λ key, v ← g key; mret (key, v)) keys log = (Ok r, log') →
  r.*1 = keys.
Proof.
  revert log r log'.
  induction keys as [|k keys IH]; intros log r log'; simpl.
  - unfold mret, M_ret. by intros [= <- _].
  - unfold mbind, M_bind, mret, M_ret in *.
    destruct (g k log) as [[v|err] log1]; [|done].
    destruct (mapM_log _ keys log1) as [[r'|err] log2] eqn:Hrest; [|done].
    intros [= <- _]. simpl. f_equal. by eapply IH.
Qed.

(** X10. When [get_transformed_document] returns a record, the record has
    the keys of the record it was given, in the same order: transforming
    values adds, drops and moves no key. *)
Theorem get_transformed_document_keeps_keys
    mappings db collection mapped_document log r log' :
  get_transformed_document mappings db collection mapped_document log
    = (Ok r, log') →
  dict_keys r = dict_keys mapped_document.
Proof.
  unfold get_transformed_document, lift, mbind at 1, M_bind at 1.
  destruct (_ ≫= _) as [mapped_fields|err]; [|done].
  apply mapM_log_keys.
Qed.

(** X11. For a database or a collection the configuration does not map,
    [get_transformed_document] raises the [KeyError] of the missing name and
    logs nothing, whatever the record, the empty one included. *)
Theorem get_transformed_document_unmapped
    mappings db collection mapped_document log :
  lookup_collection mappings db collection = None →
  ∃ missing, (missing = db ∨ missing = collection)
    ∧ get_transformed_document mappings db collection mapped_document log
      = (Raise (KeyError missing), log).
Proof.
  unfold lookup_collection, get_transformed_document, lift, getitem.
  unfold mbind at 1, M_bind at 1.
  destruct (mappings !! db) as [dbmapping|]; simpl.
  - intros ->. exists collection. auto.
  - intros _. exists db. auto.
Qed.

Lemma add_mapped_field_origin acc kv acc' :
  add_mapped_field acc kv = Ok acc' →
  ∀ key e, acc' !! key = Some e →
    acc !! key = Some e
    ∨ ∃ o type, kv.2 = e ∧ e = EObj o ∧ o !! "dest" = Some key
                ∧ o !! "type" = Some type
                ∧ type ∉ [ARRAY_TYPE; ARRAY_OF_SCALARS_TYPE].
Proof.
  unfold add_mapped_field. destruct kv as [k [s|o]]; simpl.
  - destruct (str_contains "dest" s); [done|]. intros [= <-]. auto.
  - destruct (contains "dest" o); [|intros [= <-]; auto].
    unfold getitem. destruct (o !! "type") as [type|] eqn:Htype; [|done].
    simpl. case_bool_decide as Harr; [intros [= <-]; auto|].
    destruct (o !! "dest") as [dest|] eqn:Hdest; [|done]. simpl.
    intros [= <-] key e. rewrite lookup_insert. case_decide as Hkey.
    + intros [= <-]. subst dest. right. eauto 10.
    + auto.
Qed.

Lemma mapped_fields_origin l acc mapped_fields :
  foldM add_mapped_field acc l = Ok mapped_fields →
  ∀ key e, mapped_fields !! key = Some e →
    acc !! key = Some e
    ∨ ∃ kv o type, kv ∈ l ∧ kv.2 = e ∧ e = EObj o ∧ o !! "dest" = Some key
                   ∧ o !! "type" = Some type
                   ∧ type ∉ [ARRAY_TYPE; ARRAY_OF_SCALARS_TYPE].
Proof.
  revert acc. induction l as [|kv l IH]; intros acc; simpl.
  - intros [= <-]. auto.
  - destruct (add_mapped_field acc kv) as [acc'|err] eqn:Hstep; [|done].
    simpl. intros Hrest key e He.
    destruct (IH _ Hrest key e He) as [Hacc|(kv' & o & type & ? & ?)].
    + destruct (add_mapped_field_origin _ _ _ Hstep key e Hacc)
        as [?|(o & type & ?)]; [by left|].
      right. exists kv, o, type. split; [left|done].
    + right. exists kv', o, type. split; [by right|done].
Qed.

Lemma dict_get_not_in key (d : record) :
  key ∉ dict_keys d → dict_get key d = Raise (KeyError key).
Proof.
  unfold dict_keys. induction d as [|[k v] d IH]; simpl; [done|].
  intros [Hne Hnotin]%not_elem_of_cons. rewrite decide_False by done. auto.
Qed.

Lemma dict_get_elem k v (d : record) :
  NoDup (dict_keys d) → (k, v) ∈ d → dict_get k d = Ok v.
Proof.
  unfold dict_keys. induction d as [|[k' v'] d IH]; simpl.
  - intros _ Hin. by apply elem_of_nil in Hin.
  - intros [Hnotin Hnodup]%NoDup_cons [[= -> ->]|Hin]%elem_of_cons.
    + by rewrite decide_True.
    + rewrite decide_False; [auto|]. intros ->. apply Hnotin.
      apply list_elem_of_fmap. by exists (k, v).
Qed.

Lemma mapM_log_untouched (g : string → M value) keys log r log' key res :
  mapM_log (λ key, v ← g key; mret (key, v)) keys log = (Ok r, log') →
  (∀ log, g key log = (res, log)) →
  key ∈ keys →
  dict_get key r = res.
Proof.
  intros Hrun Hg. revert log r log' Hrun.
  induction keys as [|k keys IH]; intros log r log' Hrun Hin.
  - by apply elem_of_nil in Hin.
  - simpl in Hrun. unfold mbind, M_bind, mret, M_ret in Hrun.
    destruct (g k log) as [[v|err] log1] eqn:Hk; [|done].
    destruct (mapM_log _ keys log1) as [[r'|err] log2] eqn:Hrest; [|done].
    injection Hrun as <- <-. simpl.
    destruct (decide (k = key)) as [->|Hne].
    + rewrite Hg in Hk. by injection Hk as -> _.
    + apply elem_of_cons in Hin as [?|Hin]; [congruence|]. by eapply IH.
Qed.

(** X12. When [get_transformed_document] returns a record, a key that is not
    the [dest] of a field of a scalar type keeps its value: the destinations
    of array and array-of-scalars fields, and the keys no field maps to, are
    passed through untouched. *)
Theorem get_transformed_document_passes_through
    mappings db collection dbmapping mapping mapped_document log r log' key :
  mappings !! db = Some dbmapping →
  dbmapping !! collection = Some mapping →
  get_transformed_document mappings db collection mapped_document log
    = (Ok r, log') →
  (∀ field o type, mapping !! field = Some (EObj o) →
                   o !! "dest" = Some key → o !! "type" = Some type →
                   type ∈ ARRAYS_TYPE) →
  dict_get key r = dict_get key mapped_document.
Proof.
  intros Hdb Hcoll Hrun Hnone.
  unfold get_transformed_document, lift, getitem in Hrun.
  unfold mbind at 1, M_bind at 1 in Hrun.
  rewrite Hdb in Hrun. simpl in Hrun. rewrite Hcoll in Hrun. simpl in Hrun.
  destruct (foldM add_mapped_field ∅ (map_to_list mapping))
    as [mapped_fields|err] eqn:Hfields; [|done].
  assert (mapped_fields !! key = None) as Hkey.
  { destruct (mapped_fields !! key) as [e|] eqn:He; [|done]. exfalso.
    destruct (mapped_fields_origin _ _ _ Hfields key e He)
      as [Hempty|([field e'] & o & type & Hin & ? & -> & Hdest & Htype & Harr)].
    - by rewrite lookup_empty in Hempty.
    - simpl in *. subst e'. apply elem_of_map_to_list in Hin.
      apply Harr. by eapply Hnone. }
  destruct (decide (key ∈ dict_keys mapped_document)) as [Hin|Hnotin].
  - eapply mapM_log_untouched; [exact Hrun| |done].
    intros log0. simpl. rewrite Hkey. by unfold lift, mbind, M_bind, mret, M_ret.
  - rewrite (dict_get_not_in key mapped_document Hnotin).
    apply dict_get_not_in. apply mapM_log_keys in Hrun.
    unfold dict_keys. by rewrite Hrun.
Qed.

Lemma foldM_raises {A B} (f : B → A → result B) l acc e :
  (∀ acc a, a ∈ l → (∃ acc', f acc a = Ok acc') ∨ f acc a = Raise e) →
  (∃ a, a ∈ l ∧ ∀ acc, f acc a = Raise e) →
  foldM f acc l = Raise e.
Proof.
  revert acc. induction l as [|a l IH]; intros acc Hall (a' & Ha' & Hraise).
  - by apply elem_of_nil in Ha'.
  - simpl. destruct (Hall acc a) as [[acc' Hacc']| ->]; [left| |done].
    rewrite Hacc'. simpl. apply IH.
    + intros acc0 a0 Ha0. apply Hall. by right.
    + apply elem_of_cons in Ha' as [->|Ha']; [|eauto].
      rewrite Hraise in Hacc'. done.
Qed.

Lemma add_mapped_field_object acc k o :
  field_conforms o = true → ∃ acc', add_mapped_field acc (k, EObj o) = Ok acc'.
Proof.
  unfold field_conforms, add_mapped_field. simpl. intros Hconf.
  destruct (contains "dest" o) eqn:Hdest; [|eauto].
  apply contains_true in Hdest as [dest Hdest].
  unfold getitem. destruct (o !! "type") as [type|]; [|done]. clear Hconf.
  simpl. case_bool_decide; [eauto|]. rewrite Hdest. simpl. eauto.
Qed.

Lemma mapped_fields_total mapping pk l acc :
  collection_conforms mapping →
  mapping !! "pk" = Some (EStr pk) →
  str_contains "dest" pk = false →
  (∀ kv, kv ∈ l → kv ∈ map_to_list mapping) →
  ∃ mapped_fields, foldM add_mapped_field acc l = Ok mapped_fields.
Proof.
  intros [_ Hall] Hpk Hsub. revert acc.
  induction l as [|[k e] l IH]; intros acc Hl; simpl; [eauto|].
  assert (∃ acc', add_mapped_field acc (k, e) = Ok acc') as [acc' ->].
  { assert (mapping !! k = Some e) as He
      by (apply elem_of_map_to_list, Hl; left).
    pose proof (Hall _ _ He) as Hconf. unfold entry_conforms in Hconf.
    destruct e as [s|o].
    - apply bool_decide_eq_true in Hconf as ->.
      rewrite Hpk in He. injection He as ->.
      unfold add_mapped_field. simpl. rewrite Hsub. eauto.
    - apply andb_true_iff in Hconf as [_ Hconf].
      by apply add_mapped_field_object. }
  simpl. apply IH. intros kv Hkv. apply Hl. by right.
Qed.

Lemma mapM_log_cons {A B} (f : A → M B) a l log :
  mapM_log f (a :: l) log
  = match f a log with
    | (Ok b, log1) =>
        match mapM_log f l log1 with
        | (Ok r, log2) => (Ok (b :: r), log2)
        | (Raise e, log2) => (Raise e, log2)
        end
    | (Raise e, log1) => (Raise e, log1)
    end.
Proof. reflexivity. Qed.

Lemma mapM_log_identity (g : string → M value) (d : record) log :
  (∀ k v, (k, v) ∈ d → ∀ log, g k log = (Ok v, log)) →
  mapM_log (λ key, v ← g key; mret (key, v)) (dict_keys d) log = (Ok d, log).
Proof.
  unfold dict_keys. induction d as [|[k v] d IH]; intros Hg; [done|].
  rewrite fmap_cons, mapM_log_cons. simpl.
  unfold mbind at 1, M_bind at 1. rewrite (Hg k v) by left.
  change (@mret M _ _ (k, v) log) with (@Ok (string * value) (k, v), log).
  cbv beta iota.
  rewrite IH; [done|].
  intros k' v' Hin. apply Hg. by right.
Qed.

(** X13. In a configuration that conforms to the schema, for a mapped
    collection whose primary-key name does not contain the word [dest] and
    none of whose fields has a transform, [get_transformed_document] returns
    the record it was given (distinct keys assumed) and logs nothing. *)
Theorem get_transformed_document_without_transforms
    mappings db collection dbmapping mapping pk mapped_document log :
  conforms_to_schema mappings →
  mappings !! db = Some dbmapping →
  dbmapping !! collection = Some mapping →
  mapping !! "pk" = Some (EStr pk) →
  str_contains "dest" pk = false →
  (∀ field o, mapping !! field = Some (EObj o) → o !! "transform" = None) →
  NoDup (dict_keys mapped_document) →
  get_transformed_document mappings db collection mapped_document log
  = (Ok mapped_document, log).
Proof.
  intros Hschema Hdb Hcoll Hpk Hsub Hplain Hnodup.
  unfold get_transformed_document, lift, getitem.
  unfold mbind at 1, M_bind at 1.
  rewrite Hdb. simpl. rewrite Hcoll. simpl.
  destruct (mapped_fields_total mapping pk (map_to_list mapping) ∅)
    as [mapped_fields Hfields]; [exact (Hschema _ _ Hdb _ _ Hcoll)|done..|].
  rewrite Hfields. apply mapM_log_identity.
  intros k v Hin log0. pose proof (dict_get_elem _ _ _ Hnodup Hin) as Hget.
  destruct (mapped_fields !! k) as [e|] eqn:He.
  - destruct (mapped_fields_origin _ _ _ Hfields k e He)
      as [Hempty|([field e'] & o & type & Hin' & ? & -> & _)].
    { by rewrite lookup_empty in Hempty. }
    simpl in *. subst e'. apply elem_of_map_to_list in Hin'.
    unfold get_transformed_value, lift, mbind, M_bind, mret, M_ret.
    rewrite Hget. simpl.
    assert (contains "transform" o = false) as ->
      by (apply contains_false; by eapply Hplain).
    done.
  - unfold lift. by rewrite Hget.
Qed.

(** X14. In a configuration that conforms to the schema, for a mapped
    collection whose primary-key name contains the word [dest],
    [get_transformed_document] raises [TypeError] for every record, before
    any value is looked at, and logs nothing: the comprehension that collects
    the scalar fields subscripts the string stored under ["pk"]. *)
Theorem get_transformed_document_dest_in_pk_name
    mappings db collection dbmapping mapping pk mapped_document log :
  conforms_to_schema mappings →
  mappings !! db = Some dbmapping →
  dbmapping !! collection = Some mapping →
  mapping !! "pk" = Some (EStr pk) →
  str_contains "dest" pk = true →
  get_transformed_document mappings db collection mapped_document log
  = (Raise TypeError, log).
Proof.
  intros Hschema Hdb Hcoll Hpk Hsub.
  destruct (Hschema _ _ Hdb _ _ Hcoll) as [_ Hall].
  unfold get_transformed_document, lift, getitem.
  unfold mbind at 1, M_bind at 1.
  rewrite Hdb. simpl. rewrite Hcoll. simpl.
  rewrite (foldM_raises add_mapped_field (map_to_list mapping) ∅ TypeError);
    [done| |].
  - intros acc [k e] Hin. apply elem_of_map_to_list in Hin.
    pose proof (Hall _ _ Hin) as Hconf. unfold entry_conforms in Hconf.
    destruct e as [s|o].
    + right. apply bool_decide_eq_true in Hconf as ->.
      rewrite Hpk in Hin. injection Hin as ->.
      unfold add_mapped_field. simpl. by rewrite Hsub.
    + left. apply andb_true_iff in Hconf as [_ Hconf].
      by apply add_mapped_field_object.
  - exists ("pk", EStr pk). split; [by apply elem_of_map_to_list|].
    intros acc. unfold add_mapped_field. simpl. by rewrite Hsub.
Qed.

Lemma add_mapped_field_keeps acc kv acc' key :
  add_mapped_field acc kv = Ok acc' →
  is_Some (acc !! key) → is_Some (acc' !! key).
Proof.
  unfold add_mapped_field. destruct kv as [k [s|o]]; simpl.
  - destruct (str_contains "dest" s); [done|]. by intros [= <-].
  - destruct (contains "dest" o); [|by intros [= <-]].
    unfold getitem. destruct (o !! "type") as [type|]; [|done]. simpl.
    case_bool_decide; [by intros [= <-]|].
    destruct (o !! "dest") as [dest|]; [|done]. simpl.
    intros [= <-] Hacc. rewrite lookup_insert. by case_decide.
Qed.

Lemma mapped_fields_found l acc mapped_fields key :
  foldM add_mapped_field acc l = Ok mapped_fields →
  (is_Some (acc !! key)
   ∨ ∃ k o type, (k, EObj o) ∈ l ∧ o !! "dest" = Some key
                 ∧ o !! "type" = Some type
                 ∧ type ∉ [ARRAY_TYPE; ARRAY_OF_SCALARS_TYPE]) →
  is_Some (mapped_fields !! key).
Proof.
  revert acc. induction l as [|kv l IH]; intros acc; simpl.
  - intros [= <-] [?|(k & o & type & Hin & _)]; [done|].
    by apply elem_of_nil in Hin.
  - destruct (add_mapped_field acc kv) as [acc'|err] eqn:Hstep; [|done].
    simpl. intros Hrest Hfound. apply (IH _ Hrest).
    destruct Hfound as [Hacc|(k & o & type & Hin & Hdest & Htype & Harr)].
    + left. by eapply add_mapped_field_keeps.
    + apply elem_of_cons in Hin as [<-|Hin]; [|right; eauto 10].
      left. unfold add_mapped_field in Hstep. simpl in Hstep.
      assert (contains "dest" o = true) as Hc by (apply contains_true; eauto).
      rewrite Hc in Hstep. unfold getitem in Hstep.
      rewrite Htype in Hstep. simpl in Hstep.
      rewrite bool_decide_eq_false_2 in Hstep by done.
      rewrite Hdest in Hstep. simpl in Hstep. injection Hstep as <-.
      by rewrite lookup_insert_eq.
Qed.

Lemma mapM_log_value (g : string → M value) keys log r log' key res :
  mapM_log (λ key, v ← g key; mret (key, v)) keys log = (Ok r, log') →
  (∀ log, (g key log).1 = res) →
  key ∈ keys →
  dict_get key r = res.
Proof.
  intros Hrun Hg. revert log r log' Hrun.
  induction keys as [|k keys IH]; intros log r log' Hrun Hin.
  - by apply elem_of_nil in Hin.
  - simpl in Hrun. unfold mbind, M_bind, mret, M_ret in Hrun.
    destruct (g k log) as [[v|err] log1] eqn:Hk; [|done].
    destruct (mapM_log _ keys log1) as [[r'|err] log2] eqn:Hrest; [|done].
    injection Hrun as <- <-. simpl.
    destruct (decide (k = key)) as [->|Hne].
    + rewrite <- (Hg log), Hk. done.
    + apply elem_of_cons in Hin as [?|Hin]; [congruence|]. by eapply IH.
Qed.

(** X15. When [get_transformed_document] returns a record, the value it
    holds under a key of the given record that is the [dest] of exactly one
    field of a scalar type is the value [get_transformed_value] computes for
    that field, that record and that key. *)
Theorem get_transformed_document_applies_field
    mappings db collection dbmapping mapping mapped_document log r log'
    key field o type :
  mappings !! db = Some dbmapping →
  dbmapping !! collection = Some mapping →
  get_transformed_document mappings db collection mapped_document log
    = (Ok r, log') →
  key ∈ dict_keys mapped_document →
  mapping !! field = Some (EObj o) →
  o !! "dest" = Some key →
  o !! "type" = Some type →
  type ∉ ARRAYS_TYPE →
  (∀ field' o' type', mapping !! field' = Some (EObj o') →
                      o' !! "dest" = Some key → o' !! "type" = Some type' →
                      type' ∉ ARRAYS_TYPE → o' = o) →
  dict_get key r = (get_transformed_value (EObj o) mapped_document key log).1.
Proof.
  intros Hdb Hcoll Hrun Hkey Hfield Hdest Htype Hscalar Hunique.
  unfold get_transformed_document, lift, getitem in Hrun.
  unfold mbind at 1, M_bind at 1 in Hrun.
  rewrite Hdb in Hrun. simpl in Hrun. rewrite Hcoll in Hrun. simpl in Hrun.
  destruct (foldM add_mapped_field ∅ (map_to_list mapping))
    as [mapped_fields|err] eqn:Hfields; [|done].
  assert (mapped_fields !! key = Some (EObj o)) as Hmf.
  { destruct (mapped_fields_found _ _ _ key Hfields) as [e He].
    { right. exists field, o, type. split; [by apply elem_of_map_to_list|done]. }
    destruct (mapped_fields_origin _ _ _ Hfields key e He)
      as [Hempty|([field' e'] & o' & type' & Hin & ? & -> & ? & ? & ?)].
    { by rewrite lookup_empty in Hempty. }
    simpl in *. subst e'. apply elem_of_map_to_list in Hin.
    rewrite He. do 2 f_equal. by eapply Hunique. }
  destruct (oblivious_get_transformed_value (EObj o) mapped_document key)
    as (res & out & Hw).
  rewrite Hw. simpl.
  eapply mapM_log_value; [exact Hrun| |done].
  intros log0. simpl. rewrite Hmf, Hw. done.
Qed.

(** ** What a successful validation guarantees *)

Lemma for_each_all_Ok {A} (f : A → result unit) l :
  (∀ a, a ∈ l → f a = Ok tt) → for_each f l = Ok tt.
Proof.
  induction l as [|a l IH]; intros Hall; simpl; [done|].
  rewrite (Hall a) by left. simpl. apply IH. intros a' Ha'. apply Hall.
  by right.
Qed.

Lemma primary_key_field_type mapping pk_type :
  (pk ← primary_key_field mapping; entry_getitem "type" pk) = Ok pk_type
  ↔ resolved_pk_type mapping = Some pk_type.
Proof.
  unfold primary_key_field, resolved_pk_type, getitem.
  destruct (mapping !! "pk") as [[pk|o]|]; simpl; [|done..].
  destruct (mapping !! pk) as [[s|o]|]; simpl; [done| |].
  - unfold getitem. destruct (o !! "type"); simpl; split; by intros [= ->].
  - unfold getitem. rewrite lookup_singleton_eq. simpl.
    split; by intros [= ->].
Qed.

Lemma getitem_Some {V} k (m : gmap string V) v :
  m !! k = Some v → getitem k m = Ok v.
Proof. unfold getitem. by intros ->. Qed.

Lemma getitem_None {V} k (m : gmap string V) :
  m !! k = None → getitem k m = Raise (KeyError k).
Proof. unfold getitem. by intros ->. Qed.

Lemma check_foreign_key_Ok database dbmapping collection mapping o dest :
  check_foreign_key database dbmapping collection mapping (EObj o) dest = Ok tt
  ↔ ∃ fk_name linked_mapping fk fk_type,
      o !! "fk" = Some fk_name
      ∧ dbmapping !! dest = Some linked_mapping
      ∧ linked_mapping !! fk_name = Some (EObj fk)
      ∧ fk !! "type" = Some fk_type
      ∧ resolved_pk_type mapping = Some fk_type.
Proof.
  unfold check_foreign_key.
  destruct (contains dest dbmapping) eqn:Hc; simpl.
  2:{ apply contains_false in Hc. split; [done|].
      intros (?&?&?&?&?&?&?). by simplify_eq. }
  apply contains_true in Hc as [linked_mapping Hdest].
  destruct (o !! "fk") as [fk_name|] eqn:Hfk.
  2:{ rewrite (getitem_None _ _ Hfk). simpl. split; [done|].
      by intros (?&?&?&?&?&?&?). }
  rewrite (getitem_Some _ _ _ Hfk). simpl.
  rewrite (getitem_Some _ _ _ Hdest). simpl.
  destruct (contains fk_name linked_mapping) eqn:Hc; simpl.
  2:{ apply contains_false in Hc. split; [done|].
      intros (?&?&?&?&?&?&?&?&?). by simplify_eq. }
  apply contains_true in Hc as [fk_entry Hfk_entry].
  rewrite (getitem_Some _ _ _ Hfk_entry). simpl.
  pose proof (primary_key_field_type mapping) as Hpk.
  destruct (primary_key_field mapping) as [pk|err]; simpl in *.
  2:{ split; [done|]. intros (?&?&?&fk_type&?&?&?&?&Hres).
      by apply Hpk in Hres. }
  destruct fk_entry as [s|fk]; simpl.
  { split; [done|]. intros (?&?&?&?&?&?&?&?&?). by simplify_eq. }
  destruct (fk !! "type") as [fk_type|] eqn:Hfk_type.
  2:{ rewrite (getitem_None _ _ Hfk_type). simpl. split; [done|].
      intros (?&?&?&?&?&?&?&?&?). by simplify_eq. }
  rewrite (getitem_Some _ _ _ Hfk_type). simpl.
  destruct (entry_getitem "type" pk) as [pk_type|err] eqn:Hpk_type; simpl.
  2:{ split; [done|]. intros (?&?&?&fk_type'&?&?&?&?&Hres).
      by apply Hpk in Hres. }
  case_bool_decide as Hne; simpl.
  - split.
    + by destruct (getitem "pk" mapping).
    + intros (?&?&?&fk_type'&?&?&?&?&Hres). simplify_eq.
      apply Hpk in Hres. by simplify_eq.
  - split; [intros _|done].
    exists fk_name, linked_mapping, fk, fk_type. split_and!; try done.
    apply Hpk. f_equal. by destruct (decide (fk_type = pk_type)).
Qed.

Lemma check_value_field_Ok database dbmapping collection o dest :
  check_value_field database dbmapping collection (EObj o) dest = Ok tt
  ↔ ∃ valuefield linked_mapping,
      o !! "valueField" = Some valuefield
      ∧ dbmapping !! dest = Some linked_mapping
      ∧ is_Some (linked_mapping !! valuefield).
Proof.
  unfold check_value_field. simpl.
  destruct (o !! "valueField") as [valuefield|] eqn:Hvf.
  2:{ rewrite (getitem_None _ _ Hvf). simpl. split; [done|].
      by intros (?&?&?&?). }
  rewrite (getitem_Some _ _ _ Hvf). simpl.
  destruct (dbmapping !! dest) as [linked_mapping|] eqn:Hdest.
  2:{ rewrite (getitem_None _ _ Hdest). simpl. split; [done|].
      by intros (?&?&?&?&?). }
  rewrite (getitem_Some _ _ _ Hdest). simpl.
  destruct (contains valuefield linked_mapping) eqn:Hc; simpl.
  - apply contains_true in Hc. split; [intros _|done]. eauto.
  - apply contains_false in Hc. split; [done|].
    intros (?&?&?&?&[? ?]). by simplify_eq.
Qed.

Lemma check_field_Ok database dbmapping collection mapping field o type :
  mapping !! field = Some (EObj o) →
  o !! "type" = Some type →
  check_field database dbmapping collection mapping field = Ok tt
  ↔ (field ≠ "pk" → type ∈ ARRAYS_TYPE →
     array_field_sound dbmapping mapping o).
Proof.
  intros Hfield Htype. unfold check_field.
  case_bool_decide as Hpk; simpl; [|by split].
  rewrite (getitem_Some _ _ _ Hfield). simpl.
  rewrite (getitem_Some _ _ _ Htype). simpl.
  case_bool_decide as Harr; simpl; [|by split].
  unfold array_field_sound.
  destruct (o !! "dest") as [dest|] eqn:Hdest.
  2:{ rewrite (getitem_None _ _ Hdest). simpl. split; [done|]. intros Hsound.
      by destruct (Hsound Hpk Harr) as (?&?&?&?&?&?&?). }
  rewrite (getitem_Some _ _ _ Hdest). simpl.
  pose proof (check_foreign_key_Ok database dbmapping collection mapping o dest)
    as Hfk.
  pose proof (check_value_field_Ok database dbmapping collection o dest)
    as Hvf.
  destruct (check_foreign_key _ _ _ _ _ _) as [[]|err]; simpl.
  2:{ split; [done|]. intros Hsound.
      destruct (Hsound Hpk Harr) as (?&?&?&?&?&?&?&?&?&?&?&?).
      simplify_eq. assert (Raise err = Ok tt); [|done]. apply Hfk. eauto 10. }
  destruct Hfk as [Hfk _].
  destruct (Hfk eq_refl) as (fk_name & linked & fk & fk_type & ? & ? & ? & ? & ?).
  case_bool_decide as Haos; simpl.
  - rewrite Hvf. split.
    + intros (valuefield & linked' & ? & ? & ?) _ _. simplify_eq.
      exists dest, fk_name, linked, fk, fk_type. split_and!; try done.
      intros _. eauto.
    + intros Hsound.
      destruct (Hsound Hpk Harr) as (?&?&?&?&?&?&?&?&?&?&?&Haos').
      simplify_eq. destruct Haos' as (valuefield & ? & ?); [done|]. eauto.
  - split; [intros _ _ _|done].
    exists dest, fk_name, linked, fk, fk_type. split_and!; try done.
    intros ?. by simplify_eq.
Qed.

Lemma check_primary_key_Ok database dbmapping collection mapping :
  map_Forall (λ _ m, collection_conforms m) dbmapping →
  collection_conforms mapping →
  check_primary_key database dbmapping collection mapping = Ok tt
  ↔ pk_resolvable dbmapping collection mapping.
Proof.
  intros Hall [[pk Hpk] Hconf]. unfold pk_resolvable.
  pose proof (Hconf _ _ Hpk) as Hstr. unfold entry_conforms in Hstr.
  destruct pk as [pk|o].
  2:{ apply andb_true_iff in Hstr as [Hne _].
      by apply negb_true_iff, bool_decide_eq_false in Hne. }
  destruct (mapping !! pk) as [e|] eqn:Hfield.
  - unfold check_primary_key. rewrite (getitem_Some _ _ _ Hpk). simpl.
    assert (contains pk mapping = true) as -> by (apply contains_true; eauto).
    simpl. split; [intros _|done]. exists pk. eauto.
  - destruct (check_primary_key_outcome database dbmapping collection mapping
                pk Hall Hpk Hfield) as [[Hl ->]|[Hn ->]].
    + split; [intros _|done]. exists pk. eauto.
    + split; [done|]. intros (pk' & ? & [[? ?]|?]); by simplify_eq.
Qed.

Lemma check_collection_Ok database dbmapping collection mapping :
  dbmapping !! collection = Some mapping →
  check_collection database dbmapping collection = Ok tt
  ↔ check_primary_key database dbmapping collection mapping = Ok tt
    ∧ ∀ field, is_Some (mapping !! field) →
               check_field database dbmapping collection mapping field = Ok tt.
Proof.
  intros Hcoll. unfold check_collection.
  rewrite (getitem_Some _ _ _ Hcoll). simpl.
  destruct (check_primary_key _ _ _ _) as [[]|err]; simpl.
  - split.
    + intros Hfields. split; [done|]. intros field Hfield.
      apply (for_each_Ok _ _ Hfields). by apply elem_of_keys_of.
    + intros [_ Hfields]. apply for_each_all_Ok. intros field Hfield.
      by apply Hfields, elem_of_keys_of.
  - split; [done|]. by intros [? _].
Qed.

Lemma check_database_Ok mappings database dbmapping :
  mappings !! database = Some dbmapping →
  check_database mappings database = Ok tt
  ↔ ∀ collection, is_Some (dbmapping !! collection) →
                  check_collection database dbmapping collection = Ok tt.
Proof.
  intros Hdb. unfold check_database.
  rewrite (getitem_Some _ _ _ Hdb). simpl. split.
  - intros Hall collection Hcoll.
    apply (for_each_Ok _ _ Hall). by apply elem_of_keys_of.
  - intros Hall. apply for_each_all_Ok. intros collection Hcoll.
    by apply Hall, elem_of_keys_of.
Qed.

(** ** The primary-key step inside the validator *)

Lemma for_each_prefix {A} (f : A → result unit) l a l' :
  for_each f l = Ok tt →
  for_each f (l ++ a :: l') = (f a;; for_each f l').
Proof.
  induction l as [|b l IH]; simpl; [done|].
  destruct (f b) as [[]|err]; simpl; [auto|done].
Qed.

(** The validator stops at the first check that fails: when the databases
    and the collections visited before [collection] pass, what the
    primary-key step of [collection] raises is what [validate_mapping]
    raises. *)
Lemma validate_mapping_stops_at_primary_key
    mappings database dbmapping collection mapping
    databases databases' collections collections' err :
  conforms_to_schema mappings →
  mappings !! database = Some dbmapping →
  dbmapping !! collection = Some mapping →
  keys_of mappings = databases ++ database :: databases' →
  keys_of dbmapping = collections ++ collection :: collections' →
  for_each (check_database mappings) databases = Ok tt →
  for_each (check_collection database dbmapping) collections = Ok tt →
  check_primary_key database dbmapping collection mapping = Raise err →
  validate_mapping mappings = Raise err.
Proof.
  intros Hschema Hdb Hcoll Hdbs Hcols Hbefore Hbefore' Hpk.
  assert (check_collection database dbmapping collection = Raise err) as Hc.
  { unfold check_collection. rewrite (getitem_Some _ _ _ Hcoll). simpl.
    by rewrite Hpk. }
  assert (check_database mappings database = Raise err) as Hd.
  { unfold check_database. rewrite (getitem_Some _ _ _ Hdb). simpl.
    by rewrite Hcols, (for_each_prefix _ _ _ _ Hbefore'), Hc. }
  unfold validate_mapping. rewrite bool_decide_eq_true_2 by done.
  by rewrite Hdbs, (for_each_prefix _ _ _ _ Hbefore), Hd.
Qed.

Lemma validate_mapping_passes mappings :
  conforms_to_schema mappings →
  referentially_sound mappings →
  validate_mapping mappings = Ok tt.
Proof.
  intros Hschema Hsound. unfold validate_mapping.
  rewrite bool_decide_eq_true_2 by done. apply for_each_all_Ok.
  intros database [dbmapping Hdb]%elem_of_keys_of.
  rewrite (check_database_Ok _ _ _ Hdb). intros collection [mapping Hcoll].
  rewrite (check_collection_Ok _ _ _ _ Hcoll).
  destruct (Hsound _ _ _ _ Hdb Hcoll) as [Hpk Hfields].
  pose proof (Hschema _ _ Hdb _ _ Hcoll) as Hconf. split.
  - apply check_primary_key_Ok; [exact (Hschema _ _ Hdb)|done..].
  - intros field [e He]. destruct Hconf as [_ Hconf].
    specialize (Hconf _ _ He). unfold entry_conforms in Hconf.
    destruct e as [s|o].
    + apply bool_decide_eq_true in Hconf as ->.
      unfold check_field. by rewrite bool_decide_eq_false_2 by by intros ?.
    + apply andb_true_iff in Hconf as [_ Hconf].
      unfold field_conforms in Hconf.
      destruct (o !! "type") as [type|] eqn:Htype; [|done].
      rewrite (check_field_Ok _ _ _ _ _ _ _ He Htype).
      intros _ Harr. by eapply Hfields.
Qed.

Lemma scalar_field_conforms key type :
  key ≠ "pk" → type ∉ ARRAYS_TYPE →
  entry_conforms key (EObj {[ "type" := type ]}) = true.
Proof.
  intros Hkey Hscalar. unfold entry_conforms, field_conforms.
  rewrite bool_decide_eq_false_2 by done. simpl.
  rewrite lookup_singleton_eq.
  rewrite (bool_decide_eq_false_2 (type ∈ ARRAYS_TYPE)) by done.
  rewrite bool_decide_eq_false_2; [done|].
  intros ->. apply Hscalar. unfold ARRAYS_TYPE. set_solver.
Qed.

Section the_two_collections.
Variables database A B pkA pkB field fk type : string.
Hypothesis distinct : A ≠ B.
Hypothesis pkA_field : pkA ≠ "pk".
Hypothesis field_field : field ≠ "pk".
Hypothesis fk_field : fk ≠ "pk".
Hypothesis pkA_not_array : pkA ≠ field.
Hypothesis pkB_field : pkB ≠ "pk".
Hypothesis pkB_unmapped : pkB ≠ fk.
Hypothesis scalar : type ∉ ARRAYS_TYPE.
Hypothesis array_types : ARRAY_TYPE ≠ ARRAY_OF_SCALARS_TYPE.

Lemma two_collections_conform :
  conforms_to_schema (two_collections database A B pkA pkB field fk type).
Proof.
  unfold two_collections, conforms_to_schema.
  apply map_Forall_singleton.
  apply map_Forall_insert_2; [|apply map_Forall_singleton].
  - split; [by rewrite lookup_insert_eq|].
    apply map_Forall_insert_2; [by apply bool_decide_eq_true|].
    apply map_Forall_insert_2; [by apply scalar_field_conforms|].
    apply map_Forall_singleton.
    unfold entry_conforms, field_conforms.
    rewrite bool_decide_eq_false_2 by done. simpl.
    rewrite lookup_insert_eq.
    rewrite (bool_decide_eq_true_2 (ARRAY_TYPE ∈ ARRAYS_TYPE))
      by (unfold ARRAYS_TYPE; set_solver).
    rewrite bool_decide_eq_false_2 by done.
    unfold contains.
    rewrite !bool_decide_eq_true_2; [done|by simplify_map_eq..].
  - split; [by rewrite lookup_insert_eq|].
    apply map_Forall_insert_2; [by apply bool_decide_eq_true|].
    apply map_Forall_singleton. by apply scalar_field_conforms.
Qed.

Lemma two_collections_sound :
  referentially_sound (two_collections database A B pkA pkB field fk type).
Proof.
  unfold two_collections.
  intros database' dbmapping collection mapping
    [<- <-]%lookup_singleton_Some Hcoll.
  apply lookup_insert_Some in Hcoll as [[<- <-]|[Hne Hcoll]].
  - split.
    + exists pkA. split; [by rewrite lookup_insert_eq|]. left.
      by simplify_map_eq.
    + intros field' o type' Hfield Htype Harr.
      apply lookup_insert_Some in Hfield as [[_ [=]]|[_ Hfield]].
      apply lookup_insert_Some in Hfield as [[_ [= <-]]|[_ Hfield]].
      { rewrite lookup_singleton_eq in Htype. by simplify_eq. }
      apply lookup_singleton_Some in Hfield as [_ [= <-]].
      exists B, fk,
        ({[ "pk" := EStr pkB; fk := EObj {[ "type" := type ]} ]}
           : collection_mapping),
        ({[ "type" := type ]} : field_mapping), type.
      split_and!.
      * by simplify_map_eq.
      * by simplify_map_eq.
      * by simplify_map_eq.
      * by simplify_map_eq.
      * by simplify_map_eq.
      * unfold resolved_pk_type. by simplify_map_eq.
      * intros Hscalars. rewrite lookup_insert_eq in Hscalars.
        by simplify_eq.
  - apply lookup_singleton_Some in Hcoll as [<- <-]. split.
    + exists pkB. split; [by rewrite lookup_insert_eq|]. right.
      exists A,
        ({[ "pk" := EStr pkA; pkA := EObj {[ "type" := type ]};
            field := EObj {[ "type" := ARRAY_TYPE; "dest" := B;
                             "fk" := fk ]} ]} : collection_mapping).
      split; [done|]. split; [by simplify_map_eq|].
      exists field,
        ({[ "type" := ARRAY_TYPE; "dest" := B; "fk" := fk ]} : field_mapping),
        ARRAY_TYPE.
      split_and!; [done|by simplify_map_eq|by simplify_map_eq| |
                   by simplify_map_eq].
      unfold ARRAYS_TYPE. set_solver.
    + intros field' o type' Hfield Htype Harr.
      apply lookup_insert_Some in Hfield as [[_ [=]]|[_ Hfield]].
      apply lookup_singleton_Some in Hfield as [_ [= <-]].
      rewrite lookup_singleton_eq in Htype. by simplify_eq.
Qed.
End the_two_collections.

(** C4. In a configuration that conforms to the schema, for a collection
    whose [pk] value is not a key of its own mapping, the primary-key step of
    [validate_mapping] raises "primary key mapping not found" exactly when no
    other collection of the database has a field of an array type whose
    [dest] is this collection, and passes exactly when one has; the search
    gives the same answer in whatever order the collections are visited.
    [validate_mapping] stops at the first check that fails: it raises this
    error for this collection only when the link does not exist; when the
    link does not exist it never succeeds; and when the databases and the
    collections visited before this one pass, it raises this error for this
    collection exactly when the link does not exist. The database of two
    collections in which [A] has an array field with dest [B], the foreign
    key names a field of [B] of the type of the primary key of [A], and [B]
    maps no field to its primary key, validates. *)
Theorem primary_key_resolution mappings database dbmapping collection mapping pk :
  conforms_to_schema mappings →
  mappings !! database = Some dbmapping →
  dbmapping !! collection = Some mapping →
  mapping !! "pk" = Some (EStr pk) →
  mapping !! pk = None →
  let not_found : result unit :=
    Raise (InvalidConfiguration (PkNotFound pk database collection)) in
  (check_primary_key database dbmapping collection mapping = not_found
   ↔ ¬ linked dbmapping collection)
  ∧ (check_primary_key database dbmapping collection mapping = Ok tt
     ↔ linked dbmapping collection)
  ∧ (∀ cols, cols ≡ₚ keys_of dbmapping →
       find_linked_collection dbmapping collection cols
       = find_linked_collection dbmapping collection (keys_of dbmapping))
  ∧ (validate_mapping mappings = not_found → ¬ linked dbmapping collection)
  ∧ (¬ linked dbmapping collection →
     ∃ err, validate_mapping mappings = Raise err)
  ∧ (∀ databases databases' collections collections',
       keys_of mappings = databases ++ database :: databases' →
       keys_of dbmapping = collections ++ collection :: collections' →
       for_each (check_database mappings) databases = Ok tt →
       for_each (check_collection database dbmapping) collections = Ok tt →
       (validate_mapping mappings = not_found
        ↔ ¬ linked dbmapping collection))
  ∧ (∀ db A B pkA pkB field fk type,
       A ≠ B → pkA ≠ "pk" → field ≠ "pk" → fk ≠ "pk" → pkA ≠ field →
       pkB ≠ "pk" → pkB ≠ fk →
       type ∉ ARRAYS_TYPE → ARRAY_TYPE ≠ ARRAY_OF_SCALARS_TYPE →
       validate_mapping (two_collections db A B pkA pkB field fk type)
       = Ok tt).
Proof.
  intros Hschema Hdb Hcoll Hpk Hmissing not_found. subst not_found.
  pose proof (Hschema _ _ Hdb) as Hall.
  assert (check_primary_key database dbmapping collection mapping = Ok tt
          ↔ linked dbmapping collection) as Hok.
  { destruct (check_primary_key_outcome database dbmapping collection mapping
                pk Hall Hpk Hmissing) as [[Hl ->]|[Hn ->]];
      split; (done || (intros ?; contradiction)). }
  assert (check_primary_key database dbmapping collection mapping
            = Raise (InvalidConfiguration (PkNotFound pk database collection))
          ↔ ¬ linked dbmapping collection) as Hraise.
  { destruct (check_primary_key_outcome database dbmapping collection mapping
                pk Hall Hpk Hmissing) as [[Hl ->]|[Hn ->]];
      split; (done || (intros ?; contradiction)). }
  split_and!.
  - exact Hraise.
  - exact Hok.
  - intros cols. by apply find_linked_collection_order.
  - intros Hv. by eapply validate_mapping_pk_error.
  - intros Hnot. destruct (validate_mapping mappings) as [[]|err] eqn:Hv.
    + exfalso. apply Hnot, Hok. by eapply validate_mapping_Ok.
    + by exists err.
  - intros databases databases' collections collections' Hdbs Hcols Hb Hb'.
    split.
    + intros Hv. by eapply validate_mapping_pk_error.
    + intros Hnot. apply Hraise in Hnot.
      by eapply validate_mapping_stops_at_primary_key.
  - intros db A B pkA pkB field fk type ? ? ? ? ? ? ? ? ?.
    apply validate_mapping_passes.
    + by apply two_collections_conform.
    + by apply two_collections_sound.
Qed.

(** X16. [validate_mapping] succeeds exactly on the configurations that
    conform to the schema and are referentially sound: in every collection
    the primary key names one of the collection's keys or another collection
    of the database has an array field that points at the collection, and
    every field of an array type names an existing collection of the same
    database as its [dest], a field of that collection as its [fk], whose
    type is the type of the field the primary key names ([SERIAL] when it
    names none), and, for an array of scalars, a key of that collection as
    its [valueField]. *)
Theorem validate_mapping_succeeds_iff mappings :
  validate_mapping mappings = Ok tt
  ↔ conforms_to_schema mappings ∧ referentially_sound mappings.
Proof.
  unfold validate_mapping, referentially_sound.
  case_bool_decide as Hschema; [|split; [done|by intros [? _]]].
  split.
  - intros Hdbs. split; [done|].
    intros database dbmapping collection mapping Hdb Hcoll.
    assert (check_database mappings database = Ok tt) as Hcheck
      by (apply (for_each_Ok _ _ Hdbs), elem_of_keys_of; eauto).
    rewrite (check_database_Ok _ _ _ Hdb) in Hcheck.
    specialize (Hcheck collection ltac:(eauto)).
    rewrite (check_collection_Ok _ _ _ _ Hcoll) in Hcheck.
    destruct Hcheck as [Hpk Hfields]. split.
    + apply check_primary_key_Ok in Hpk; [done|exact (Hschema _ _ Hdb)|].
      exact (Hschema _ _ Hdb _ _ Hcoll).
    + intros field o type Hfield Htype Harr.
      specialize (Hfields field ltac:(eauto)).
      rewrite (check_field_Ok _ _ _ _ _ _ _ Hfield Htype) in Hfields.
      apply Hfields; [|done]. intros ->.
      destruct (Hschema _ _ Hdb _ _ Hcoll) as [_ Hconf].
      specialize (Hconf _ _ Hfield). unfold entry_conforms in Hconf.
      apply andb_true_iff in Hconf as [Hne _].
      by apply negb_true_iff, bool_decide_eq_false in Hne.
  - intros [_ Hsound]. apply for_each_all_Ok.
    intros database [dbmapping Hdb]%elem_of_keys_of.
    rewrite (check_database_Ok _ _ _ Hdb). intros collection [mapping Hcoll].
    rewrite (check_collection_Ok _ _ _ _ Hcoll).
    destruct (Hsound _ _ _ _ Hdb Hcoll) as [Hpk Hfields].
    pose proof (Hschema _ _ Hdb _ _ Hcoll) as Hconf. split.
    + apply check_primary_key_Ok; [exact (Hschema _ _ Hdb)|done..].
    + intros field [e He]. destruct Hconf as [_ Hconf].
      specialize (Hconf _ _ He). unfold entry_conforms in Hconf.
      destruct e as [s|o].
      * apply bool_decide_eq_true in Hconf as ->.
        unfold check_field. by rewrite bool_decide_eq_false_2 by by intros ?.
      * apply andb_true_iff in Hconf as [_ Hconf].
        unfold field_conforms in Hconf.
        destruct (o !! "type") as [type|] eqn:Htype; [|done].
        rewrite (check_field_Ok _ _ _ _ _ _ _ He Htype).
        intros _ Harr. by eapply Hfields.
Qed.

(** ** The exceptions of the validator *)

Lemma conforms_object mapping field o :
  collection_conforms mapping →
  mapping !! field = Some (EObj o) →
  field ≠ "pk" ∧ field_conforms o = true.
Proof.
  intros [_ Hconf] Hfield. specialize (Hconf _ _ Hfield).
  unfold entry_conforms in Hconf. apply andb_true_iff in Hconf as [Hne ?].
  split; [|done]. by apply negb_true_iff, bool_decide_eq_false in Hne.
Qed.

Lemma conforms_string mapping key s :
  collection_conforms mapping →
  mapping !! key = Some (EStr s) →
  key = "pk".
Proof.
  intros [_ Hconf] Hkey. specialize (Hconf _ _ Hkey).
  by apply bool_decide_eq_true in Hconf.
Qed.

Lemma check_primary_key_errors database dbmapping collection mapping err :
  map_Forall (λ _ m, collection_conforms m) dbmapping →
  collection_conforms mapping →
  check_primary_key database dbmapping collection mapping = Raise err →
  ∃ c, err = InvalidConfiguration c.
Proof.
  intros Hall Hconf. pose proof Hconf as [[pk Hpk] _].
  destruct pk as [pk|o].
  2:{ by destruct (conforms_object _ _ _ Hconf Hpk). }
  destruct (mapping !! pk) as [e|] eqn:Hfield.
  - unfold check_primary_key. rewrite (getitem_Some _ _ _ Hpk). simpl.
    by assert (contains pk mapping = true) as ->
      by (apply contains_true; eauto).
  - destruct (check_primary_key_outcome database dbmapping collection mapping
                pk Hall Hpk Hfield) as [[_ ->]|[_ ->]]; [done|].
    intros [= <-]. eauto.
Qed.

Lemma check_field_errors database dbmapping collection mapping field err :
  map_Forall (λ _ m, collection_conforms m) dbmapping →
  collection_conforms mapping →
  is_Some (mapping !! field) →
  check_field database dbmapping collection mapping field = Raise err →
  (∃ c, err = InvalidConfiguration c)
  ∨ (err = TypeError
     ∧ ∃ o, mapping !! field = Some (EObj o)
            ∧ (mapping !! "pk" = Some (EStr "pk") ∨ o !! "fk" = Some "pk")).
Proof.
  intros Hall Hconf [e He]. unfold check_field.
  case_bool_decide as Hfield; [|done]. rewrite (getitem_Some _ _ _ He). simpl.
  destruct e as [s|o].
  { by rewrite (conforms_string _ _ _ Hconf He) in Hfield. }
  destruct (conforms_object _ _ _ Hconf He) as [_ Ho].
  unfold field_conforms in Ho. simpl.
  destruct (o !! "type") as [type|] eqn:Htype; [|done].
  rewrite (getitem_Some _ _ _ Htype). simpl.
  case_bool_decide as Harr; [|done].
  apply andb_true_iff in Ho as [Href Hvf].
  apply andb_true_iff in Href as [[dest Hdest]%contains_true
                                    [fk_name Hfk]%contains_true].
  rewrite (getitem_Some _ _ _ Hdest). simpl.
  unfold check_foreign_key at 1.
  destruct (contains dest dbmapping) eqn:Hc; simpl; [|intros [= <-]; eauto].
  apply contains_true in Hc as [linked_mapping Hlinked].
  rewrite (getitem_Some _ _ _ Hfk). simpl.
  rewrite (getitem_Some _ _ _ Hlinked). simpl.
  destruct (contains fk_name linked_mapping) eqn:Hc; simpl;
    [|intros [= <-]; eauto].
  apply contains_true in Hc as [fk_entry Hfk_entry].
  rewrite (getitem_Some _ _ _ Hfk_entry). simpl.
  pose proof Hconf as [[pk Hpk] _]. destruct pk as [pk|po].
  2:{ by destruct (conforms_object _ _ _ Hconf Hpk). }
  unfold primary_key_field. rewrite (getitem_Some _ _ _ Hpk). simpl.
  destruct fk_entry as [s|fk]; simpl.
  { intros [= <-]. right. split; [done|]. exists o. split; [done|]. right.
    by rewrite <- (conforms_string _ _ _ (Hall _ _ Hlinked) Hfk_entry). }
  destruct (conforms_object _ _ _ (Hall _ _ Hlinked) Hfk_entry) as [_ Hfk_ok].
  unfold field_conforms in Hfk_ok.
  destruct (fk !! "type") as [fk_type|] eqn:Hfk_type; [|done].
  rewrite (getitem_Some _ _ _ Hfk_type). simpl.
  assert ((∃ pk_type, entry_getitem "type"
                        (default (EObj {["type" := "SERIAL"]}) (mapping !! pk))
                      = Ok pk_type)
          ∨ (entry_getitem "type"
               (default (EObj {["type" := "SERIAL"]}) (mapping !! pk))
             = Raise TypeError ∧ pk = "pk")) as [[pk_type ->]|[-> ->]].
  { destruct (mapping !! pk) as [[s|po]|] eqn:Hpk_field; simpl.
    - right. split; [done|]. by eapply conforms_string.
    - left. destruct (conforms_object _ _ _ Hconf Hpk_field) as [_ Hpo].
      unfold field_conforms in Hpo.
      destruct (po !! "type") as [pk_type|] eqn:Hpk_type; [|done].
      rewrite (getitem_Some _ _ _ Hpk_type). eauto.
    - left. rewrite (getitem_Some _ _ "SERIAL"); [eauto|].
      apply lookup_singleton_eq. }
  2:{ simpl. intros [= <-]. right. split; [done|]. exists o. auto. }
  simpl. destruct (bool_decide (fk_type ≠ pk_type)); simpl.
  { unfold getitem. rewrite Hpk. simpl. intros [= <-]. eauto. }
  destruct (decide (type = ARRAY_OF_SCALARS_TYPE)) as [Haos|Haos].
  2:{ by rewrite bool_decide_eq_false_2 by done. }
  rewrite bool_decide_eq_true_2 by done.
  rewrite bool_decide_eq_true_2 in Hvf by done.
  apply contains_true in Hvf as [valuefield Hvaluefield].
  unfold check_value_field. simpl.
  rewrite (getitem_Some _ _ _ Hvaluefield). simpl.
  rewrite (getitem_Some _ _ _ Hlinked). simpl.
  destruct (contains valuefield linked_mapping); simpl; [done|].
  intros [= <-]. eauto.
Qed.

(** X17. Whatever the configuration, an exception [validate_mapping] raises
    is an [InvalidConfiguration] or a [TypeError]; it is a [TypeError] only
    when a collection that has a field names its primary key [pk], or one of
    its fields names [pk] as its foreign key. On every other configuration
    the validator ends with success or with a configuration error. *)
Theorem validate_mapping_errors mappings err :
  validate_mapping mappings = Raise err →
  (∃ c, err = InvalidConfiguration c)
  ∨ (err = TypeError
     ∧ ∃ database dbmapping collection mapping field o,
         mappings !! database = Some dbmapping
         ∧ dbmapping !! collection = Some mapping
         ∧ mapping !! field = Some (EObj o)
         ∧ (mapping !! "pk" = Some (EStr "pk") ∨ o !! "fk" = Some "pk")).
Proof.
  unfold validate_mapping.
  case_bool_decide as Hschema; [|intros [= <-]; eauto].
  intros (database & [dbmapping Hdb]%elem_of_keys_of & Hd)%for_each_Raise.
  unfold check_database in Hd. rewrite (getitem_Some _ _ _ Hdb) in Hd.
  simpl in Hd.
  apply for_each_Raise in Hd
    as (collection & [mapping Hcoll]%elem_of_keys_of & Hc).
  unfold check_collection in Hc. rewrite (getitem_Some _ _ _ Hcoll) in Hc.
  simpl in Hc.
  pose proof (Hschema _ _ Hdb) as Hall.
  pose proof (Hall _ _ Hcoll) as Hconf.
  destruct (check_primary_key database dbmapping collection mapping)
    as [[]|err'] eqn:Hpk; simpl in Hc.
  - apply for_each_Raise in Hc as (field & Hfield%elem_of_keys_of & Hf).
    destruct (check_field_errors _ _ _ _ _ _ Hall Hconf Hfield Hf)
      as [?|[-> (o & ? & ?)]]; [by left|].
    right. split; [done|].
    by exists database, dbmapping, collection, mapping, field, o.
  - injection Hc as ->. left.
    exact (check_primary_key_errors _ _ _ _ _ Hall Hconf Hpk).
Qed.
End properties.

(** * The pipeline in an interpreter with state *)

Section process_properties.
Context {py : Interpreter}.

Lemma settled_ret {A} (Q : A → Prop) (a : A) :
  Q a → Process.settled Q (mret a).
Proof.
  intros Ha. exists (Ok a), []. split.
  - intros w log. by rewrite app_nil_r.
  - by intros ? [= <-].
Qed.

Lemma settled_value_of {A} (Q : A → Prop) (r : result A) :
  (∀ a, r = Ok a → Q a) → Process.settled Q (Process.value_of r).
Proof.
  intros Hr. exists r, []. split; [|done].
  intros w log. unfold Process.value_of, Process.in_log, lift. simpl.
  by rewrite app_nil_r.
Qed.

Lemma settled_LOG_error record :
  Process.settled (λ _, True) (Process.in_log (LOG_error record)).
Proof. exists (Ok tt), [record]. split; [|done]. by intros w log. Qed.

Lemma settled_bind {A B} (Q : A → Prop) (R : B → Prop)
    (m : Process.P A) (f : A → Process.P B) :
  Process.settled Q m →
  (∀ a, Q a → Process.settled R (f a)) →
  Process.settled R (m ≫= f).
Proof.
  intros (r & out & Hm & HQ) Hf. destruct r as [a|err].
  - destruct (Hf a (HQ a eq_refl)) as (r' & out' & Hfa & HR).
    exists r', (out ++ out'). split; [|done].
    intros w log. unfold mbind, Process.P_bind. rewrite Hm, Hfa.
    by rewrite app_assoc.
  - exists (Raise err), out. split; [|done].
    intros w log. unfold mbind, Process.P_bind. by rewrite Hm.
Qed.

Lemma settled_try_except {A} (Q : A → Prop)
    (body : Process.P A) caught (handler : exn → Process.P A) :
  Process.settled Q body →
  (∀ err, Process.settled Q (handler err)) →
  Process.settled Q (Process.try_except body caught handler).
Proof.
  intros (r & out & Hbody & HQ) Hhandler. destruct r as [a|err].
  - exists (Ok a), out. split; [|done].
    intros w log. unfold Process.try_except. by rewrite Hbody.
  - destruct (caught err) eqn:Hcaught.
    + destruct (Hhandler err) as (r' & out' & Hh & HQ').
      exists r', (out ++ out'). split; [|done].
      intros w log. unfold Process.try_except.
      rewrite Hbody, Hcaught, Hh. by rewrite app_assoc.
    + exists (Raise err), out. split; [|done].
      intros w log. unfold Process.try_except. by rewrite Hbody, Hcaught.
Qed.

Lemma settled_in_world {A} (Q : A → Prop)
    (f : world → result A * world) r :
  (∀ w, f w = (r, w)) → (∀ a, r = Ok a → Q a) →
  Process.settled Q (Process.in_world f).
Proof.
  intros Hf HQ. exists r, []. split; [|done].
  intros w log. unfold Process.in_world. simpl.
  by rewrite Hf, app_nil_r.
Qed.

Lemma settled_weaken {A} (Q R : A → Prop) (m : Process.P A) :
  (∀ a, Q a → R a) → Process.settled Q m → Process.settled R m.
Proof. intros HQR (r & out & Hm & HQ). exists r, out. eauto. Qed.

Lemma settled_mapM {A B} (f : A → Process.P B) l :
  (∀ a, a ∈ l → Process.settled (λ _, True) (f a)) →
  Process.settled (λ _, True) (Process.mapM f l).
Proof.
  induction l as [|a l IH]; intros Hf; simpl.
  - by apply settled_ret.
  - eapply settled_bind; [apply Hf; left|]. intros b _.
    eapply settled_bind; [apply IH; intros a' Ha'; apply Hf; by right|].
    intros r _. by apply settled_ret.
Qed.

Lemma resolve_reference_settled transform :
  match rsplit_dot (str_tail transform) with
  | [module_path; name] => Process.pure_reference module_path name
  | name :: _ => Process.pure_reference default_module name
  | [] => True
  end →
  Process.settled Process.stateless_if_any (Process.resolve_reference transform).
Proof.
  intros Hpure. unfold Process.resolve_reference.
  set (path := match rsplit_dot (str_tail transform) with
               | [module_path; transform_path] =>
                   Ok (module_path, transform_path)
               | transform_path :: _ => Ok (default_module, transform_path)
               | [] => Raise IndexError
               end).
  assert (∀ module_path name,
            path = Ok (module_path, name) →
            Process.pure_reference module_path name) as Hpath.
  { subst path. intros module_path name.
    destruct (rsplit_dot (str_tail transform)) as [|a [|b [|c l]]];
      [done|by intros [= <- <-]..]. }
  clearbody path. clear Hpure.
  eapply settled_bind; [apply (settled_value_of _ _ (λ a H, H))|].
  intros [module_path name] Heq. simpl in Heq.
  destruct (Hpath _ _ Heq) as (r & Himport & Hstateless).
  apply settled_try_except.
  - eapply settled_bind.
    { apply (settled_in_world (λ module, r = Ok module) _ r Himport).
      by intros. }
    intros module Hr. simpl in Hr.
    eapply settled_bind.
    { apply (settled_value_of
               (λ f, module !! name = Some f)). intros f.
      unfold Process.getattr. by destruct (module !! name); intros [= <-]. }
    intros f Hf. simpl in Hf. apply settled_ret.
    intros f' [= <-]. eauto.
  - intros err. eapply settled_bind; [apply settled_LOG_error|].
    intros _ _. by apply settled_ret.
Qed.

Lemma compile_expression_settled transform :
  Process.pure_expression ("transform = lambda val: " +:+ transform) →
  Process.settled Process.stateless_if_any (Process.compile_expression transform).
Proof.
  intros Hpure. unfold Process.compile_expression.
  apply settled_try_except.
  - eapply settled_bind; [apply (settled_value_of _ _ (λ a H, H))|].
    intros code Hcode. simpl in Hcode.
    destruct (Hpure code Hcode) as (r & Hexec & Hstateless).
    eapply settled_bind.
    { apply (settled_in_world (λ restricted_locals, r = Ok restricted_locals)
               _ r Hexec). by intros. }
    intros restricted_locals Hr. simpl in Hr.
    eapply settled_bind.
    { apply (settled_value_of
               (λ f, restricted_locals !! "transform" = Some f)). intros f.
      unfold getitem.
      by destruct (restricted_locals !! "transform"); intros [= <-]. }
    intros f Hf. simpl in Hf. apply settled_ret.
    intros f' [= <-]. eauto.
  - intros err. eapply settled_bind; [apply settled_LOG_error|].
    intros _ _. by apply settled_ret.
Qed.

Lemma get_transformed_value_settled mapped_field mapped_document key :
  (∀ o transform, mapped_field = EObj o →
                  o !! "transform" = Some transform →
                  Process.pure_transform transform) →
  Process.settled (λ _, True)
    (Process.get_transformed_value mapped_field mapped_document key).
Proof.
  intros Hpure. unfold Process.get_transformed_value.
  eapply settled_bind; [by apply (settled_value_of (λ _, True))|].
  intros val _.
  destruct (entry_contains "transform" mapped_field);
    [|by apply settled_ret].
  eapply settled_bind; [apply (settled_value_of _ _ (λ a H, H))|].
  intros transform Htransform. simpl in Htransform.
  eapply settled_bind; [apply (settled_value_of _ _ (λ a H, H))|].
  intros c Hc. simpl in Hc.
  assert (Process.pure_transform transform) as Ht.
  { destruct mapped_field as [s|o]; [done|]. apply (Hpure o); [done|].
    simpl in Htransform. unfold getitem in Htransform.
    by destruct (o !! "transform"); simplify_eq. }
  destruct transform as [|c' rest]; [done|]. injection Hc as ->.
  unfold Process.pure_transform in Ht.
  eapply (settled_bind Process.stateless_if_any).
  { destruct (Ascii.eqb c "@").
    - by apply resolve_reference_settled.
    - by apply compile_expression_settled. }
  intros [f|] Hf; [|by apply settled_ret].
  destruct (Hf f eq_refl) as [g Hg].
  apply settled_try_except.
  - by apply (settled_in_world _ _ (g val)).
  - intros err. eapply settled_bind; [apply settled_LOG_error|].
    intros _ _. by apply settled_ret.
Qed.

Lemma get_transformed_document_settled
    mappings db collection mapped_document :
  (∀ mapping field o transform,
     lookup_collection mappings db collection = Some mapping →
     mapping !! field = Some (EObj o) →
     o !! "transform" = Some transform →
     Process.pure_transform transform) →
  Process.settled (λ _, True)
    (Process.get_transformed_document mappings db collection
       mapped_document).
Proof.
  intros Hpure. unfold Process.get_transformed_document.
  eapply settled_bind; [apply (settled_value_of _ _ (λ a H, H))|].
  intros mapped_fields Hfields. simpl in Hfields.
  apply settled_mapM. intros key _.
  eapply settled_bind; [|intros v _; by apply settled_ret].
  destruct (mapped_fields !! key) as [mapped_field|] eqn:Hkey;
    [|by apply (settled_value_of (λ _, True))].
  apply get_transformed_value_settled. intros o transform -> Htransform.
  unfold getitem in Hfields.
  destruct (mappings !! db) as [mappings_db|] eqn:Hdb; [|done].
  simpl in Hfields.
  destruct (mappings_db !! collection) as [mappings_coll|] eqn:Hcoll;
    [|done].
  simpl in Hfields.
  destruct (mapped_fields_origin _ _ _ Hfields _ _ Hkey)
    as [Hempty|([field e] & o' & type & Hin & Heq & _)].
  { by rewrite lookup_empty in Hempty. }
  simpl in Heq. subst e. apply elem_of_map_to_list in Hin.
  apply (Hpure mappings_coll field o transform); [|done..].
  unfold lookup_collection. rewrite Hdb. simpl. done.
Qed.

Lemma transform_pipeline_settled mappings doc namespace :
  (∀ db collection mapping field o transform,
     db_and_collection namespace = (db, collection) →
     lookup_collection mappings db collection = Some mapping →
     mapping !! field = Some (EObj o) →
     o !! "transform" = Some transform →
     Process.pure_transform transform) →
  Process.settled (λ _, True)
    (Process.transform_pipeline mappings doc namespace).
Proof.
  intros Hpure. unfold Process.transform_pipeline.
  eapply settled_bind; [by apply (settled_value_of (λ _, True))|].
  intros mapped_document _.
  destruct (db_and_collection namespace) as [db collection] eqn:Hns.
  apply get_transformed_document_settled. intros mapping field o transform.
  by apply Hpure.
Qed.

End process_properties.

(** ** The interpreter without state

    When importing and executing are those of the runtime, in whatever
    world, the functions of [Process] are the functions of the module with
    the world passed along unchanged. *)

Section stateless_interpreter.
Context {py : Interpreter}.
Hypothesis imports : ∀ name w,
  import_module_in name w = (module_in_any_world (import_module name), w).
Hypothesis executes : ∀ code globals w,
  exec_code_in code globals w
  = (module_in_any_world (exec_code code globals), w).

Lemma get_transformed_value_in_any_world
    mapped_field mapped_document key s :
  Process.get_transformed_value mapped_field mapped_document key s
  = Process.in_log (get_transformed_value mapped_field mapped_document key) s.
Proof.
  destruct s as [w log].
  unfold Process.get_transformed_value, get_transformed_value,
    Process.value_of, Process.in_log, lift,
    mbind, Process.P_bind, M_bind, mret, Process.P_ret, M_ret.
  simpl.
  destruct (dict_get key mapped_document) as [val|]; simpl; [|done].
  destruct (entry_contains "transform" mapped_field); simpl; [|done].
  destruct (entry_getitem "transform" mapped_field) as [transform|]; simpl;
    [|done].
  destruct (str_head transform) as [c|]; simpl; [|done].
  destruct (Ascii.eqb c "@").
  - unfold Process.resolve_reference, resolve_reference, Process.value_of,
      Process.in_log, Process.in_world, Process.try_except, lift, LOG_error,
      mbind, Process.P_bind, M_bind, mret, Process.P_ret, M_ret.
    simpl.
    destruct (rsplit_dot (str_tail transform)) as [|a [|b [|c' l]]]; simpl;
      try done;
      rewrite imports; unfold module_in_any_world;
      (destruct (import_module _) as [module|err]; simpl;
       [unfold Process.getattr, getattr; rewrite lookup_fmap;
        destruct (module !! _) as [f|]; simpl;
        [unfold in_any_world; destruct (f val) as [|err]; simpl;
         [done|by destruct (is_Exception err)]
        |done]
       |by destruct (is_ImportError_or_ValueError err)]).
  - unfold Process.compile_expression, compile_expression, Process.value_of,
      Process.in_log, Process.in_world, Process.try_except, lift, LOG_error,
      mbind, Process.P_bind, M_bind, mret, Process.P_ret, M_ret.
    simpl.
    destruct (compile_restricted _) as [code|err]; simpl;
      [|by destruct (is_Exception err)].
    rewrite executes. unfold module_in_any_world.
    destruct (exec_code code restricted_globals) as [restricted_locals|err];
      simpl; [|by destruct (is_Exception err)].
    unfold getitem. rewrite lookup_fmap.
    destruct (restricted_locals !! "transform") as [f|]; simpl; [|done].
    unfold in_any_world. destruct (f val) as [|err]; simpl;
      [done|by destruct (is_Exception err)].
Qed.

Lemma mapM_in_any_world {A B} (f : A → Process.P B) (g : A → M B) l s :
  (∀ a s', f a s' = Process.in_log (g a) s') →
  Process.mapM f l s = Process.in_log (mapM_log g l) s.
Proof.
  intros Hfg. revert s. induction l as [|a l IH]; intros [w log]; [done|].
  simpl. unfold mbind, Process.P_bind, M_bind, Process.in_log in *. simpl.
  rewrite Hfg. simpl. destruct (g a log) as [[b|err] log']; simpl; [|done].
  rewrite IH. simpl. by destruct (mapM_log g l log') as [[r|err] log''].
Qed.

Lemma get_transformed_document_in_any_world
    mappings db collection mapped_document s :
  Process.get_transformed_document mappings db collection mapped_document s
  = Process.in_log
      (get_transformed_document mappings db collection mapped_document) s.
Proof.
  destruct s as [w log].
  unfold Process.get_transformed_document, get_transformed_document.
  unfold mbind at 1. unfold Process.P_bind, Process.value_of, lift.
  unfold Process.in_log at 1 2. simpl.
  unfold mbind at 4. unfold M_bind. simpl.
  destruct (_ ≫= _) as [mapped_fields|err]; simpl; [|done].
  apply (mapM_in_any_world _ _ _ (w, log)). intros key [w' log'].
  unfold mbind, Process.P_bind, M_bind, Process.in_log. simpl.
  destruct (mapped_fields !! key) as [mapped_field|].
  - rewrite get_transformed_value_in_any_world. unfold Process.in_log. simpl.
    by destruct (get_transformed_value _ _ _ _) as [[v|err] log''].
  - unfold Process.value_of, Process.in_log, lift. simpl.
    by destruct (dict_get key mapped_document).
Qed.

(** The pipeline of [Process] is the pipeline of the module. *)
Lemma transform_pipeline_in_any_world mappings doc namespace s :
  Process.transform_pipeline mappings doc namespace s
  = Process.in_log (transform_pipeline mappings doc namespace) s.
Proof.
  destruct s as [w log].
  unfold Process.transform_pipeline, transform_pipeline.
  unfold mbind, Process.P_bind, M_bind, Process.value_of, lift.
  unfold Process.in_log at 1 2. simpl.
  destruct (get_mapped_document mappings doc namespace) as [mapped|err];
    simpl; [|done].
  destruct (db_and_collection namespace) as [db collection].
  apply get_transformed_document_in_any_world.
Qed.
End stateless_interpreter.

(** * The module on the reference runtime *)

(** C1. [get_transformed_value] is specified never to raise to its caller.
    It does when the module of a reference transform exists and lacks the
    function: [operator] is importable and has no [double]; the
    [AttributeError] of [getattr] is not among the exceptions the source
    catches, and it reaches the caller. *)
Theorem missing_symbol_raises_to_caller :
  (∃ module, import_module (Runtime := cpython) "operator" = Ok module
             ∧ getattr module "double" = Raise (AttributeError "double"))
  ∧ get_transformed_value (rt := cpython)
      (field_with_transform "@operator.double") priced "price" []
    = (Raise (AttributeError "double"), []).
Proof. split; [eexists; split|]; vm_compute; reflexivity. Qed.

(** An empty transform string does not reach either branch: [transform[0]]
    raises [IndexError]. *)
Example empty_transform_raises :
  get_transformed_value (rt := cpython) (field_with_transform "") priced
    "price" []
  = (Raise IndexError, []).
Proof. vm_compute. reflexivity. Qed.

(** The absorbed failures, and the two transforms of section 8. *)
Example unknown_module_is_absorbed :
  get_transformed_value (rt := cpython)
    (field_with_transform "@nowhere.double") priced "price" []
  = (Ok (VInt 21), [TransformFunctionError (ImportError "nowhere")]).
Proof. vm_compute. reflexivity. Qed.

Example expression_doubles :
  get_transformed_value (rt := cpython) (field_with_transform "val * 2")
    priced "price" []
  = (Ok (VInt 42), []).
Proof. vm_compute. reflexivity. Qed.

Example reference_doubles :
  get_transformed_value (rt := cpython) (field_with_transform "@double")
    priced "price" []
  = (Ok (VInt 42), []).
Proof. vm_compute. reflexivity. Qed.

(** C2. The keys of the record [get_mapped_document] returns are specified
    to be exactly the output names of the retained fields. They are not when
    the destination of one retained field is the name of another:
    [legacy_config] passes validation, the document has the two fields [_id]
    and [id], and the record that comes out has the single key [legacy_id],
    holding the value of [_id], where the keys [id] and [legacy_id] are
    due. *)
Theorem chained_rename_loses_a_key :
  validate_mapping (rt := cpython) legacy_config = Ok tt
  ∧ format_document (Runtime := cpython) legacy_user
    = [("_id", VStr "abc"); ("id", VInt 7)]
  ∧ get_mapped_document (rt := cpython) legacy_config legacy_user "shop.users"
    = Ok [("legacy_id", VStr "abc")].
Proof. repeat split; vm_compute; reflexivity. Qed.

(** C3. An expression transform that reaches for a forbidden capability is
    specified to fail closed. [open] does not: the globals of the source hold
    the guarded builtins under ["__builtin__"], not under ["__builtins__"],
    so the expression runs with the builtins of the interpreter; [open] is
    called, nothing is logged and the value becomes the file object. *)
Theorem open_is_reachable_from_expression :
  restricted_globals (rt := cpython) !! "__builtins__" = None
  ∧ get_transformed_value (rt := cpython)
      (field_with_transform "open('/tmp/x', 'w')") priced "price" []
    = (Ok (VFile "/tmp/x" "w"), []).
Proof. split; vm_compute; reflexivity. Qed.

(** With the key spelled ["__builtins__"] the same expression fails on the
    name [open]. *)
Example open_is_unknown_under_guarded_globals :
  (code ← compile_restricted (Runtime := cpython)
            "transform = lambda val: open('/tmp/x', 'w')";
   restricted_locals ← exec_code (Runtime := cpython) code guarded_globals;
   transform ← getitem "transform" restricted_locals;
   transform (VInt 21))
  = Raise (NameError "open").
Proof. vm_compute. reflexivity. Qed.

(** C5. The foreign-key check is specified to raise "foreign key type
    mismatch" exactly when the two types differ, an unmapped primary key
    counting as [SERIAL]. It does not when the primary key is called [pk]:
    the configuration conforms to the schema, the foreign key of [items] and
    the assumed type of the unmapped primary key are both [SERIAL], and
    [validate_mapping] raises [TypeError] while reading the type of the
    primary key from the string stored under ["pk"]. *)
Theorem pk_named_pk_breaks_validation :
  conforms_to_schema (rt := cpython) pk_named_pk_config
  ∧ validate_mapping (rt := cpython) pk_named_pk_config = Raise TypeError.
Proof.
  split; [apply (bool_decide_unpack _); vm_compute; exact I|].
  vm_compute. reflexivity.
Qed.

(** C8. [is_id_autogenerated] is specified to return [True] exactly when
    no entry carries a dest equal to the primary key. It returns nothing
    when the name of the primary key contains the word [dest]:
    [destination_config] passes validation, its field [destination] carries
    the dest [destination], and [is_id_autogenerated] raises [TypeError] on
    the entry ["pk"] instead of returning [False]. *)
Theorem dest_in_pk_name_breaks_is_id_autogenerated :
  validate_mapping (rt := cpython) destination_config = Ok tt
  ∧ is_id_autogenerated (rt := cpython) destination_config "shop.parcels"
    = Raise TypeError.
Proof. split; vm_compute; reflexivity. Qed.

(** C6 as the specification has it (every accessor fails on an absent
    namespace) does not hold of [get_scalar_array_fields]: the collection
    [customers] is absent from [orders_config] and the accessor returns the
    empty list. *)
Lemma scalar_array_fields_of_absent_collection :
  ¬ (lookup_collection orders_config "shop" "customers" = None →
     ∃ err, get_scalar_array_fields (rt := cpython) orders_config
              "shop" "customers" = Raise err).
Proof. intros H. destruct (H eq_refl) as [err Herr]. discriminate Herr. Qed.

(** C4 as the specification has it (the validator raises "primary key
    mapping not found" exactly when the link is missing) does not hold of
    [validate_mapping]: in [archive_config] the primary key [id] of [log] is
    none of its fields and no collection points at [log], and the validator
    stops earlier, at the array field of [archive] whose [dest] is no
    collection. *)
Lemma unlinked_collection_behind_failing_check :
  conforms_to_schema (rt := cpython) archive_config
  ∧ archive_config !! "shop" = Some archive_db
  ∧ archive_db !! "log" = Some log_mapping
  ∧ log_mapping !! "pk" = Some (EStr "id")
  ∧ log_mapping !! "id" = None
  ∧ validate_mapping (rt := cpython) archive_config
    = Raise (InvalidConfiguration (CollectionNotFound "nowhere" "shop"))
  ∧ ¬ (validate_mapping (rt := cpython) archive_config
       = Raise (InvalidConfiguration (PkNotFound "id" "shop" "log"))
       ↔ ¬ linked (rt := cpython) archive_db "log").
Proof.
  assert (conforms_to_schema (rt := cpython) archive_config) as Hschema
    by (apply (bool_decide_unpack _); vm_compute; exact I).
  split_and!; try reflexivity; [exact Hschema|].
  intros [_ Hraise].
  assert (¬ linked (rt := cpython) archive_db "log") as Hnot.
  { destruct (find_linked_collection_linked (rt := cpython) archive_db "log"
                (keys_of archive_db)) as (b & Hb & Hlinked).
    - exact (Hschema "shop" archive_db eq_refl).
    - intros c. apply elem_of_keys_of.
    - intros Hl. apply Hlinked in Hl. subst b. vm_compute in Hb.
      discriminate Hb. }
  specialize (Hraise Hnot). vm_compute in Hraise. discriminate Hraise.
Qed.

(** ** The theorems at concrete inputs *)

Lemma primary_key_resolution_witness :
  (check_primary_key (rt := cpython) "shop" shop_mapping "order_items"
     order_items_mapping = Ok tt
   ↔ linked (rt := cpython) shop_mapping "order_items")
  ∧ (validate_mapping (rt := cpython) orders_config
     = Raise (InvalidConfiguration (PkNotFound "id" "shop" "order_items"))
     ↔ ¬ linked (rt := cpython) shop_mapping "order_items")
  ∧ validate_mapping (rt := cpython)
      (two_collections (rt := cpython) "shop" "orders" "order_items"
         "_id" "id" "items" "order_id" "INT")
    = Ok tt.
Proof.
  pose proof (primary_key_resolution (rt := cpython) orders_config
                "shop" shop_mapping "order_items" order_items_mapping "id")
    as H.
  destruct H as (_ & Hok & _ & _ & _ & Hiff & Htwo).
  - apply (bool_decide_unpack _). vm_compute. exact I.
  - reflexivity.
  - reflexivity.
  - reflexivity.
  - reflexivity.
  - split_and!.
    + exact Hok.
    + first [ apply (Hiff [] [] ["orders"] []); vm_compute; reflexivity
            | apply (Hiff [] [] [] ["orders"]); vm_compute; reflexivity ].
    + apply Htwo; try discriminate.
      apply (bool_decide_unpack _). vm_compute. exact I.
Defined.

Lemma accessors_on_absent_names_witness :
  ∃ missing, (missing = "shop" ∨ missing = "customers")
    ∧ get_primary_key (rt := cpython) orders_config "shop.customers"
      = Raise (KeyError missing)
    ∧ get_mapped_field (rt := cpython) orders_config "shop.customers" "name"
      = Raise (KeyError missing)
    ∧ get_scalar_array_fields (rt := cpython) orders_config "shop" "customers"
      = Ok [].
Proof.
  refine (proj1 (accessors_on_absent_names (rt := cpython) orders_config
            "shop.customers" "shop" "customers" "name" _) _).
  - reflexivity.
  - reflexivity.
Defined.

Lemma unmapped_namespace_empty_record_witness :
  get_mapped_document (rt := cpython) orders_config legacy_user
    "shop.customers" = Ok [].
Proof.
  apply (unmapped_namespace_empty_record (rt := cpython) orders_config
           legacy_user "shop.customers" "shop" "customers").
  - reflexivity.
  - reflexivity.
Defined.

Lemma pk_entry_is_mapped_witness :
  is_mapped (rt := cpython) orders_config "shop.orders" (Some "pk") = true.
Proof.
  apply (pk_entry_is_mapped (rt := cpython) orders_config "shop.orders"
           "shop" "orders" orders_mapping).
  - apply (bool_decide_unpack _). vm_compute. exact I.
  - reflexivity.
  - reflexivity.
Defined.

(** ** The further properties at concrete inputs *)

(** Enumerates the entries of a concrete dictionary of the configuration. *)
Ltac entries H :=
  apply elem_of_map_to_list in H; vm_compute in H;
  repeat (apply elem_of_cons in H as [H|H]);
  [..|by apply elem_of_nil in H].

Ltac members H :=
  vm_compute in H;
  repeat (apply elem_of_cons in H as [H|H]);
  [..|by apply elem_of_nil in H].

Example library_validates :
  validate_mapping (rt := cpython) library_config = Ok tt.
Proof. vm_compute. reflexivity. Qed.

Example book_is_mapped :
  get_mapped_document (rt := cpython) library_config book "library.books"
  = Ok mapped_book.
Proof. vm_compute. reflexivity. Qed.

Lemma get_mapped_document_no_extraneous_key_witness :
  ∃ r, get_mapped_document (rt := cpython) library_config book "library.books"
       = Ok r
       ∧ NoDup (dict_keys r)
       ∧ ∀ y, y ∈ dict_keys r →
              ∃ k, k ∈ dict_keys (format_document (Runtime := cpython) book)
                   ∧ is_Some (books_mapping !! k)
                   ∧ y = output_name books_mapping k.
Proof.
  apply (get_mapped_document_no_extraneous_key (rt := cpython) library_config
           book "library.books" "library" "books" library_mapping
           books_mapping).
  - apply (bool_decide_unpack _). vm_compute. exact I.
  - reflexivity.
  - reflexivity.
  - reflexivity.
  - apply (bool_decide_unpack _). vm_compute. exact I.
  - apply (bool_decide_unpack _). vm_compute. exact I.
Defined.

Lemma get_mapped_document_values_witness :
  ∃ r, get_mapped_document (rt := cpython) library_config book "library.books"
       = Ok r
       ∧ ∀ k, k ∈ dict_keys (format_document (Runtime := cpython) book) →
              is_Some (books_mapping !! k) →
              dict_get (output_name books_mapping k) r
              = dict_get k (format_document (Runtime := cpython) book)
              ∧ ∀ dest, get_mapped_field (rt := cpython) library_config
                          "library.books" k = Ok dest →
                        dict_get dest r
                        = dict_get k (format_document (Runtime := cpython) book).
Proof.
  apply (get_mapped_document_values (rt := cpython) library_config
           book "library.books" "library" "books" library_mapping
           books_mapping).
  - apply (bool_decide_unpack _). vm_compute. exact I.
  - reflexivity.
  - reflexivity.
  - reflexivity.
  - apply (bool_decide_unpack _). vm_compute. exact I.
  - apply (bool_decide_unpack _). vm_compute. exact I.
  - intros k k' Hk _ Hk' _ Hne Heq. members Hk; members Hk'; subst;
      solve [by destruct Hne | vm_compute in Heq; discriminate Heq].
  - intros k k' Hk _ Hk' _ Heq. members Hk; members Hk'; subst;
      solve [reflexivity | vm_compute in Heq; discriminate Heq].
Defined.

Lemma is_mapped_guards_accessors_witness :
  (is_mapped (rt := cpython) orders_config "shop.orders" None = true
   ↔ ∃ pk, get_primary_key (rt := cpython) orders_config "shop.orders"
           = Ok (EStr pk))
  ∧ (∀ dest, get_mapped_field (rt := cpython) orders_config "shop.orders" "_id"
             = Ok dest →
             is_mapped (rt := cpython) orders_config "shop.orders" (Some "_id")
             = true)
  ∧ (is_mapped (rt := cpython) orders_config "shop.orders" (Some "_id") = true →
     is_mapped (rt := cpython) orders_config "shop.orders" None = true).
Proof.
  apply (is_mapped_guards_accessors (rt := cpython) orders_config
           "shop.orders" "_id").
  apply (bool_decide_unpack _). vm_compute. exact I.
Defined.

Lemma get_scalar_array_fields_outcome_witness :
  ∃ fields, get_scalar_array_fields (rt := cpython) library_config
              "library" "books" = Ok fields
            ∧ NoDup fields
            ∧ ∀ f, f ∈ fields ↔
                   ∃ o, books_mapping !! f = Some (EObj o)
                        ∧ o !! "type"
                          = Some (ARRAY_OF_SCALARS_TYPE (Runtime := cpython)).
Proof.
  refine (proj1 (get_scalar_array_fields_outcome (rt := cpython)
                   library_config "library" "books" books_mapping "_id"
                   _ _ _) _).
  - apply (bool_decide_unpack _). vm_compute. exact I.
  - reflexivity.
  - reflexivity.
  - reflexivity.
Defined.

Lemma is_id_autogenerated_outcome_witness :
  ∃ b, is_id_autogenerated (rt := cpython) orders_config "shop.orders" = Ok b
       ∧ (b = true ↔
          ¬ ∃ field o, orders_mapping !! field = Some (EObj o)
                       ∧ o !! "dest" = Some "_id").
Proof.
  refine (proj1 (is_id_autogenerated_outcome (rt := cpython) orders_config
                   "shop.orders" "shop" "orders" orders_mapping "_id"
                   _ _ _ _) _).
  - apply (bool_decide_unpack _). vm_compute. exact I.
  - reflexivity.
  - reflexivity.
  - reflexivity.
  - reflexivity.
Defined.

Lemma expression_transform_absorbs_Exceptions_witness :
  let outcome :=
    get_transformed_value (rt := cpython) (EObj title_field)
      [("pages", VInt 100)] "pages" [] in
  (∃ v, outcome.1 = Ok v)
  ∨ (∃ err, outcome.1 = Raise err ∧ is_Exception err = false).
Proof.
  apply (expression_transform_absorbs_Exceptions (rt := cpython) title_field
           "v" "al * 2" [("pages", VInt 100)] "pages" (VInt 100) []).
  - reflexivity.
  - reflexivity.
  - reflexivity.
Defined.

Lemma reference_transform_lookup_witness :
  get_transformed_value (rt := cpython) (EObj negated_field) priced "price" []
  = match Py.operator_neg (VInt 21) with
    | Ok new_val => (Ok new_val, [])
    | Raise err =>
        if is_Exception err
        then (Ok (VInt 21), [] ++ [FieldTransformationError err])
        else (Raise err, [])
    end.
Proof.
  apply (reference_transform_lookup (rt := cpython) negated_field
           "operator.neg" "operator" "neg" {[ "neg" := Py.operator_neg ]}
           Py.operator_neg priced "price" (VInt 21) []).
  - reflexivity.
  - right. reflexivity.
  - reflexivity.
  - reflexivity.
  - reflexivity.
  - reflexivity.
Defined.

Lemma get_transformed_document_keeps_keys_witness :
  dict_keys [("id", VStr "b1"); ("pages", VInt 200)] = dict_keys mapped_book.
Proof.
  apply (get_transformed_document_keeps_keys (rt := cpython) library_config
           "library" "books" mapped_book []
           [("id", VStr "b1"); ("pages", VInt 200)] []).
  vm_compute. reflexivity.
Defined.

Lemma get_transformed_document_unmapped_witness :
  ∃ missing, (missing = "shop" ∨ missing = "customers")
    ∧ get_transformed_document (rt := cpython) orders_config
        "shop" "customers" [] []
      = (Raise (KeyError missing), []).
Proof.
  apply (get_transformed_document_unmapped (rt := cpython) orders_config
           "shop" "customers" [] []).
  reflexivity.
Defined.

Lemma get_transformed_document_passes_through_witness :
  dict_get "book_tags" [("pages", VInt 200); ("book_tags", VStr "t")]
  = dict_get "book_tags" [("pages", VInt 100); ("book_tags", VStr "t")].
Proof.
  apply (get_transformed_document_passes_through (rt := cpython)
           library_config "library" "books" library_mapping books_mapping
           [("pages", VInt 100); ("book_tags", VStr "t")] []
           [("pages", VInt 200); ("book_tags", VStr "t")] [] "book_tags").
  - reflexivity.
  - reflexivity.
  - vm_compute. reflexivity.
  - intros field o type Hfield Hdest Htype. entries Hfield; simplify_eq;
      vm_compute in Hdest; try discriminate Hdest.
    vm_compute in Htype. injection Htype as <-.
    apply (bool_decide_unpack _). vm_compute. exact I.
Defined.

Lemma get_transformed_document_without_transforms_witness :
  get_transformed_document (rt := cpython) orders_config "shop" "orders"
    [("id", VInt 3)] []
  = (Ok [("id", VInt 3)], []).
Proof.
  apply (get_transformed_document_without_transforms (rt := cpython)
           orders_config "shop" "orders" shop_mapping orders_mapping "_id").
  - apply (bool_decide_unpack _). vm_compute. exact I.
  - reflexivity.
  - reflexivity.
  - reflexivity.
  - reflexivity.
  - intros field o Hfield. entries Hfield; simplify_eq; vm_compute;
      reflexivity.
  - apply (bool_decide_unpack _). vm_compute. exact I.
Defined.

Lemma get_transformed_document_dest_in_pk_name_witness :
  get_transformed_document (rt := cpython) destination_config
    "shop" "parcels" [("destination", VStr "Paris")] []
  = (Raise TypeError, []).
Proof.
  apply (get_transformed_document_dest_in_pk_name (rt := cpython)
           destination_config "shop" "parcels"
           {[ "parcels" := parcels_mapping ]} parcels_mapping "destination").
  - apply (bool_decide_unpack _). vm_compute. exact I.
  - vm_compute. reflexivity.
  - reflexivity.
  - reflexivity.
  - reflexivity.
Defined.

Lemma get_transformed_document_applies_field_witness :
  dict_get "pages" [("id", VStr "b1"); ("pages", VInt 200)]
  = (get_transformed_value (rt := cpython) (EObj title_field) mapped_book
       "pages" []).1.
Proof.
  apply (get_transformed_document_applies_field (rt := cpython)
           library_config "library" "books" library_mapping books_mapping
           mapped_book [] [("id", VStr "b1"); ("pages", VInt 200)] []
           "pages" "sheets" title_field "INT").
  - reflexivity.
  - reflexivity.
  - vm_compute. reflexivity.
  - apply (bool_decide_unpack _). vm_compute. exact I.
  - reflexivity.
  - reflexivity.
  - reflexivity.
  - apply (bool_decide_unpack _). vm_compute. exact I.
  - intros field o type Hfield Hdest _ _. entries Hfield; simplify_eq;
      vm_compute in Hdest; try discriminate Hdest.
    vm_compute. reflexivity.
Defined.

Lemma validate_mapping_errors_witness :
  (∃ c, TypeError = InvalidConfiguration c)
  ∨ (TypeError = TypeError
     ∧ ∃ database dbmapping collection mapping field o,
         pk_named_pk_config !! database = Some dbmapping
         ∧ dbmapping !! collection = Some mapping
         ∧ mapping !! field = Some (EObj o)
         ∧ (mapping !! "pk" = Some (EStr "pk") ∨ o !! "fk" = Some "pk")).
Proof.
  apply (validate_mapping_errors (rt := cpython) pk_named_pk_config TypeError).
  vm_compute. reflexivity.
Defined.

(** ** The pipeline in a process with state *)


